(** * pycdo: the help-text parsing and attachment pipeline

    A shallow embedding of [pycdo/cdo.py] and [pycdo/utils.py].

    Python [str] values are modelled as [list ascii]; a character is read as
    the code point of the same number, so the model covers text in the
    range U+0000..U+00FF.  The character classes of Python's [re] module and
    of the [str] methods are written out for that range.

    Python dictionaries only used through lookups are [gmap]s; the one
    dictionary whose key order is observed ([op_docs], through
    [list(op_docs.keys())]) is an insertion-ordered association list.
    Exceptions are explicit: a function that can raise returns a
    [result]. *)

From Stdlib Require Import List Ascii String ZArith NArith Lia Bool Arith.
From stdpp Require Import base gmap list strings.
Import ListNotations.

Local Open Scope nat_scope.

(** Python strings. *)
Definition str := list ascii.

Definition L (s : string) : str := list_ascii_of_string s.

(** ** Exceptions *)

Inductive exn :=
| IndexError
| ValueError
| KeyError
| UnicodeDecodeError
| SynthesisError
| Exception (msg : str).

Inductive result (A : Type) :=
| Ok (a : A)
| Raise (e : exn).
Arguments Ok {A} a.
Arguments Raise {A} e.

Definition bind {A B} (r : result A) (f : A -> result B) : result B :=
  match r with
  | Ok a => f a
  | Raise e => Raise e
  end.

(** ** Character classes *)

Module Chr.

Definition code (c : ascii) : nat := nat_of_ascii c.

Definition between (lo hi : nat) (c : ascii) : bool :=
  (lo <=? code c) && (code c <=? hi).

Definition LF : ascii := ascii_of_nat 10.
Definition CR : ascii := ascii_of_nat 13.

(** [str.isspace] and the class [\s] of a [str] pattern: the characters of
    Unicode's white-space set below U+0100. *)
Definition is_space (c : ascii) : bool :=
  between 9 13 c || between 28 32 c
  || (code c =? 133) || (code c =? 160).

(** The line boundaries of [str.splitlines]. *)
Definition is_linebreak (c : ascii) : bool :=
  between 10 13 c || between 28 30 c || (code c =? 133).

(** [\d] of a [str] pattern: below U+0100 the only decimal digits are
    ASCII's. *)
Definition is_digit (c : ascii) : bool := between 48 57 c.
Definition is_upper (c : ascii) : bool := between 65 90 c.
Definition is_lower (c : ascii) : bool := between 97 122 c.
Definition is_alpha (c : ascii) : bool := is_upper c || is_lower c.

Definition lit (d : ascii) (c : ascii) : bool := Ascii.eqb c d.
Definition non (p : ascii -> bool) (c : ascii) : bool := negb (p c).
Definition any_of (ds : str) (c : ascii) : bool :=
  existsb (fun d => Ascii.eqb c d) ds.

(** [.] without [re.DOTALL]. *)
Definition dot (c : ascii) : bool := negb (Ascii.eqb c LF).

Definition to_upper (c : ascii) : ascii :=
  if is_lower c then ascii_of_nat (code c - 32) else c.
Definition to_lower (c : ascii) : ascii :=
  if is_upper c then ascii_of_nat (code c + 32) else c.

(** A class under [re.IGNORECASE]: a character matches when it or one of
    its case variants is in the class. *)
Definition icase (p : ascii -> bool) (c : ascii) : bool :=
  p c || p (to_lower c) || p (to_upper c).

End Chr.

(** ** The [str] methods the program uses *)

Module Str.

Fixpoint lstrip_by (p : ascii -> bool) (s : str) : str :=
  match s with
  | [] => []
  | c :: s' => if p c then lstrip_by p s' else s
  end.

Definition rstrip_by (p : ascii -> bool) (s : str) : str :=
  rev (lstrip_by p (rev s)).

Definition strip_by (p : ascii -> bool) (s : str) : str :=
  rstrip_by p (lstrip_by p s).

(** [s.strip()], [s.rstrip()], [s.strip('\n')] *)
Definition strip : str -> str := strip_by Chr.is_space.
Definition rstrip : str -> str := rstrip_by Chr.is_space.
Definition strip_chars (cs : str) : str -> str := strip_by (Chr.any_of cs).

(** [s.splitlines()]: a line ends at each boundary, [\r\n] counts as one,
    and no empty line is reported after a final boundary. *)
Fixpoint splitlines (s : str) : list str :=
  match s with
  | [] => []
  | c :: s' =>
      if Chr.is_linebreak c then
        if Ascii.eqb c Chr.CR then
          match s' with
          | d :: s'' =>
              if Ascii.eqb d Chr.LF then [] :: splitlines s''
              else [] :: splitlines s'
          | [] => [] :: splitlines s'
          end
        else [] :: splitlines s'
      else
        match splitlines s' with
        | [] => [[c]]
        | l :: ls => (c :: l) :: ls
        end
  end.

(** [s.split(d)] for a one-character separator [d]. *)
Fixpoint split_on (d : ascii) (s : str) : list str :=
  match s with
  | [] => [[]]
  | c :: s' =>
      if Ascii.eqb c d then [] :: split_on d s'
      else
        match split_on d s' with
        | [] => [[c]]
        | l :: ls => (c :: l) :: ls
        end
  end.

(** [s.split()]: the maximal runs of non-space characters. *)
Fixpoint split (s : str) : list str :=
  match s with
  | [] => []
  | c :: s' =>
      if Chr.is_space c then split s'
      else
        match s' with
        | [] => [[c]]
        | d :: _ =>
            if Chr.is_space d then [c] :: split s'
            else
              match split s' with
              | [] => [[c]]
              | t :: ts => (c :: t) :: ts
              end
        end
  end.

Fixpoint startswith (p s : str) : bool :=
  match p, s with
  | [], _ => true
  | a :: p', b :: s' => Ascii.eqb a b && startswith p' s'
  | _ :: _, [] => false
  end.

(** [needle in s] *)
Fixpoint contains (needle s : str) : bool :=
  startswith needle s ||
  match s with
  | [] => false
  | _ :: s' => contains needle s'
  end.

Definition eqb (a b : str) : bool := bool_decide (a = b).

(** [sep.join(xs)] *)
Fixpoint join (sep : str) (xs : list str) : str :=
  match xs with
  | [] => []
  | [x] => x
  | x :: xs' => x ++ sep ++ join sep xs'
  end.

(** [s[i:j]] for [0 <= i], [0 <= j] *)
Definition slice (s : str) (i j : nat) : str := firstn (j - i) (skipn i s).

(** [s.upper()] *)
Definition upper (s : str) : str := map Chr.to_upper s.

(** CPython's default bound on the number of digits [int] converts
    ([sys.get_int_max_str_digits()]); a longer literal is refused with a
    [ValueError]. *)
Definition max_str_digits : nat := 4300.

(** [int(s)] on text: surrounding white space, an optional sign, and
    decimal digits that single underscores may separate. *)
Fixpoint digits (acc : Z) (seen : bool) (s : str) : option Z :=
  match s with
  | [] => if seen then Some acc else None
  | c :: s' =>
      if Chr.is_digit c then
        digits (10 * acc + Z.of_nat (Chr.code c - 48))%Z true s'
      else if Ascii.eqb c "_"%char then
        match seen, s' with
        | true, d :: _ => if Chr.is_digit d then digits acc false s' else None
        | _, _ => None
        end
      else None
  end.

Definition int (s : str) : result Z :=
  let r :=
    match strip s with
    | c :: s' =>
        if Ascii.eqb c "-"%char then option_map Z.opp (digits 0%Z false s')
        else if Ascii.eqb c "+"%char then digits 0%Z false s'
        else digits 0%Z false (c :: s')
    | [] => None
    end in
  match r with
  | Some z =>
      if max_str_digits <? length (List.filter Chr.is_digit s)
      then Raise ValueError
      else Ok z
  | None => Raise ValueError
  end.

End Str.

(** ** A backtracking matcher for the fragment of [re] the program uses

    Python's [re] is a backtracking matcher: alternatives are tried left to
    right, a greedy repetition tries the longest run first, a lazy one the
    shortest, and the first way through the whole pattern is the match.
    Every repetition in the program's patterns is over a single character
    class, so [Rep] repeats a class. *)

Module Re.

Inductive re :=
| Eps
| Cls (p : ascii -> bool)
| Cat (a b : re)
| Alt (a b : re)
| Rep (greedy : bool) (lo : nat) (hi : option nat) (p : ascii -> bool)
| Grp (n : nat) (a : re)
| Bol (multiline : bool)
| Eol (multiline : bool).

(** A position in the subject: the text before it (last character first),
    the text after it, and the groups captured so far (latest first). *)
Record mstate := MS {
  bef : str;
  aft : str;
  caps : list (nat * str)
}.

Definition pos (st : mstate) : nat := length (bef st).

(** [^]: at the start of the text, and under [re.MULTILINE] after each
    newline. *)
Definition at_bol (multiline : bool) (b : str) : bool :=
  match b with
  | [] => true
  | c :: _ => multiline && Ascii.eqb c Chr.LF
  end.

(** [$]: at the end of the text and before a final newline, and under
    [re.MULTILINE] before each newline. *)
Definition at_eol (multiline : bool) (a : str) : bool :=
  match a with
  | [] => true
  | c :: a' =>
      Ascii.eqb c Chr.LF &&
      (multiline || match a' with [] => true | _ => false end)
  end.

Definition more (hi : option nat) : bool :=
  match hi with
  | Some 0 => false
  | _ => true
  end.

Section Rep.
Context {R : Type}.
Variable p : ascii -> bool.
Variable k : str -> str -> option R.

Definition orelse (x y : option R) : option R :=
  match x with
  | Some r => Some r
  | None => y
  end.

Fixpoint rep_greedy (lo : nat) (hi : option nat) (b a : str) : option R :=
  let stop := if lo =? 0 then k b a else None in
  match a with
  | c :: a' =>
      if more hi && p c
      then orelse (rep_greedy (pred lo) (option_map pred hi) (c :: b) a')
                  stop
      else stop
  | [] => stop
  end.

Fixpoint rep_lazy (lo : nat) (hi : option nat) (b a : str) : option R :=
  let go :=
    match a with
    | c :: a' =>
        if more hi && p c
        then rep_lazy (pred lo) (option_map pred hi) (c :: b) a'
        else None
    | [] => None
    end in
  if lo =? 0 then orelse (k b a) go else go.
End Rep.

(** The text consumed between two positions of one match. *)
Definition taken (st st' : mstate) : str :=
  firstn (length (aft st) - length (aft st')) (aft st).

Fixpoint bt (r : re) (st : mstate) (k : mstate -> option mstate)
  : option mstate :=
  match r with
  | Eps => k st
  | Cls p =>
      match aft st with
      | c :: a' => if p c then k (MS (c :: bef st) a' (caps st)) else None
      | [] => None
      end
  | Cat x y => bt x st (fun st' => bt y st' k)
  | Alt x y => orelse (bt x st k) (bt y st k)
  | Rep g lo hi p =>
      (if g then rep_greedy else rep_lazy) p
        (fun b a => k (MS b a (caps st))) lo hi (bef st) (aft st)
  | Grp n x =>
      bt x st (fun st' =>
        k (MS (bef st') (aft st') ((n, taken st st') :: caps st')))
  | Bol ml => if at_bol ml (bef st) then k st else None
  | Eol ml => if at_eol ml (aft st) then k st else None
  end.

(** The pattern tried at one position.  [must_advance] refuses an empty
    match: the scanner sets it for the attempt that follows an empty
    match. *)
Definition try_at (r : re) (b a : str) (must_advance : bool)
  : option mstate :=
  bt r (MS b a [])
     (fun st' =>
        if must_advance && (pos st' =? length b) then None else Some st').

(** A match object: [m.start()], [m.end()] and the groups. *)
Record mobj := MO {
  m_start : nat;
  m_end : nat;
  m_caps : list (nat * str)
}.

Definition mk_mobj (b : str) (st : mstate) : mobj :=
  MO (length b) (pos st) (caps st).

(** [m.group(n)]; [None] for a group that took no part in the match. *)
Fixpoint group_in (n : nat) (cs : list (nat * str)) : option str :=
  match cs with
  | [] => None
  | (i, s) :: cs' => if i =? n then Some s else group_in n cs'
  end.
Definition group (n : nat) (m : mobj) : option str := group_in n (m_caps m).

(** [pattern.match(s)] *)
Definition py_match (r : re) (s : str) : option mobj :=
  option_map (mk_mobj []) (try_at r [] s false).

(** The scanner behind [search], [finditer], [findall] and [sub]: the
    pattern is tried at each position from the left; after a match the
    scan resumes at its end (here: [skip] characters ahead), and an empty
    match is followed by one attempt for a non-empty match at the same
    position. *)
Fixpoint scan (r : re) (b a : str) (skip : nat) : list mobj :=
  match skip with
  | S n =>
      match a with
      | c :: a' => scan r (c :: b) a' n
      | [] => []
      end
  | 0 =>
      let step (n : nat) :=
        match a with
        | c :: a' => scan r (c :: b) a' n
        | [] => []
        end in
      match try_at r b a false with
      | Some st =>
          let m := mk_mobj b st in
          if m_end m =? m_start m then
            match try_at r b a true with
            | Some st2 =>
                let m2 := mk_mobj b st2 in
                m :: m2 :: step (m_end m2 - m_start m2 - 1)
            | None => m :: step 0
            end
          else m :: step (m_end m - m_start m - 1)
      | None => step 0
      end
  end.

(** [pattern.finditer(s)] *)
Definition finditer (r : re) (s : str) : list mobj := scan r [] s 0.

(** [pattern.search(s)] *)
Definition search (r : re) (s : str) : option mobj := head (finditer r s).

(** [pattern.findall(s)] for a pattern with exactly one group. *)
Definition findall1 (r : re) (s : str) : list str :=
  map (fun m => default [] (group 1 m)) (finditer r s).

(** [pattern.sub('', s)]: the text outside the matches. *)
Fixpoint remove_spans (ms : list mobj) (i : nat) (s : str) : str :=
  match ms with
  | [] => skipn i s
  | m :: ms' => Str.slice s i (m_start m) ++ remove_spans ms' (m_end m) s
  end.
Definition sub_empty (r : re) (s : str) : str :=
  remove_spans (finditer r s) 0 s.

(** Pattern syntax. *)
Fixpoint lit (s : str) : re :=
  match s with
  | [] => Eps
  | [c] => Cls (Chr.lit c)
  | c :: s' => Cat (Cls (Chr.lit c)) (lit s')
  end.
Definition star (p : ascii -> bool) : re := Rep true 0 None p.
Definition plus (p : ascii -> bool) : re := Rep true 1 None p.
Definition star_lazy (p : ascii -> bool) : re := Rep false 0 None p.
Definition opt (r : re) : re := Alt r Eps.
Fixpoint cats (rs : list re) : re :=
  match rs with
  | [] => Eps
  | [r] => r
  | r :: rs' => Cat r (cats rs')
  end.
Fixpoint alts (rs : list re) : re :=
  match rs with
  | [] => Eps
  | [r] => r
  | r :: rs' => Alt r (alts rs')
  end.

End Re.

(** ** Dictionaries whose key order is observed *)

Module ODict.
Section ODict.
Context {V : Type}.

Definition t := list (str * V).

Fixpoint get (k : str) (d : t) : option V :=
  match d with
  | [] => None
  | (k', v) :: d' => if Str.eqb k' k then Some v else get k d'
  end.

(** [d[k] = v]: an existing key keeps its place, a new key goes last. *)
Fixpoint set (k : str) (v : V) (d : t) : t :=
  match d with
  | [] => [(k, v)]
  | (k', v') :: d' =>
      if Str.eqb k' k then (k, v) :: d' else (k', v') :: set k v d'
  end.

Definition keys (d : t) : list str := map fst d.
End ODict.
Arguments t V : clear implicits.
End ODict.

(** ** The UTF-8 codec

    [bytes.decode("utf-8")] in its default strict mode: the code points of
    a well-formed byte sequence (shortest forms only, no surrogates,
    nothing beyond U+10FFFF), and no result for any other sequence.  The
    text of the model holds the code points below U+0100, so [decode]
    gives the text of the byte sequences that encode such code points. *)

Module Utf8.

Definition between (lo hi n : N) : bool := ((lo <=? n) && (n <=? hi))%N.

(** A continuation byte [10xxxxxx]. *)
Definition continuation : N -> bool := between 128 191.

Fixpoint code_points (bs : list Byte.byte) : option (list N) :=
  match bs with
  | [] => Some []
  | b0 :: r0 =>
      let n0 := Byte.to_N b0 in
      if (n0 <? 128)%N then option_map (cons n0) (code_points r0)
      else if between 194 223 n0 then
        match r0 with
        | b1 :: r1 =>
            let n1 := Byte.to_N b1 in
            if continuation n1
            then option_map (cons ((n0 - 192) * 64 + (n1 - 128))%N)
                   (code_points r1)
            else None
        | [] => None
        end
      else if between 224 239 n0 then
        match r0 with
        | b1 :: b2 :: r2 =>
            let n1 := Byte.to_N b1 in
            let n2 := Byte.to_N b2 in
            let lo := if (n0 =? 224)%N then 160%N else 128%N in
            let hi := if (n0 =? 237)%N then 159%N else 191%N in
            if between lo hi n1 && continuation n2
            then option_map
                   (cons ((n0 - 224) * 4096 + (n1 - 128) * 64 + (n2 - 128))%N)
                   (code_points r2)
            else None
        | _ => None
        end
      else if between 240 244 n0 then
        match r0 with
        | b1 :: b2 :: b3 :: r3 =>
            let n1 := Byte.to_N b1 in
            let n2 := Byte.to_N b2 in
            let n3 := Byte.to_N b3 in
            let lo := if (n0 =? 240)%N then 144%N else 128%N in
            let hi := if (n0 =? 244)%N then 143%N else 191%N in
            if between lo hi n1 && continuation n2 && continuation n3
            then option_map
                   (cons ((n0 - 240) * 262144 + (n1 - 128) * 4096
                          + (n2 - 128) * 64 + (n3 - 128))%N)
                   (code_points r3)
            else None
        | _ => None
        end
      else None
  end.

(** The text of a list of code points below U+0100. *)
Fixpoint text (cps : list N) : option str :=
  match cps with
  | [] => Some []
  | n :: cps' =>
      if (n <? 256)%N then option_map (cons (ascii_of_N n)) (text cps')
      else None
  end.

Definition decode (bs : list Byte.byte) : option str :=
  match code_points bs with
  | Some cps => text cps
  | None => None
  end.

End Utf8.

(** * cdo.py *)

Import Re.

Definition word (c : ascii) : bool :=
  Chr.is_alpha c || Chr.is_digit c || Chr.lit "_" c.

Definition HEADERS : list str :=
  [L "NAME"; L "SYNOPSIS"; L "DESCRIPTION"; L "OPERATORS"; L "PARAMETER";
   L "ENVIRONMENT"].

(** [^(NAME|SYNOPSIS|DESCRIPTION|OPERATORS|PARAMETER|ENVIRONMENT)\s*$],
    [re.MULTILINE] *)
Definition HELP_HEADERS_RE : re :=
  cats [Bol true; Grp 1 (alts (map lit HEADERS)); star Chr.is_space; Eol true].

(** [^\s*([a-zA-Z0-9_]+)\s+([A-Z]+)\s+(.*\S)\s*$] *)
Definition PARAM_LINE_RE : re :=
  cats [Bol false; star Chr.is_space; Grp 1 (plus word); plus Chr.is_space;
       Grp 2 (plus Chr.is_upper); plus Chr.is_space;
       Grp 3 (Cat (star Chr.dot) (Cls (Chr.non Chr.is_space)));
       star Chr.is_space; Eol false].

(** The class [[a-zA-Z0-9_<>,\[\]]] *)
Definition synopsis_char (c : ascii) : bool :=
  word c || Chr.any_of (L "<>,[]") c.

(** [^\s*([a-zA-Z0-9_<>,\[\]]+)\s+(.+)$] *)
Definition SYNOPSIS_LINE_RE : re :=
  cats [Bol false; star Chr.is_space; Grp 1 (plus synopsis_char);
       plus Chr.is_space; Grp 2 (plus Chr.dot); Eol false].

(** The class [[a-z0-9_]] under [re.IGNORECASE] *)
Definition oper_char : ascii -> bool :=
  Chr.icase (fun c => Chr.is_lower c || Chr.is_digit c || Chr.lit "_" c).

(** [^\s*([a-z0-9_]+)\s{2,}(.+)$], [re.IGNORECASE] *)
Definition OPER_LINE_RE : re :=
  cats [Bol false; star Chr.is_space; Grp 1 (plus oper_char);
       Rep true 2 None Chr.is_space; Grp 2 (plus Chr.dot); Eol false].

(** [\[([^\]]+)\]] *)
Definition OPT_BLOCK_RE : re :=
  cats [Cls (Chr.lit "["); Grp 1 (plus (Chr.non (Chr.lit "]")));
       Cls (Chr.lit "]")].

(** [^\s{0,8}] *)
Definition INDENT_RE : re :=
  Cat (Bol false) (Rep true 0 (Some 8) Chr.is_space).

Definition TYPE_MAP : list (str * str) :=
  [(L "STRING", L "str"); (L "BOOL", L "bool"); (L "BOOLEAN", L "bool");
   (L "INT", L "int"); (L "INTEGER", L "int"); (L "FLOAT", L "float");
   (L "DOUBLE", L "float"); (L "NUM", L "float")].

(** [m.group(n)] of a group that always takes part in the match. *)
Definition grp (n : nat) (m : mobj) : str := default [] (group n m).

Fixpoint sections_loop (help_text : str) (matches : list mobj)
    (sections : gmap str str) : gmap str str :=
  match matches with
  | [] => sections
  | m :: rest =>
      let start := m_end m in
      let end_ :=
        match rest with
        | m' :: _ => m_start m'
        | [] => length help_text
        end in
      sections_loop help_text rest
        (<[ grp 1 m := Str.strip_chars [Chr.LF] (Str.slice help_text start end_) ]>
           sections)
  end.

Definition _split_sections (help_text : str) : gmap str str :=
  sections_loop help_text (finditer HELP_HEADERS_RE help_text) ∅.

(** The body of the loop of [_parse_parameters_block]. *)
Definition parameters_line (params : gmap str (str * str)) (line : str)
  : gmap str (str * str) :=
  match py_match PARAM_LINE_RE line with
  | None => params
  | Some m =>
      let name := grp 1 m in
      let raw_type := grp 2 m in
      let desc := grp 3 m in
      let py_type := default (L "str") (ODict.get (Str.upper raw_type) TYPE_MAP) in
      <[ name := (py_type, Str.strip desc) ]> params
  end.

Definition _parse_parameters_block (block : str) : gmap str (str * str) :=
  fold_left parameters_line (Str.splitlines block) ∅.

(** An entry of the operator documentation. *)
Record opdoc := OpDoc {
  od_name : str;
  od_short : str;
  od_long_lines : list str
}.

(** The loop state of [_parse_operators_section].  [current] is the entry
    created last, and [result[name]] holds that same object from its
    creation on, so [current] is kept as its key and an append to
    [current['long_lines']] is an update of the entry under that key. *)
Record opstate := OpState {
  os_result : ODict.t opdoc;
  os_current : option str
}.

Definition append_long (ln : str) (st : opstate) : opstate :=
  match os_current st with
  | None => st
  | Some key =>
      match ODict.get key (os_result st) with
      | None => st
      | Some e =>
          OpState
            (ODict.set key
               (OpDoc (od_name e) (od_short e) (od_long_lines e ++ [ln]))
               (os_result st))
            (os_current st)
      end
  end.

Definition operators_line (st : opstate) (line : str) : opstate :=
  match Str.strip line with
  | [] => append_long [] st
  | _ :: _ =>
      match py_match OPER_LINE_RE line with
      | Some m =>
          let name := grp 1 m in
          let short := grp 2 m in
          OpState (ODict.set name (OpDoc name (Str.strip short) [])
                     (os_result st))
                  (Some name)
      | None =>
          append_long (sub_empty INDENT_RE (Str.rstrip line)) st
      end
  end.

Definition _parse_operators_section (block : str) : ODict.t opdoc :=
  os_result (fold_left operators_line (Str.splitlines block)
               (OpState [] None)).

(** A call specification: the dictionary built by [_parse_synopsis_block]. *)
Record spec := Spec {
  op : str;
  required_params : list str;
  optional_params : list str;
  in_tokens : list str;
  out_tokens : list str;
  is_template : bool
}.

Definition nonempty (s : str) : bool :=
  match s with
  | [] => false
  | _ => true
  end.

(** [io_tokens[:-1]] and [io_tokens[-1:]] *)
Definition but_last (l : list str) : list str := removelast l.
Definition last_only (l : list str) : list str :=
  match rev l with
  | [] => []
  | x :: _ => [x]
  end.

(** The optional parameters of a left half: the inner loops over
    [re.findall] and [opt_block.split(',')]. *)
Definition optional_of (op_and_params : str) : list str :=
  fold_left
    (fun optional_params opt_block =>
       fold_left
         (fun optional_params item =>
            let item := Str.strip item in
            if nonempty item then optional_params ++ [item]
            else optional_params)
         (Str.split_on "," opt_block) optional_params)
    (findall1 OPT_BLOCK_RE op_and_params) [].

(** One line of [_parse_synopsis_block]: [Ok None] for a line that is
    skipped, [Raise IndexError] when [parts[0]] does not exist. *)
Definition synopsis_line (line : str) : result (option spec) :=
  let line := Str.rstrip line in
  if negb (nonempty line) || Str.startswith (L "#") line then Ok None
  else
    match py_match SYNOPSIS_LINE_RE line with
    | None => Ok None
    | Some m =>
        let op_and_params := grp 1 m in
        let rest := grp 2 m in
        let optional_params := optional_of op_and_params in
        let required_part := sub_empty OPT_BLOCK_RE op_and_params in
        let parts := List.filter nonempty (Str.split_on "," required_part) in
        match parts with
        | [] => Raise IndexError
        | op_name :: required_params =>
            let io_tokens := Str.split rest in
            let '(in_tokens, out_tokens) :=
              if 2 <=? length io_tokens
              then (but_last io_tokens, last_only io_tokens)
              else (io_tokens, []) in
            Ok (Some (Spec op_name required_params optional_params
                        in_tokens out_tokens
                        (Str.contains (L "<operator>") op_name)))
        end
    end.

Fixpoint synopsis_loop (lines : list str) (specs : list spec)
  : result (list spec) :=
  match lines with
  | [] => Ok specs
  | line :: rest =>
      bind (synopsis_line line) (fun r =>
        match r with
        | None => synopsis_loop rest specs
        | Some s => synopsis_loop rest (specs ++ [s])
        end)
  end.

Definition _parse_synopsis_block (block : str) : result (list spec) :=
  synopsis_loop (Str.splitlines block) [].

Definition _expand_template_specs (specs : list spec)
    (operator_names : list str) : list spec :=
  fold_left
    (fun expanded s =>
       if is_template s then
         fold_left
           (fun expanded op_name =>
              expanded ++
              [Spec op_name (required_params s) (optional_params s)
                 (in_tokens s) (out_tokens s) false])
           operator_names expanded
       else expanded ++ [s])
    specs [].

(** A synthesized callable: the source text of its [def] statement and the
    text assigned to its [__doc__]. *)
Record binding := Binding {
  b_def : str;
  b_doc : str
}.

(** [s.split(sep)[0]]: the text before the first occurrence of [sep]. *)
Fixpoint before_sep (sep s : str) : str :=
  match s with
  | [] => []
  | c :: s' =>
      if nonempty sep && Str.startswith sep s then [] else c :: before_sep sep s'
  end.

Definition lines_of (ls : list str) : str := Str.join [Chr.LF] ls.

Definition _build_docstring (op_name : str) (op_spec : spec)
    (param_meta : gmap str (str * str)) (description_section : str)
    (op_docs : ODict.t opdoc) : str :=
  let short :=
    match ODict.get op_name op_docs with
    | Some e => od_short e
    | None => []
    end in
  let summary :=
    if nonempty short then short
    else L "CDO operator '" ++ op_name ++ L "'" in
  let lines := [summary; []] in
  let lines :=
    if nonempty description_section then
      let first_para :=
        Str.strip
          (map (fun c => if Ascii.eqb c Chr.LF then " "%char else c)
             (before_sep [Chr.LF; Chr.LF] description_section)) in
      lines ++ [first_para; []]
    else lines in
  let lines := lines ++ [L "Parameters"; L "----------"] in
  let lines :=
    fold_left
      (fun lines rp =>
         let '(t, desc) :=
           default (L "str", rp ++ L " parameter.") (param_meta !! rp) in
         lines ++ [rp ++ L " : " ++ t; L "    " ++ desc])
      (required_params op_spec) lines in
  let lines :=
    fold_left
      (fun lines o =>
         let '(t, desc) :=
           default (L "bool", L "Optional flag " ++ o ++ L ".")
                   (param_meta !! o) in
         let default_note :=
           if Str.eqb t (L "bool") then L " (default: False)" else [] in
         lines ++ [o ++ L " : " ++ t ++ L ", optional" ++ default_note;
                   L "    " ++ desc])
      (optional_params op_spec) lines in
  let lines :=
    match in_tokens op_spec with
    | [] => lines
    | _ => lines ++ [L "infiles : str or sequence of str";
                     L "    Input file(s); path or list of paths."]
    end in
  let lines :=
    match out_tokens op_spec with
    | [] => lines
    | _ => lines ++ [L "outfile : str"; L "    Output file path."]
    end in
  let lines :=
    lines ++ [L "run_kwargs : dict, optional";
              L "    Extra kwargs forwarded to runner (e.g. options='-f nc4').";
              []; L "Returns"; L "-------"; L "str";
              L "    Captured CDO textual output (if any)."] in
  let long_body :=
    Str.strip
      (lines_of
         match ODict.get op_name op_docs with
         | Some e => od_long_lines e
         | None => []
         end) in
  let lines :=
    if nonempty long_body
    then lines ++ [[]; L "Notes"; L "-----"; long_body]
    else lines in
  lines_of lines.

(** The parameter list and the body that [_create_operator_function]
    writes. *)
Definition param_type (dflt : str) (param_meta : gmap str (str * str))
    (p : str) : str :=
  fst (default (dflt, []) (param_meta !! p)).

Definition args_list_of (op_spec : spec) (param_meta : gmap str (str * str))
  : list str :=
  let args_list := [L "self"] ++ required_params op_spec in
  let args_list :=
    match in_tokens op_spec with
    | [] => args_list
    | _ => args_list ++ [L "infiles"]
    end in
  let args_list :=
    match out_tokens op_spec with
    | [] => args_list
    | _ => args_list ++ [L "outfile"]
    end in
  let args_list :=
    fold_left
      (fun args_list opt =>
         let ptype := param_type (L "bool") param_meta opt in
         let dflt := if Str.eqb ptype (L "bool") then L "False" else L "None" in
         args_list ++ [opt ++ L "=" ++ dflt])
      (optional_params op_spec) args_list in
  args_list ++ [L "**run_kwargs"].

Definition body_of (op_name : str) (op_spec : spec)
    (param_meta : gmap str (str * str)) : list str :=
  let body := [L "op_params = []"] in
  let body :=
    fold_left
      (fun body rp => body ++ [L "op_params.append(str(" ++ rp ++ L "))"])
      (required_params op_spec) body in
  let body :=
    fold_left
      (fun body o =>
         let ptype := param_type (L "bool") param_meta o in
         if Str.eqb ptype (L "bool")
         then body ++ [L "if " ++ o ++ L ": op_params.append('" ++ o ++ L "')"]
         else body ++ [L "if " ++ o ++ L " is not None: op_params.append(str("
                         ++ o ++ L "))"])
      (optional_params op_spec) body in
  let body :=
    body ++ [L "param_str = ''";
             L "if op_params: param_str = ',' + ','.join(op_params)";
             L "full_operator = '" ++ op_name ++ L "' + param_str";
             L "# Normalize infiles"] in
  let body :=
    match in_tokens op_spec with
    | [] => body ++ [L "input_list = []"]
    | _ => body ++ [L "if isinstance(infiles, (str, bytes)):";
                    L "    input_list = [infiles]";
                    L "else:";
                    L "    input_list = list(infiles)"]
    end in
  let body :=
    match out_tokens op_spec with
    | [] =>
        body ++ [L "result = run(operator=full_operator, options=run_kwargs.pop('options', None), inputs=input_list if input_list else None)"]
    | _ =>
        body ++ [L "result = run(operator=full_operator, options=run_kwargs.pop('options', None), inputs=input_list if input_list else None, output=outfile)"]
    end in
  body ++ [L "return result"].

Definition def_source (op_name : str) (op_spec : spec)
    (param_meta : gmap str (str * str)) : str :=
  L "def " ++ op_name ++ L "(" ++
  Str.join (L ", ") (args_list_of op_spec param_meta) ++ L "):" ++ [Chr.LF] ++
  lines_of (map (fun ln => L "    " ++ ln) (body_of op_name op_spec param_meta)).

(** A member of the target class: an attribute it had before, or a
    synthesized callable. *)
Inductive member :=
| Existing
| Bound (b : binding).

Section Attach.

(** Whether Python accepts a generated [def] statement: [exec] is the
    interpreter's, not the program's. *)
Variable exec_accepts : str -> bool.

Definition _create_operator_function (op_name : str) (op_spec : spec)
    (param_meta : gmap str (str * str)) (description_section : str)
    (op_docs : ODict.t opdoc) : result binding :=
  let func_src := def_source op_name op_spec param_meta in
  let docstring_text :=
    _build_docstring op_name op_spec param_meta description_section op_docs in
  if exec_accepts func_src then Ok (Binding func_src docstring_text)
  else Raise SynthesisError.

(** The final loop of [_attach_dynamic_methods].  [setattr] changes the
    class in place, so what was attached before an exception stays
    attached: the loop returns the class together with its outcome. *)
Fixpoint attach_loop (param_meta : gmap str (str * str))
    (description_section : str) (op_docs : ODict.t opdoc)
    (specs : list spec) (cls : gmap str member)
  : gmap str member * result unit :=
  match specs with
  | [] => (cls, Ok tt)
  | s :: rest =>
      let op_name := op s in
      match cls !! op_name with
      | Some _ =>
          attach_loop param_meta description_section op_docs rest cls
      | None =>
          match _create_operator_function op_name s param_meta
                  description_section op_docs with
          | Raise e => (cls, Raise e)
          | Ok func =>
              attach_loop param_meta description_section op_docs rest
                (<[ op_name := Bound func ]> cls)
          end
      end
  end.

(** The operator names of a NAME section: the fallback of
    [_attach_dynamic_methods]. *)
Definition name_fallback (name_block : str) : list str :=
  let name_line :=
    default []
      (head (List.filter
               (fun ln => Str.contains (L ",") ln && Str.contains (L "-") ln)
               (Str.splitlines name_block))) in
  if nonempty name_line then
    let left := before_sep (L "-") name_line in
    List.filter nonempty (map Str.strip (Str.split_on "," left))
  else [].

(** The call specifications of a help page, templates expanded. *)
Definition page_specs (help_text : str) : result (list spec) :=
  let sections := _split_sections help_text in
  let op_docs := _parse_operators_section (default [] (sections !! L "OPERATORS")) in
  bind (_parse_synopsis_block (default [] (sections !! L "SYNOPSIS")))
    (fun specs =>
       if existsb is_template specs then
         let operator_names := ODict.keys op_docs in
         let operator_names :=
           match operator_names with
           | [] => name_fallback (default [] (sections !! L "NAME"))
           | _ => operator_names
           end in
         Ok (_expand_template_specs specs operator_names)
       else Ok specs).

Definition _attach_dynamic_methods (help_text : str) (cls : gmap str member)
  : gmap str member * result unit :=
  let sections := _split_sections help_text in
  let param_meta :=
    _parse_parameters_block (default [] (sections !! L "PARAMETER")) in
  let op_docs :=
    _parse_operators_section (default [] (sections !! L "OPERATORS")) in
  match page_specs help_text with
  | Raise e => (cls, Raise e)
  | Ok specs =>
      attach_loop param_meta (default [] (sections !! L "DESCRIPTION"))
        op_docs specs cls
  end.

End Attach.

(** * utils.py *)

Definition dash_digit (c : ascii) : bool := Chr.lit "-" c || Chr.is_digit c.

(** [^(\S+)(?:\s+(.*?))?\s*\(([-\d]+)\|([-\d]+)\)\s*$] *)
Definition LINE_RE : re :=
  cats [Bol false; Grp 1 (plus (Chr.non Chr.is_space));
       opt (Cat (plus Chr.is_space) (Grp 2 (star_lazy Chr.dot)));
       star Chr.is_space; Cls (Chr.lit "("); Grp 3 (plus dash_digit);
       Cls (Chr.lit "|"); Grp 4 (plus dash_digit); Cls (Chr.lit ")");
       star Chr.is_space; Eol false].

(** [-->\s*(\S+)] *)
Definition ALIAS_RE : re :=
  cats [lit (L "-->"); star Chr.is_space; Grp 1 (plus (Chr.non Chr.is_space))].

(** A row of the operator table. *)
Record row := Row {
  name : str;
  description : option str;
  inputs : Z;
  outputs : Z;
  is_alias : bool;
  alias_to : option str
}.

(** One line of [parse_cdo_operator_listing]: [Ok None] for a line that is
    skipped, [Raise ValueError] when [int] rejects a count. *)
Definition listing_line (raw_line : str) : result (option row) :=
  let line := Str.rstrip raw_line in
  if negb (nonempty line) then Ok None
  else
    match py_match LINE_RE line with
    | None => Ok None
    | Some m =>
        let name := grp 1 m in
        let desc := Str.rstrip (default [] (group 2 m)) in
        let n_in := grp 3 m in
        let n_out := grp 4 m in
        let alias_match := search ALIAS_RE desc in
        let is_alias :=
          match alias_match with
          | Some _ => true
          | None => false
          end in
        let alias_to := option_map (grp 1) alias_match in
        bind (Str.int n_in) (fun i =>
        bind (Str.int n_out) (fun o =>
          Ok (Some (Row name (if nonempty desc then Some desc else None)
                      i o is_alias alias_to))))
    end.

Fixpoint listing_loop (lines : list str) (rows : list row)
  : result (list row) :=
  match lines with
  | [] => Ok rows
  | raw_line :: rest =>
      bind (listing_line raw_line) (fun r =>
        match r with
        | None => listing_loop rest rows
        | Some x => listing_loop rest (rows ++ [x])
        end)
  end.

(** The rows the loop of [parse_cdo_operator_listing] collects, in the
    order of the lines. *)
Definition listing_rows (text : str) : result (list row) :=
  listing_loop (Str.splitlines text) [].

Section Listing.

(** The table library's side:
    [pd.DataFrame(rows).sort_values("name").reset_index(drop=True)] on a
    list of rows that is not empty, read as the list of the rows of the
    frame it returns: the rows in ascending order of their names.  (The
    place pandas' default sort gives to rows of one name is its own.) *)
Variable sort_values : list row -> list row.

(** [parse_cdo_operator_listing(text)].  A frame built from no row has no
    column, and [sort_values("name")] raises [KeyError] on it. *)
Definition parse_cdo_operator_listing (text : str) : result (list row) :=
  bind (listing_rows text) (fun rows =>
    match rows with
    | [] => Raise KeyError
    | _ :: _ => Ok (sort_values rows)
    end).

End Listing.

(** A finished child process, as [subprocess.run] reports it. *)
Record completed := Completed {
  returncode : Z;
  stdout : list Byte.byte;
  stderr : list Byte.byte
}.

(** An argument of [run]: [None], a string, or a list of strings. *)
Inductive arg :=
| ANone
| AStr (s : str)
| AList (l : list str).

Definition as_list (a : arg) : list str :=
  match a with
  | ANone => []
  | AStr s => [s]
  | AList l => l
  end.

Section Process.

(** The operating system's side: running a command line to completion,
    and the UTF-8 codec ([bytes.decode] raises on ill-formed input). *)
Variable subprocess_run : list str -> completed.
Variable decode_utf8 : list Byte.byte -> option str.

Definition decode (b : list Byte.byte) : result str :=
  match decode_utf8 b with
  | Some s => Ok s
  | None => Raise UnicodeDecodeError
  end.

(** [execute(command)] with the default [return_type="stdout"]. *)
Definition execute (command : list str) : result str :=
  let output := subprocess_run command in
  if negb (returncode output =? 0)%Z then
    bind (decode (stderr output)) (fun msg => Raise (Exception msg))
  else decode (stdout output).

Definition run (operator inputs output options : arg) : result str :=
  let command :=
    [L "cdo"] ++ as_list options ++ as_list operator ++ as_list inputs
    ++ as_list output in
  execute command.

End Process.

(** What [execute] returns: [None], the finished process, or a text. *)
Inductive returned :=
| RNone
| ROutput (output : completed)
| RText (text : str).

Section ProcessReturn.

Variable subprocess_run : list str -> completed.
Variable decode_utf8 : list Byte.byte -> option str.

(** [execute(command, return_type)] for any [return_type]. *)
Definition execute_as (return_type : str) (command : list str)
  : result returned :=
  let output := subprocess_run command in
  if negb (returncode output =? 0)%Z then
    bind (decode decode_utf8 (stderr output)) (fun msg => Raise (Exception msg))
  else if Str.eqb return_type (L "output") then Ok (ROutput output)
  else if Str.eqb return_type (L "stdout") then
    bind (decode decode_utf8 (stdout output)) (fun text => Ok (RText text))
  else Ok RNone.

End ProcessReturn.

(** * cdo.py: the class *)

Section Cdo.

Variable exec_accepts : str -> bool.
Variable subprocess_run : list str -> completed.
Variable decode_utf8 : list Byte.byte -> option str.

(** The class after [Cdo._attach_operator(operator)].  The method catches
    [Exception]: when the help text cannot be fetched the class is as it
    was, and what was attached before a failure of the attachment stays
    attached.  (Whether the call itself returns is not part of the model:
    [exec] raises what the generated statement makes it raise.) *)
Definition _attach_operator (operator : str) (cls : gmap str member)
  : gmap str member :=
  match run subprocess_run decode_utf8 (AStr operator) ANone ANone
          (AStr (L "-h")) with
  | Ok help_text => fst (_attach_dynamic_methods exec_accepts help_text cls)
  | Raise _ => cls
  end.

End Cdo.

(** * The vocabulary of the statements

    Shapes of lines in the words of the specification, the line-by-line
    readings the program is compared with, and auxiliary notions of the
    proofs. *)

(** The concrete specification [_expand_template_specs] builds from a
    template and one operator name. *)
Definition instantiate (s : spec) (op_name : str) : spec :=
  Spec op_name (required_params s) (optional_params s) (in_tokens s)
    (out_tokens s) false.

Definition expand_one (names : list str) (s : spec) : list spec :=
  if is_template s then map (instantiate s) names else [s].

(** The text [rest] does not continue a run of the class [p]. *)
Definition stops (p : ascii -> bool) (rest : str) : Prop :=
  match rest with
  | [] => True
  | c :: _ => p c = false
  end.

(** A repetition count allowed by the upper bound [hi]. *)
Definition within (hi : option nat) (n : nat) : Prop :=
  match hi with
  | Some m => n <= m
  | None => True
  end.

(** Facts about character classes are checked on all 256 characters. *)
Definition all_ascii : list ascii := map ascii_of_nat (seq 0 256).

Definition single_line (l : str) : Prop :=
  forallb (Chr.non Chr.is_linebreak) l = true.

(** The text of a list of lines, each ended by a newline. *)
Definition unlines (ls : list str) : str :=
  flat_map (fun l => l ++ [Chr.LF]) ls.

(** A non-empty text without white space at either end. *)
Definition trimmed (s : str) : Prop := s <> [] /\ Str.strip s = s.

(** A parameter line in the words of the specification: a name of letters,
    digits and underscores, a type token of upper-case letters and a
    description, separated by white space; white space may surround
    them. *)
Definition param_shape (line name ty desc : str) : Prop :=
  exists lead ws1 ws2 trail,
    line = lead ++ name ++ ws1 ++ ty ++ ws2 ++ desc ++ trail /\
    forallb Chr.is_space lead = true /\
    name <> [] /\ forallb word name = true /\
    ws1 <> [] /\ forallb Chr.is_space ws1 = true /\
    ty <> [] /\ forallb Chr.is_upper ty = true /\
    ws2 <> [] /\ forallb Chr.is_space ws2 = true /\
    trimmed desc /\
    forallb Chr.is_space trail = true.

(** The type table in the words of the specification. *)
Definition semantic_type (ty : str) : str :=
  if Str.eqb ty (L "STRING") then L "str"
  else if Str.eqb ty (L "BOOL") || Str.eqb ty (L "BOOLEAN") then L "bool"
  else if Str.eqb ty (L "INT") || Str.eqb ty (L "INTEGER") then L "int"
  else if Str.eqb ty (L "FLOAT") || Str.eqb ty (L "DOUBLE")
          || Str.eqb ty (L "NUM") then L "float"
  else L "str".

(** An operator line in the words of the specification: a name, two or
    more white-space characters, and a non-empty remainder. *)
Definition oper_shape (line name remainder : str) : Prop :=
  exists lead ws,
    line = lead ++ name ++ ws ++ remainder /\
    forallb Chr.is_space lead = true /\
    name <> [] /\ forallb word name = true /\
    2 <= length ws /\ forallb Chr.is_space ws = true /\
    remainder <> [].

(** Removing at most [n] white-space characters from the head of a
    text. *)
Fixpoint lstrip_upto (n : nat) (s : str) : str :=
  match n, s with
  | S n', c :: s' => if Chr.is_space c then lstrip_upto n' s' else s
  | _, _ => s
  end.

(** The number of characters a greedy repetition takes when the rest of
    the pattern accepts at once. *)
Fixpoint run_len (p : ascii -> bool) (hi : option nat) (a : str) : nat :=
  match a with
  | c :: a' => if more hi && p c then S (run_len p (option_map pred hi) a') else 0
  | [] => 0
  end.


(** The matcher only moves forward: the position it reaches is the
    starting position plus the text it consumed. *)
Definition extends (st st' : mstate) : Prop :=
  exists y, aft st = y ++ aft st' /\ bef st' = rev y ++ bef st.

(** The start of the first match of a list, or the end of the text. *)
Definition start_of (text : str) (ms : list mobj) : nat :=
  match ms with
  | m :: _ => m_start m
  | [] => length text
  end.

(** Each match with the text between its end and the next match. *)
Fixpoint bodies (text : str) (ms : list mobj) : list (mobj * str) :=
  match ms with
  | [] => []
  | m :: rest =>
      (m, Str.slice text (m_end m) (start_of text rest)) :: bodies text rest
  end.

(** The scanner once more, collecting the text it passes over instead of
    positions: the text before the first match, and each match with the
    text after it. *)
Fixpoint gaps (r : re) (b a : str) (skip : nat) : str * list (mobj * str) :=
  match skip with
  | S n =>
      match a with
      | c :: a' => gaps r (c :: b) a' n
      | [] => ([], [])
      end
  | 0 =>
      let pass :=
        match a with
        | c :: a' => let '(g, l) := gaps r (c :: b) a' 0 in (c :: g, l)
        | [] => ([], [])
        end in
      let jump (n : nat) :=
        match a with
        | c :: a' => gaps r (c :: b) a' n
        | [] => ([], [])
        end in
      match try_at r b a false with
      | Some st =>
          let m := mk_mobj b st in
          if m_end m =? m_start m then
            match try_at r b a true with
            | Some st2 =>
                let m2 := mk_mobj b st2 in
                let '(g, l) := jump (m_end m2 - m_start m2 - 1) in
                ([], (m, []) :: (m2, g) :: l)
            | None => let '(g, l) := pass in ([], (m, g) :: l)
            end
          else
            let '(g, l) := jump (m_end m - m_start m - 1) in
            ([], (m, g) :: l)
      | None => pass
      end
  end.

(** The bracketed groups of a left half, read from left to right.  A group
    is an opening bracket, one or more characters other than the closing
    bracket, and a closing bracket.  [pending] holds the characters since
    an opening bracket, last first. *)
Fixpoint groups_from (pending : option str) (s : str) : list str :=
  match s with
  | [] => []
  | c :: s' =>
      match pending with
      | None =>
          if Ascii.eqb c "[" then groups_from (Some []) s'
          else groups_from None s'
      | Some acc =>
          if Ascii.eqb c "]" then
            match acc with
            | [] => groups_from None s'
            | _ => rev acc :: groups_from None s'
            end
          else groups_from (Some (c :: acc)) s'
      end
  end.

(** The left half without its bracketed groups. *)
Fixpoint strip_groups (pending : option str) (s : str) : str :=
  match s with
  | [] =>
      match pending with
      | None => []
      | Some acc => "["%char :: rev acc
      end
  | c :: s' =>
      match pending with
      | None =>
          if Ascii.eqb c "[" then strip_groups (Some []) s'
          else c :: strip_groups None s'
      | Some acc =>
          if Ascii.eqb c "]" then
            match acc with
            | [] => "["%char :: "]"%char :: strip_groups None s'
            | _ => strip_groups None s'
            end
          else strip_groups (Some (c :: acc)) s'
      end
  end.

Definition bracket_groups (left : str) : list str := groups_from None left.
Definition without_groups (left : str) : str := strip_groups None left.

Definition not_close : ascii -> bool := Chr.non (Chr.lit "]").

(** The text up to the first closing bracket, and the text after it. *)
Fixpoint until_close (a : str) : option (str * str) :=
  match a with
  | [] => None
  | c :: a' =>
      if Ascii.eqb c "]" then Some ([], a')
      else match until_close a' with
           | Some (x, rest) => Some (c :: x, rest)
           | None => None
           end
  end.

(** A synopsis line in the words of the specification, with the left half
    restricted to the characters the pattern admits: the left half, white
    space, and the right half, which is trimmed; white space may surround
    them. *)
Definition synopsis_shape (line left right : str) : Prop :=
  exists lead ws trail,
    line = lead ++ left ++ ws ++ right ++ trail /\
    forallb Chr.is_space lead = true /\
    left <> [] /\ forallb synopsis_char left = true /\
    ws <> [] /\ forallb Chr.is_space ws = true /\
    trimmed right /\
    forallb Chr.is_space trail = true.

(** The items of one bracketed group. *)
Definition items_of (group : str) : list str :=
  List.filter nonempty (Str.split_on "," group).

(** The header token a text starts with. *)
Definition header_of (a : str) : option str :=
  List.find (fun t => Str.startswith t a) HEADERS.

(** The greedy [\s*] followed by [$] under [re.MULTILINE]: the longest run of
    white space that ends at the end of the text or before a newline. *)
Fixpoint ws_end (a : str) : option (str * str) :=
  match a with
  | [] => Some ([], [])
  | c :: a' =>
      if Chr.is_space c then
        match ws_end a' with
        | Some (w, z) => Some (c :: w, z)
        | None => if Ascii.eqb c Chr.LF then Some ([], a) else None
        end
      else None
  end.

(** Tokens that differ in their first character. *)
Definition head_is (c : ascii) (t : str) : bool :=
  match t with
  | d :: _ => Ascii.eqb d c
  | [] => true
  end.

Fixpoint distinct_heads (ts : list str) : bool :=
  match ts with
  | [] => true
  | t :: ts' =>
      match t with
      | c :: _ => negb (existsb (head_is c) ts')
      | [] => false
      end && distinct_heads ts'
  end.

Definition no_LF (l : str) : Prop := forallb Chr.dot l = true.

(** The text of lines that each follow a newline. *)
Definition tail_text (ls : list str) : str :=
  flat_map (fun l => Chr.LF :: l) ls.

Definition text_of (lines : list str) : str :=
  match lines with
  | [] => []
  | l :: ls => l ++ tail_text ls
  end.

(** The first elements that satisfy [p], and the rest. *)
Fixpoint leading {A} (p : A -> bool) (l : list A) : list A :=
  match l with
  | x :: l' => if p x then x :: leading p l' else []
  | [] => []
  end.

Fixpoint after_leading {A} (p : A -> bool) (l : list A) : list A :=
  match l with
  | x :: l' => if p x then after_leading p l' else l
  | [] => []
  end.

Definition ws_only (l : str) : bool := forallb Chr.is_space l.

(** A header line: one of the six tokens, followed by nothing but white
    space. *)
Definition header_line (l : str) : option str :=
  match header_of l with
  | Some t => if ws_only (skipn (length t) l) then Some t else None
  | None => None
  end.

Definition is_header (l : str) : bool :=
  match header_line l with
  | Some _ => true
  | None => false
  end.

(** The text from after a newline up to the next header line. *)
Fixpoint pre_tail (ls : list str) : str :=
  match ls with
  | [] => []
  | l :: ls' => Chr.LF :: (if is_header l then [] else l ++ pre_tail ls')
  end.

(** Each header line with the text the scanner leaves after its match. *)
Fixpoint raw_sections (lines : list str) : list (str * str) :=
  match lines with
  | [] => []
  | l :: ls =>
      match header_line l with
      | Some t => (t, pre_tail (after_leading ws_only ls)) :: raw_sections ls
      | None => raw_sections ls
      end
  end.

Definition named (mb : mobj * str) : str * str := (grp 1 (fst mb), snd mb).

Definition plain (l : str) : bool := negb (is_header l).

(** The body of a section, from the lines after its header line: the
    white-space-only lines that follow the header directly are left out,
    the lines up to the next header line are joined by newlines, and the
    newlines at both ends are removed. *)
Definition section_body (ls : list str) : str :=
  Str.strip_chars [Chr.LF]
    (Str.join [Chr.LF] (leading plain (after_leading ws_only ls))).

Fixpoint sections_of (lines : list str) : list (str * str) :=
  match lines with
  | [] => []
  | l :: ls =>
      match header_line l with
      | Some t => (t, section_body ls) :: sections_of ls
      | None => sections_of ls
      end
  end.

Definition store (acc : gmap str str) (tb : str * str) : gmap str str :=
  <[ fst tb := snd tb ]> acc.

Definition text_lines (ls : list string) : str := Str.join [Chr.LF] (map L ls).

(** What the table library guarantees of [sort_values]: the rows it
    returns are the given rows, in ascending order of their names.  Python
    compares strings code point by code point. *)
Fixpoint str_le (a b : str) : bool :=
  match a, b with
  | [], _ => true
  | _ :: _, [] => false
  | x :: a', y :: b' =>
      if Chr.code x <? Chr.code y then true
      else if Chr.code x =? Chr.code y then str_le a' b'
      else false
  end.

Fixpoint ascending (names : list str) : Prop :=
  match names with
  | a :: (b :: _) as rest => str_le a b = true /\ ascending rest
  | _ => True
  end.

Definition orders_by_name (sort_values : list row -> list row) : Prop :=
  forall rows,
    Permutation rows (sort_values rows) /\
    ascending (map name (sort_values rows)).

(** A sort of rows by name, by insertion. *)
Fixpoint insert_by_name (r : row) (rows : list row) : list row :=
  match rows with
  | [] => [r]
  | x :: rows' =>
      if str_le (name r) (name x) then r :: rows
      else x :: insert_by_name r rows'
  end.

Definition sort_by_name (rows : list row) : list row :=
  fold_right insert_by_name [] rows.

(** The pieces of a listing line. *)

(** [\S] *)
Definition non_space : ascii -> bool := Chr.non Chr.is_space.

(** The end of the listing pattern: [\s*\(([-\d]+)\|([-\d]+)\)\s*$]. *)
Definition LINE_TAIL : re :=
  cats [star Chr.is_space; Cls (Chr.lit "("); Grp 3 (plus dash_digit);
        Cls (Chr.lit "|"); Grp 4 (plus dash_digit); Cls (Chr.lit ")");
        star Chr.is_space; Eol false].

(** The optional description of the listing pattern:
    [(?:\s+(.*?))?] followed by the end of the pattern. *)
Definition LINE_DESC : re :=
  Cat (opt (Cat (plus Chr.is_space) (Grp 2 (star_lazy Chr.dot)))) LINE_TAIL.

(** The pattern up to there: [^(\S+)(?:\s+(.*?))?]. *)
Definition LINE_HEAD : re :=
  Cat (Bol false)
    (Cat (Grp 1 (plus non_space))
       (opt (Cat (plus Chr.is_space) (Grp 2 (star_lazy Chr.dot))))).

(** The counts in parentheses, as text. *)
Definition counts_text (i o : str) : str :=
  "("%char :: i ++ "|"%char :: o ++ [")"%char].

(** The value of a run of decimal digits, and a count as it is printed. *)
Definition decimal (ds : str) : Z :=
  fold_left (fun acc c => (10 * acc + Z.of_nat (Chr.code c - 48))%Z) ds 0%Z.
Definition number (neg : bool) (ds : str) : str :=
  if neg then "-"%char :: ds else ds.
Definition value (neg : bool) (ds : str) : Z :=
  if neg then (- decimal ds)%Z else decimal ds.


(** The row [parse_cdo_operator_listing] builds from the groups of a match:
    the name, the text of the description group and the two counts. *)
Definition listing_row (name dtext : str) (n_in n_out : Z) : row :=
  let desc := Str.rstrip dtext in
  Row name (if nonempty desc then Some desc else None) n_in n_out
    (match search ALIAS_RE desc with Some _ => true | None => false end)
    (option_map (grp 1) (search ALIAS_RE desc)).

(** What the parser guarantees of an entry of the operator
    documentation, with its key. *)
Definition sound_entry (ke : str * opdoc) : Prop :=
  od_name (snd ke) = fst ke /\
  fst ke <> [] /\ forallb word (fst ke) = true /\
  Str.strip (od_short (snd ke)) = od_short (snd ke) /\
  Forall (fun ln => Str.rstrip ln = ln) (od_long_lines (snd ke)).











(** * Properties *)

(** ** Template expansion *)

Lemma expand_inner_loop s names acc :
  fold_left
    (fun expanded op_name =>
       expanded ++
       [Spec op_name (required_params s) (optional_params s)
          (in_tokens s) (out_tokens s) false])
    names acc
  = acc ++ map (instantiate s) names.
Proof.
  revert acc. induction names as [|n names IH]; intros acc; simpl.
  - now rewrite app_nil_r.
  - rewrite IH. now rewrite <- app_assoc.
Qed.

Lemma expand_outer_loop names specs acc :
  fold_left
    (fun expanded s =>
       if is_template s then
         fold_left
           (fun expanded op_name =>
              expanded ++
              [Spec op_name (required_params s) (optional_params s)
                 (in_tokens s) (out_tokens s) false])
           names expanded
       else expanded ++ [s])
    specs acc
  = acc ++ flat_map (expand_one names) specs.
Proof.
  revert acc. induction specs as [|s specs IH]; intros acc; simpl.
  - now rewrite app_nil_r.
  - rewrite IH. unfold expand_one at 2.
    destruct (is_template s).
    + rewrite expand_inner_loop. now rewrite <- app_assoc.
    + now rewrite <- app_assoc.
Qed.

Lemma expand_no_names specs :
  flat_map (expand_one []) specs
  = List.filter (fun s => negb (is_template s)) specs.
Proof.
  induction specs as [|s specs IH]; simpl; [reflexivity|].
  unfold expand_one at 1. destruct (is_template s); simpl; now rewrite IH.
Qed.

(** C3. Template expansion replaces each template specification by one
    specification per candidate operator name, in order, with the
    parameters and the input and output tokens copied and [is_template]
    cleared; every other specification passes through unchanged; and with
    no candidate name the templates vanish and nothing is raised (the
    function is total). *)
Theorem expand_template_specs_spec (specs : list spec) (names : list str) :
  _expand_template_specs specs names
  = flat_map
      (fun s =>
         if is_template s
         then map (fun op_name =>
                     Spec op_name (required_params s) (optional_params s)
                       (in_tokens s) (out_tokens s) false) names
         else [s])
      specs
  /\ _expand_template_specs specs []
     = List.filter (fun s => negb (is_template s)) specs.
Proof.
  unfold _expand_template_specs. split.
  - now rewrite expand_outer_loop.
  - rewrite expand_outer_loop. simpl. apply expand_no_names.
Qed.

(** ** Attachment *)

Section AttachFacts.

Variable exec_accepts : str -> bool.
Variable param_meta : gmap str (str * str).
Variable description_section : str.
Variable op_docs : ODict.t opdoc.

Local Abbreviation attach := (attach_loop exec_accepts param_meta description_section op_docs).

Lemma attach_keeps (specs : list spec) (cls : gmap str member) :
  cls ⊆ fst (attach specs cls).
Proof.
  revert cls. induction specs as [|s specs IH]; intros cls; simpl.
  - reflexivity.
  - destruct (cls !! op s) as [v|] eqn:E.
    + apply IH.
    + destruct (_create_operator_function _ _ _ _ _ _) as [f|e]; simpl.
      * etrans; [|apply IH]. now apply insert_subseteq.
      * reflexivity.
Qed.

Lemma attach_present (specs : list spec) (cls : gmap str member) :
  Forall (fun s => is_Some (cls !! op s)) specs ->
  attach specs cls = (cls, Ok tt).
Proof.
  induction 1 as [|s specs [v Hv] _ IH]; simpl; [reflexivity|].
  now rewrite Hv.
Qed.

(** After a loop that ended normally every operator of the list is a
    member. *)
Lemma attach_covers (specs : list spec) (cls : gmap str member) :
  snd (attach specs cls) = Ok tt ->
  Forall (fun s => is_Some (fst (attach specs cls) !! op s)) specs.
Proof.
  revert cls. induction specs as [|s specs IH]; intros cls; simpl.
  - constructor.
  - destruct (cls !! op s) as [v|] eqn:E.
    + intros H. constructor; [|now apply IH].
      exists v. eapply lookup_weaken; [exact E|apply attach_keeps].
    + destruct (_create_operator_function _ _ _ _ _ _) as [f|e]; simpl.
      * intros H. constructor; [|now apply IH].
        exists (Bound f). eapply lookup_weaken; [|apply attach_keeps].
        apply lookup_insert_eq.
      * discriminate.
Qed.

Lemma attach_again (specs : list spec) (cls : gmap str member) :
  attach specs (fst (attach specs cls)) = attach specs cls
  \/ (snd (attach specs cls) = Ok tt /\
      attach specs (fst (attach specs cls)) = (fst (attach specs cls), Ok tt)).
Proof.
  destruct (snd (attach specs cls)) as [[]|e] eqn:E.
  - right. split; [reflexivity|]. apply attach_present. now apply attach_covers.
  - left. revert cls E. induction specs as [|s specs IH]; intros cls; simpl.
    + discriminate.
    + destruct (cls !! op s) as [v|] eqn:Ev.
      * intros H. specialize (IH cls H).
        assert (Hs : fst (attach specs cls) !! op s = Some v)
          by (eapply lookup_weaken; [exact Ev|apply attach_keeps]).
        rewrite Hs. exact IH.
      * destruct (_create_operator_function _ _ _ _ _ _) as [f|e'] eqn:Ec;
          simpl.
        -- intros H. specialize (IH _ H).
           assert (Hs : fst (attach specs (<[op s:=Bound f]> cls)) !! op s
                        = Some (Bound f)).
           { eapply lookup_weaken; [|apply attach_keeps].
             apply lookup_insert_eq. }
           rewrite Hs. exact IH.
        -- intros _. now rewrite Ev.
Qed.

End AttachFacts.

(** C4. Attachment never replaces a member: the class after the loop
    extends the class before it, whatever the specifications and whether
    or not the loop ends in an exception.  The member under the first
    specification's operator name is therefore the one that was there, or
    else the callable synthesized from that first specification, also when
    later specifications carry the same name.  Running the loop a second
    time over the same specifications changes nothing. *)
Theorem attach_first_writer_wins (exec_accepts : str -> bool)
    (param_meta : gmap str (str * str)) (description_section : str)
    (op_docs : ODict.t opdoc) (s : spec) (specs : list spec)
    (cls : gmap str member) :
  let attach := attach_loop exec_accepts param_meta description_section op_docs in
  cls ⊆ fst (attach specs cls)
  /\ fst (attach (s :: specs) cls) !! op s
     = match cls !! op s with
       | Some v => Some v
       | None =>
           match _create_operator_function exec_accepts (op s) s param_meta
                   description_section op_docs with
           | Ok func => Some (Bound func)
           | Raise _ => None
           end
       end
  /\ fst (attach specs (fst (attach specs cls))) = fst (attach specs cls).
Proof.
  cbv zeta. split; [apply attach_keeps|]. split.
  - simpl. destruct (cls !! op s) as [v|] eqn:E.
    + eapply lookup_weaken; [exact E|apply attach_keeps].
    + destruct (_create_operator_function _ _ _ _ _ _) as [f|e]; simpl.
      * eapply lookup_weaken; [|apply attach_keeps]. apply lookup_insert_eq.
      * exact E.
  - destruct (attach_again exec_accepts param_meta description_section op_docs
                specs cls) as [H|[_ H]]; now rewrite H.
Qed.

(** ** The process invoker *)

(** C9 (amended). [execute] returns a text exactly when the child process
    exited with status zero and its standard output is well-formed UTF-8,
    and the text is the decoded output; it raises [Exception] exactly when
    the process exited with another status and its standard error is
    well-formed UTF-8, and the exception carries the decoded standard
    error; and it raises [UnicodeDecodeError] exactly when the stream it
    decodes, the standard output after status zero and the standard error
    after any other status, is not well-formed UTF-8.  [run] is [execute]
    on [cdo] followed by the options, the operator, the inputs and the
    output. *)
Theorem execute_spec (subprocess_run : list str -> completed)
    (decode_utf8 : list Byte.byte -> option str) (command : list str) :
  let output := subprocess_run command in
  (forall out : str,
     execute subprocess_run decode_utf8 command = Ok out
     <-> returncode output = 0%Z /\ decode_utf8 (stdout output) = Some out)
  /\ (forall msg : str,
        execute subprocess_run decode_utf8 command = Raise (Exception msg)
        <-> returncode output <> 0%Z /\ decode_utf8 (stderr output) = Some msg)
  /\ (execute subprocess_run decode_utf8 command = Raise UnicodeDecodeError
      <-> (returncode output = 0%Z /\ decode_utf8 (stdout output) = None)
          \/ (returncode output <> 0%Z /\ decode_utf8 (stderr output) = None))
  /\ (forall operator inputs output options,
        run subprocess_run decode_utf8 operator inputs output options
        = execute subprocess_run decode_utf8
            ([L "cdo"] ++ as_list options ++ as_list operator
             ++ as_list inputs ++ as_list output)).
Proof.
  cbv zeta. unfold execute, decode.
  destruct (Z.eqb_spec (returncode (subprocess_run command)) 0) as [E|E];
    simpl.
  - split; [|split; [|split]].
    + intros out. destruct (decode_utf8 _) as [s|]; split.
      * intros [= ->]. now split.
      * now intros [_ [= ->]].
      * discriminate.
      * now intros [_ ?].
    + intros msg. split.
      * destruct (decode_utf8 (stdout _)); discriminate.
      * now intros [? _].
    + destruct (decode_utf8 (stdout _)) as [s|]; split.
      * discriminate.
      * intros [[_ H]|[H _]]; [discriminate|congruence].
      * intros _. now left.
      * reflexivity.
    + reflexivity.
  - split; [|split; [|split]].
    + intros out. split.
      * destruct (decode_utf8 (stderr _)); discriminate.
      * now intros [? _].
    + intros msg. destruct (decode_utf8 (stderr _)) as [s|]; simpl; split.
      * intros [= ->]. now split.
      * now intros [_ [= ->]].
      * discriminate.
      * now intros [_ ?].
    + destruct (decode_utf8 (stderr _)) as [s|]; simpl; split.
      * discriminate.
      * intros [[H _]|[_ H]]; [congruence|discriminate].
      * intros _. now right.
      * reflexivity.
    + reflexivity.
Qed.

(** A child process may write any bytes.  The byte [FF] occurs in no
    UTF-8 sequence: with it on the standard output, a run that exited with
    status zero raises; with it on the standard error, a failed run raises
    an error that does not carry the standard error. *)
Lemma execute_undecodable_counterexample :
  Utf8.code_points [Byte.xff] = None
  /\ execute (fun _ => Completed 0 [Byte.xff] []) Utf8.decode [L "cdo"]
     = Raise UnicodeDecodeError
  /\ execute (fun _ => Completed 1 [] [Byte.xff]) Utf8.decode [L "cdo"]
     = Raise UnicodeDecodeError.
Proof. repeat split. Qed.

(** ** Facts about the matcher *)

Lemma taken_app (b b' : str) (cs cs' : list (nat * str)) (x rest : str) :
  taken (MS b (x ++ rest) cs) (MS b' rest cs') = x.
Proof.
  unfold taken; simpl. rewrite length_app.
  replace (length x + length rest - length rest) with (length x) by lia.
  rewrite firstn_app. replace (length x - length x) with 0 by lia.
  rewrite firstn_all. simpl. apply app_nil_r.
Qed.

Section RepFacts.
Context {R : Type}.
Variable p : ascii -> bool.
Variable k : str -> str -> option R.

Lemma rep_greedy_sound lo hi b a r :
  rep_greedy p k lo hi b a = Some r ->
  exists y z, a = y ++ z /\ forallb p y = true /\ lo <= length y /\
              within hi (length y) /\ k (rev y ++ b) z = Some r.
Proof.
  revert lo hi b. induction a as [|c a IH]; intros lo hi b; simpl.
  - destruct (Nat.eqb_spec lo 0) as [->|]; [|discriminate].
    intros H. exists [], []. repeat split; auto.
    destruct hi; simpl; lia.
  - assert (Hstop : (if lo =? 0 then k b (c :: a) else None) = Some r ->
                    exists y z, c :: a = y ++ z /\ forallb p y = true /\
                                lo <= length y /\ within hi (length y) /\
                                k (rev y ++ b) z = Some r).
    { destruct (Nat.eqb_spec lo 0) as [->|]; [|discriminate].
      intros H. exists [], (c :: a). repeat split; auto.
      destruct hi; simpl; lia. }
    destruct (more hi && p c) eqn:E; [|exact Hstop].
    apply andb_true_iff in E as [Hm Hp].
    destruct (rep_greedy p k (pred lo) (option_map pred hi) (c :: b) a)
      as [r'|] eqn:Er; simpl; [|exact Hstop].
    intros [= ->]. apply IH in Er as (y & z & -> & Hy & Hlo & Hhi & Hk).
    exists (c :: y), z. simpl. rewrite Hp, Hy. repeat split; auto.
    + lia.
    + destruct hi as [[|m]|]; simpl in *; try discriminate; lia.
    + now rewrite <- app_assoc.
Qed.

Lemma rep_greedy_none lo hi b a :
  (forall y z, a = y ++ z -> forallb p y = true -> lo <= length y ->
               within hi (length y) -> k (rev y ++ b) z = None) ->
  rep_greedy p k lo hi b a = None.
Proof.
  intros H. destruct (rep_greedy p k lo hi b a) as [r|] eqn:E; [|reflexivity].
  apply rep_greedy_sound in E as (y & z & Ha & Hy & Hlo & Hhi & Hk).
  now rewrite (H y z Ha Hy Hlo Hhi) in Hk.
Qed.

(** A greedy repetition gives back characters until the rest of the
    pattern succeeds: when the run is [x1 ++ x2] and the rest fails after
    every longer part of it, the repetition takes [x1]. *)
Lemma rep_greedy_back lo b x1 x2 rest r :
  forallb p (x1 ++ x2) = true ->
  stops p rest ->
  lo <= length x1 ->
  (forall y z, x2 = y ++ z -> y <> [] ->
               k (rev (x1 ++ y) ++ b) (z ++ rest) = None) ->
  k (rev x1 ++ b) (x2 ++ rest) = Some r ->
  rep_greedy p k lo None b ((x1 ++ x2) ++ rest) = Some r.
Proof.
  revert lo b. induction x1 as [|c x1 IH]; intros lo b Hp Hs Hlo Hno Hk.
  - simpl in *. assert (lo = 0) as -> by lia. clear Hlo.
    revert b Hp Hno Hk. induction x2 as [|c x2 IH2]; intros b Hp Hno Hk.
    + simpl in *. destruct rest as [|c rest]; simpl; [exact Hk|].
      simpl in Hs. now rewrite Hs.
    + simpl in *. apply andb_true_iff in Hp as [Hc Hp]. rewrite Hc. simpl.
      rewrite Hk.
      replace (rep_greedy p k 0 None (c :: b) (x2 ++ rest)) with (@None R);
        [reflexivity|].
      symmetry. apply rep_greedy_none. intros y z E Hy _ _.
      (* [y] is a prefix of [x2]: the run cannot go past it *)
      assert (exists z', x2 = y ++ z' /\ z = z' ++ rest) as (z' & -> & ->).
      { clear -E Hy Hp Hs. revert y E Hy Hp.
        induction x2 as [|d x2 IHx]; intros y E Hy Hp.
        - destruct y as [|e y].
          + exists []. now simpl in *.
          + simpl in E. destruct rest as [|e' rest]; [discriminate|].
            injection E as -> ->. simpl in Hy, Hs. rewrite Hs in Hy.
            discriminate.
        - destruct y as [|e y].
          + exists (d :: x2). now simpl in *.
          + simpl in E. injection E as <- E. simpl in Hy, Hp.
            apply andb_true_iff in Hy as [_ Hy].
            apply andb_true_iff in Hp as [_ Hp].
            destruct (IHx y E Hy Hp) as (z' & -> & ->).
            now exists z'. }
      specialize (Hno (c :: y) z' eq_refl ltac:(discriminate)).
      simpl in Hno. now rewrite <- app_assoc in Hno.
  - simpl in Hp. apply andb_true_iff in Hp as [Hc Hp].
    simpl. rewrite Hc. simpl.
    rewrite (IH (pred lo) (c :: b)); auto.
    + simpl in Hlo. lia.
    + intros y z E Hy. specialize (Hno y z E Hy). simpl in Hno.
      now rewrite <- app_assoc in Hno.
    + simpl in Hk. now rewrite <- app_assoc in Hk.
Qed.

(** The usual case: the rest of the pattern succeeds after the whole
    run. *)
Lemma rep_greedy_max lo b x rest r :
  forallb p x = true ->
  stops p rest ->
  lo <= length x ->
  k (rev x ++ b) rest = Some r ->
  rep_greedy p k lo None b (x ++ rest) = Some r.
Proof.
  intros Hp Hs Hlo Hk.
  rewrite <- (app_nil_r x) at 1.
  apply rep_greedy_back; rewrite ?app_nil_r; auto.
  intros y z E Hy. destruct y; [congruence|discriminate].
Qed.

End RepFacts.

Lemma bt_lit (s : str) (st : mstate) (k : mstate -> option mstate) :
  bt (lit s) st k
  = if Str.startswith s (aft st)
    then k (MS (rev s ++ bef st) (skipn (length s) (aft st)) (caps st))
    else None.
Proof.
  revert st. induction s as [|c s IH]; intros [b a cs].
  - reflexivity.
  - assert (Hc : bt (lit (c :: s)) (MS b a cs) k
                 = bt (Cls (Chr.lit c)) (MS b a cs) (fun st' => bt (lit s) st' k)).
    { destruct s; reflexivity. }
    rewrite Hc. cbn [bt aft bef caps Str.startswith].
    destruct a as [|e a]; [reflexivity|].
    unfold Chr.lit. rewrite (Ascii.eqb_sym c e).
    destruct (Ascii.eqb e c) eqn:E; [|reflexivity].
    apply Ascii.eqb_eq in E as ->. rewrite IH. cbn [aft bef caps andb].
    destruct (Str.startswith s a); [|reflexivity].
    f_equal. f_equal. simpl. now rewrite <- !app_assoc.
Qed.

Lemma for_all_ascii (P : ascii -> bool) :
  forallb P all_ascii = true -> forall c, P c = true.
Proof.
  intros H c. rewrite forallb_forall in H. apply H.
  unfold all_ascii. rewrite <- (ascii_nat_embedding c).
  apply in_map, in_seq. pose proof (nat_ascii_bounded c). lia.
Qed.

Ltac by_cases_on_ascii P :=
  let H := fresh in
  pose proof (for_all_ascii P ltac:(vm_compute; reflexivity)) as H;
  cbv beta in H.

Lemma word_not_space c : word c = true -> Chr.is_space c = false.
Proof.
  by_cases_on_ascii (fun c => implb (word c) (negb (Chr.is_space c))).
  specialize (H c). destruct (word c), (Chr.is_space c); simpl in *; congruence.
Qed.

Lemma upper_not_space c : Chr.is_upper c = true -> Chr.is_space c = false.
Proof.
  by_cases_on_ascii (fun c => implb (Chr.is_upper c) (negb (Chr.is_space c))).
  specialize (H c).
  destruct (Chr.is_upper c), (Chr.is_space c); simpl in *; congruence.
Qed.

Lemma space_not_word c : Chr.is_space c = true -> word c = false.
Proof.
  intros H. destruct (word c) eqn:E; [|reflexivity].
  apply word_not_space in E. congruence.
Qed.

Lemma space_not_upper c : Chr.is_space c = true -> Chr.is_upper c = false.
Proof.
  intros H. destruct (Chr.is_upper c) eqn:E; [|reflexivity].
  apply upper_not_space in E. congruence.
Qed.

Lemma linebreak_is_space c : Chr.is_linebreak c = true -> Chr.is_space c = true.
Proof.
  by_cases_on_ascii (fun c => implb (Chr.is_linebreak c) (Chr.is_space c)).
  specialize (H c).
  destruct (Chr.is_linebreak c), (Chr.is_space c); simpl in *; congruence.
Qed.

Lemma LF_is_linebreak : Chr.is_linebreak Chr.LF = true.
Proof. reflexivity. Qed.

Lemma dot_iff c : Chr.dot c = true <-> c <> Chr.LF.
Proof.
  unfold Chr.dot. destruct (Ascii.eqb_spec c Chr.LF); simpl; split; congruence.
Qed.

Lemma not_linebreak_dot c : Chr.is_linebreak c = false -> Chr.dot c = true.
Proof.
  intros H. apply dot_iff. intros ->. now rewrite LF_is_linebreak in H.
Qed.

Lemma stops_head (p q : ascii -> bool) x rest :
  (forall c, q c = true -> p c = false) ->
  forallb q x = true -> x <> [] -> stops p (x ++ rest).
Proof.
  intros H Hq Hx. destruct x as [|c x]; [congruence|].
  simpl in *. apply andb_true_iff in Hq as [Hc _]. now apply H.
Qed.

Lemma length_pos {A} (x : list A) : x <> [] -> 1 <= length x.
Proof. destruct x; [congruence|simpl; lia]. Qed.

Lemma stops_cons (p : ascii -> bool) c rest : p c = false -> stops p (c :: rest).
Proof. intros H; exact H. Qed.

Lemma param_line_try lead name ws1 ty ws2 d0 dl trail :
  forallb Chr.is_space lead = true ->
  forallb word name = true -> name <> [] ->
  forallb Chr.is_space ws1 = true -> ws1 <> [] ->
  forallb Chr.is_upper ty = true -> ty <> [] ->
  forallb Chr.is_space ws2 = true -> ws2 <> [] ->
  forallb Chr.dot d0 = true -> Chr.is_space dl = false -> Chr.dot dl = true ->
  stops Chr.is_space (d0 ++ [dl]) ->
  forallb Chr.is_space trail = true -> forallb Chr.dot trail = true ->
  try_at PARAM_LINE_RE []
    (lead ++ name ++ ws1 ++ ty ++ ws2 ++ (d0 ++ [dl]) ++ trail) false
  = Some (MS (rev (lead ++ name ++ ws1 ++ ty ++ ws2 ++ (d0 ++ [dl]) ++ trail)) []
             [(3, d0 ++ [dl]); (2, ty); (1, name)]).
Proof.
  intros Hlead Hname Hn0 Hws1 Hw10 Hty Hty0 Hws2 Hw20 Hd0 Hdl Hdl' Hdst Htr Htr'.
  unfold try_at, PARAM_LINE_RE.
  cbn [cats bt at_bol bef aft caps star plus].
  eapply rep_greedy_max; [assumption| |lia|].
  { eapply stops_head; eauto using word_not_space. }
  cbn beta.
  eapply rep_greedy_max; [assumption| |now apply length_pos|].
  { eapply stops_head; [|exact Hws1|assumption]. apply space_not_word. }
  cbn beta.
  eapply rep_greedy_max; [assumption| |now apply length_pos|].
  { eapply stops_head; [|exact Hty|assumption]. apply upper_not_space. }
  cbn beta.
  eapply rep_greedy_max; [assumption| |now apply length_pos|].
  { eapply stops_head; [|exact Hws2|assumption]. apply space_not_upper. }
  cbn beta.
  eapply rep_greedy_max; [assumption| |now apply length_pos|].
  { rewrite <- !app_assoc. destruct d0 as [|c d0]; simpl in *; [exact Hdl|exact Hdst]. }
  cbn beta.
  replace ((d0 ++ [dl]) ++ trail) with ((d0 ++ dl :: trail) ++ [])
    by (now rewrite app_nil_r, <- app_assoc).
  eapply rep_greedy_back.
  { rewrite forallb_app. simpl. now rewrite Hd0, Hdl', Htr'. }
  { exact I. }
  { lia. }
  { intros y z E Hy. rewrite app_nil_r. destruct y as [|c y]; [congruence|].
    injection E as -> ->. destruct z as [|e z]; [reflexivity|].
    rewrite forallb_app in Htr. apply andb_true_iff in Htr as [_ Hz].
    simpl in Hz. apply andb_true_iff in Hz as [Hc _].
    unfold Chr.non. now rewrite Hc. }
  rewrite app_nil_r. unfold Chr.non at 1. rewrite Hdl. cbn [negb].
  rewrite <- (app_nil_r trail) at 1.
  eapply rep_greedy_max; [assumption|exact I|lia|].
  cbn [at_eol Nat.eqb andb length bef aft caps pos].
  rewrite !taken_app.
  replace ((d0 ++ dl :: trail) ++ []) with ((d0 ++ [dl]) ++ trail)
    by (now rewrite app_nil_r, <- app_assoc).
  rewrite taken_app. f_equal. f_equal.
  rewrite !rev_app_distr. simpl. rewrite <- !app_assoc. simpl.
  now rewrite !app_nil_r.
Qed.

Lemma no_LF_at_eol (a : str) :
  forallb Chr.dot a = true -> at_eol false a = true -> a = [].
Proof.
  destruct a as [|c a]; [reflexivity|]. simpl.
  intros H E. apply andb_true_iff in H as [H _].
  apply andb_true_iff in E as [E _]. unfold Chr.dot in H.
  now rewrite E in H.
Qed.

Lemma param_line_sound line st :
  forallb Chr.dot line = true ->
  try_at PARAM_LINE_RE [] line false = Some st ->
  exists lead name ws1 ty ws2 d0 dl trail,
    line = lead ++ name ++ ws1 ++ ty ++ ws2 ++ (d0 ++ [dl]) ++ trail /\
    forallb Chr.is_space lead = true /\
    forallb word name = true /\ name <> [] /\
    forallb Chr.is_space ws1 = true /\ ws1 <> [] /\
    forallb Chr.is_upper ty = true /\ ty <> [] /\
    forallb Chr.is_space ws2 = true /\ ws2 <> [] /\
    Chr.is_space dl = false /\
    forallb Chr.is_space trail = true.
Proof.
  intros Hdot H. unfold try_at, PARAM_LINE_RE in H.
  cbn [cats bt at_bol bef aft caps star plus] in H.
  apply rep_greedy_sound in H as (y0 & z0 & E0 & Hy0 & _ & _ & H). cbn beta in H.
  apply rep_greedy_sound in H as (y1 & z1 & E1 & Hy1 & L1 & _ & H). cbn beta in H.
  apply rep_greedy_sound in H as (y2 & z2 & E2 & Hy2 & L2 & _ & H). cbn beta in H.
  apply rep_greedy_sound in H as (y3 & z3 & E3 & Hy3 & L3 & _ & H). cbn beta in H.
  apply rep_greedy_sound in H as (y4 & z4 & E4 & Hy4 & L4 & _ & H). cbn beta in H.
  apply rep_greedy_sound in H as (y5 & z5 & E5 & Hy5 & _ & _ & H). cbn beta in H.
  destruct z5 as [|c z6]; [discriminate|].
  destruct (Chr.non Chr.is_space c) eqn:Hc; [|discriminate].
  apply rep_greedy_sound in H as (y7 & z7 & E7 & Hy7 & _ & _ & H). cbn beta in H.
  cbn [aft] in H.
  destruct (at_eol false z7) eqn:Heol; [|discriminate].
  subst.
  assert (z7 = []) as ->.
  { apply no_LF_at_eol.
    - rewrite !forallb_app in Hdot. simpl in Hdot. rewrite forallb_app in Hdot.
      repeat (apply andb_true_iff in Hdot as [_ Hdot]). exact Hdot.
    - exact Heol. }
  exists y0, y1, y2, y3, y4, y5, c, y7.
  rewrite app_nil_r. unfold Chr.non in Hc. apply negb_true_iff in Hc.
  repeat split; auto; try (intros ->; simpl in *; lia).
  now rewrite <- !app_assoc.
Qed.

(** ** Facts about the string methods *)

Section Strip.
Variable p : ascii -> bool.

Lemma forallb_rev (s : str) : forallb p (rev s) = forallb p s.
Proof.
  induction s as [|c s IH]; simpl; [reflexivity|].
  rewrite forallb_app, IH. simpl. rewrite andb_true_r. apply andb_comm.
Qed.

Lemma lstrip_by_length s : length (Str.lstrip_by p s) <= length s.
Proof. induction s as [|c s IH]; simpl; [lia|]. destruct (p c); simpl; lia. Qed.

Lemma rstrip_by_length s : length (Str.rstrip_by p s) <= length s.
Proof.
  unfold Str.rstrip_by. rewrite length_rev.
  etransitivity; [apply lstrip_by_length|]. now rewrite length_rev.
Qed.

Lemma lstrip_by_stops s : stops p s -> Str.lstrip_by p s = s.
Proof. destruct s as [|c s]; simpl; [reflexivity|]. now intros ->. Qed.

Lemma lstrip_by_run t s :
  forallb p t = true -> Str.lstrip_by p (t ++ s) = Str.lstrip_by p s.
Proof.
  induction t as [|c t IH]; simpl; [reflexivity|].
  intros H. apply andb_true_iff in H as [-> H]. now apply IH.
Qed.

Lemma rstrip_by_last x c : p c = false -> Str.rstrip_by p (x ++ [c]) = x ++ [c].
Proof.
  intros H. unfold Str.rstrip_by. rewrite rev_app_distr. simpl. rewrite H.
  change (c :: rev x) with ([c] ++ rev x).
  now rewrite rev_app_distr, rev_involutive.
Qed.

Lemma rstrip_by_run s t :
  forallb p t = true -> Str.rstrip_by p (s ++ t) = Str.rstrip_by p s.
Proof.
  intros H. unfold Str.rstrip_by. rewrite rev_app_distr.
  rewrite lstrip_by_run; [reflexivity|]. now rewrite forallb_rev.
Qed.

Lemma rstrip_by_nil_iff s : Str.rstrip_by p s = [] <-> forallb p s = true.
Proof.
  unfold Str.rstrip_by. rewrite <- (forallb_rev s).
  generalize (rev s) as t. intros t. split.
  - intros H. apply (f_equal (@rev _)) in H. rewrite rev_involutive in H.
    simpl in H. induction t as [|c t IH]; simpl in *; [reflexivity|].
    destruct (p c); [now apply IH|discriminate].
  - intros H. induction t as [|c t IH]; simpl in *; [reflexivity|].
    apply andb_true_iff in H as [-> H]. now apply IH.
Qed.

Lemma strip_by_keeps x c :
  stops p (x ++ [c]) -> p c = false -> Str.strip_by p (x ++ [c]) = x ++ [c].
Proof.
  intros Hs Hc. unfold Str.strip_by. rewrite lstrip_by_stops by assumption.
  now apply rstrip_by_last.
Qed.

Lemma strip_by_fixed s :
  s <> [] -> Str.strip_by p s = s ->
  exists x c, s = x ++ [c] /\ stops p s /\ p c = false.
Proof.
  intros Hne H.
  destruct (exists_last Hne) as (x & c & ->). exists x, c.
  assert (Hs : stops p (x ++ [c])).
  { destruct (x ++ [c]) as [|d t] eqn:E; simpl; [exact I|].
    destruct (p d) eqn:Hd; [|reflexivity].
    exfalso. unfold Str.strip_by in H. simpl in H. rewrite Hd in H.
    pose proof (rstrip_by_length (Str.lstrip_by p t)) as H1.
    pose proof (lstrip_by_length t) as H2.
    rewrite H in H1. simpl in H1. lia. }
  split; [reflexivity|]. split; [exact Hs|].
  destruct (p c) eqn:Hc; [|reflexivity]. exfalso.
  unfold Str.strip_by in H. rewrite lstrip_by_stops in H by assumption.
  rewrite (rstrip_by_run x [c]) in H by (simpl; now rewrite Hc).
  pose proof (rstrip_by_length x) as H1. rewrite H in H1.
  rewrite length_app in H1. simpl in H1. lia.
Qed.

End Strip.

Lemma trimmed_iff s :
  trimmed s <->
  exists x c, s = x ++ [c] /\ stops Chr.is_space s /\ Chr.is_space c = false.
Proof.
  split.
  - intros [Hne H]. now apply strip_by_fixed.
  - intros (x & c & -> & Hs & Hc). split.
    + now destruct x.
    + now apply strip_by_keeps.
Qed.



Lemma single_line_dot l : single_line l -> forallb Chr.dot l = true.
Proof.
  unfold single_line. intros H. rewrite forallb_forall in *.
  intros c Hc. specialize (H c Hc). unfold Chr.non in H.
  apply negb_true_iff in H. now apply not_linebreak_dot.
Qed.

Lemma upper_fixed s : forallb Chr.is_upper s = true -> Str.upper s = s.
Proof.
  unfold Str.upper. induction s as [|c s IH]; simpl; [reflexivity|].
  intros H. apply andb_true_iff in H as [Hc H]. rewrite IH by assumption.
  f_equal. unfold Chr.to_upper.
  by_cases_on_ascii (fun c => implb (Chr.is_upper c) (negb (Chr.is_lower c))).
  specialize (H0 c). rewrite Hc in H0. simpl in H0.
  apply negb_true_iff in H0. now rewrite H0.
Qed.

(** ** The parameter block *)

Lemma eqb_sym (a b : str) : Str.eqb a b = Str.eqb b a.
Proof. unfold Str.eqb. apply bool_decide_ext. split; congruence. Qed.

Lemma type_map_lookup ty :
  default (L "str") (ODict.get ty TYPE_MAP) = semantic_type ty.
Proof.
  unfold semantic_type, TYPE_MAP. cbn [ODict.get].
  rewrite !(eqb_sym ty).
  repeat match goal with
         | |- context [Str.eqb ?a ty] => destruct (Str.eqb a ty); cbn [orb default]
         end; reflexivity.
Qed.

Lemma split_leading d0 dl :
  Chr.is_space dl = false ->
  exists sp d, d0 ++ [dl] = sp ++ d /\ forallb Chr.is_space sp = true /\ trimmed d.
Proof.
  intros Hdl. induction d0 as [|c d0 (sp & d & E & Hsp & Hd)].
  - exists [], [dl]. split; [reflexivity|]. split; [reflexivity|].
    apply trimmed_iff. exists [], dl.
    split; [reflexivity|split; exact Hdl].
  - destruct (Chr.is_space c) eqn:Hc.
    + exists (c :: sp), d. split; [simpl; now rewrite E|].
      split; [simpl; now rewrite Hc|exact Hd].
    + exists [], (c :: d0 ++ [dl]). split; [reflexivity|]. split; [reflexivity|].
      apply trimmed_iff. exists (c :: d0), dl.
      split; [reflexivity|split; [exact Hc|exact Hdl]].
Qed.

Lemma parameters_line_match params line name ty desc :
  single_line line -> param_shape line name ty desc ->
  parameters_line params line = <[name := (semantic_type ty, desc)]> params.
Proof.
  intros Hl (lead & ws1 & ws2 & trail & -> & Hlead & Hn0 & Hn & Hw10 & Hw1 &
             Ht0 & Ht & Hw20 & Hw2 & Hd & Htr).
  apply single_line_dot in Hl.
  pose proof Hd as [_ Hstrip].
  apply trimmed_iff in Hd as (d0 & dl & -> & Hs & Hdl).
  rewrite !forallb_app in Hl. cbn [forallb] in Hl.
  repeat (apply andb_true_iff in Hl as [? Hl] || apply andb_true_iff in Hl as [Hl ?]).
  apply andb_true_iff in H4 as [Hd0 Hdl'].
  apply andb_true_iff in Hdl' as [Hdl' _].
  unfold parameters_line, py_match.
  rewrite param_line_try; auto.
  cbn [option_map mk_mobj grp group group_in m_caps caps Nat.eqb default].
  unfold id. rewrite upper_fixed by assumption. now rewrite type_map_lookup, Hstrip.
Qed.


Lemma unlines_snoc lines line : unlines (lines ++ [line]) = unlines lines ++ line ++ [Chr.LF].
Proof. unfold unlines. rewrite flat_map_app. simpl. now rewrite app_nil_r. Qed.




(** ** The operator documentation *)

Lemma oper_char_word c : oper_char c = word c.
Proof.
  by_cases_on_ascii (fun c => Bool.eqb (oper_char c) (word c)).
  specialize (H c). now apply Bool.eqb_prop.
Qed.

Lemma forallb_ext_in (p q : ascii -> bool) (s : str) :
  (forall c, p c = q c) -> forallb p s = forallb q s.
Proof. intros H. induction s as [|c s IH]; simpl; [reflexivity|]. now rewrite H, IH. Qed.

(** The longest run of white space at the head of a text. *)
Lemma span_space (s : str) :
  exists w t, s = w ++ t /\ forallb Chr.is_space w = true /\ stops Chr.is_space t.
Proof.
  induction s as [|c s (w & t & -> & Hw & Ht)].
  - exists [], []. now repeat split.
  - destruct (Chr.is_space c) eqn:Hc.
    + exists (c :: w), t. simpl. rewrite Hc, Hw. now repeat split.
    + exists [], (c :: w ++ t). repeat split. exact Hc.
Qed.

Lemma oper_line_try lead name w t :
  forallb Chr.is_space lead = true ->
  name <> [] -> forallb word name = true ->
  forallb Chr.is_space w = true -> stops Chr.is_space t ->
  forallb Chr.dot (w ++ t) = true ->
  2 <= length w -> 3 <= length (w ++ t) ->
  exists st, try_at OPER_LINE_RE [] (lead ++ name ++ w ++ t) false = Some st /\
             group_in 1 (caps st) = Some name /\
             exists g, group_in 2 (caps st) = Some g /\ Str.strip g = Str.strip (w ++ t).
Proof.
  intros Hlead Hn0 Hn Hw Ht Hdot Hw2 Hwt.
  assert (Hn' : forallb oper_char name = true).
  { erewrite forallb_ext_in; [exact Hn|]. apply oper_char_word. }
  rewrite forallb_app in Hdot. apply andb_true_iff in Hdot as [Hdw Hdt].
  unfold try_at, OPER_LINE_RE.
  cbn [cats bt at_bol bef aft caps star plus].
  destruct t as [|c t].
  - (* the white space runs to the end of the line: its last character is
       the remainder *)
    rewrite app_nil_r in *.
    destruct (exists_last (l := w)) as (w0 & wl & ->); [intros ->; simpl in *; lia|].
    rewrite forallb_app in Hw, Hdw. simpl in Hw, Hdw.
    apply andb_true_iff in Hw as [Hw0 Hwl]. apply andb_true_iff in Hwl as [Hwl _].
    apply andb_true_iff in Hdw as [Hdw0 Hdwl]. apply andb_true_iff in Hdwl as [Hdwl _].
    rewrite length_app in Hwt. simpl in Hwt.
    eexists. split; [|split].
    + eapply rep_greedy_max; [assumption| |lia|].
      { eapply stops_head; [|exact Hn'|assumption].
        intros c Hc. rewrite oper_char_word in Hc. now apply word_not_space. }
      cbn beta.
      eapply rep_greedy_max; [assumption| |now apply length_pos|].
      { eapply (stops_head _ Chr.is_space).
        - intros e He. rewrite oper_char_word. now apply space_not_word.
        - exact Hw0.
        - intros ->. simpl in *. lia. }
      cbn beta.
      rewrite <- (app_nil_r (w0 ++ [wl])).
      eapply rep_greedy_back.
      { rewrite forallb_app. simpl. now rewrite Hw0, Hwl. }
      { exact I. }
      { lia. }
      { intros y z E Hy. destruct y as [|e y]; [congruence|].
        injection E as -> E. destruct y; [|discriminate]. simpl in E. subst z.
        reflexivity. }
      cbn [app bef aft caps].
      change (rep_greedy Chr.dot ?k 1 None ?b [wl])
        with (rep_greedy Chr.dot k 1 None b ([wl] ++ [])).
      eapply rep_greedy_max; [simpl; now rewrite Hdwl|exact I|simpl; lia|].
      cbn [at_eol]. reflexivity.
    + cbn [caps group_in Nat.eqb]. now rewrite taken_app.
    + cbn [caps group_in Nat.eqb]. eexists. split; [reflexivity|].
      change (taken ?a ?b) with (taken a b).
      replace (taken _ _) with [wl].
      * transitivity (@nil ascii).
        -- unfold Str.strip, Str.strip_by. simpl. now rewrite Hwl.
        -- symmetry. apply rstrip_by_nil_iff.
           rewrite lstrip_by_run by exact Hw0. simpl. now rewrite Hwl.
      * unfold taken. simpl. reflexivity.
  - simpl in Ht. simpl in Hdt.
    eexists. split; [|split].
    + eapply rep_greedy_max; [assumption| |lia|].
      { eapply stops_head; [|exact Hn'|assumption].
        intros e He. rewrite oper_char_word in He. now apply word_not_space. }
      cbn beta.
      eapply rep_greedy_max; [assumption| |now apply length_pos|].
      { eapply (stops_head _ Chr.is_space); [|exact Hw|].
        - intros e He. rewrite oper_char_word. now apply space_not_word.
        - intros ->. simpl in *. lia. }
      cbn beta.
      eapply rep_greedy_max; [assumption|exact Ht|lia|].
      cbn beta.
      rewrite <- (app_nil_r (c :: t)).
      eapply rep_greedy_max; [exact Hdt|exact I|simpl; lia|].
      cbn [at_eol]. reflexivity.
    + cbn [caps group_in Nat.eqb]. now rewrite taken_app.
    + cbn [caps group_in Nat.eqb]. eexists. split; [reflexivity|].
      rewrite taken_app. unfold Str.strip, Str.strip_by.
      now rewrite lstrip_by_run.
Qed.

Lemma oper_line_sound line st :
  forallb Chr.dot line = true ->
  try_at OPER_LINE_RE [] line false = Some st ->
  exists name remainder, oper_shape line name remainder.
Proof.
  intros Hdot H. unfold try_at, OPER_LINE_RE in H.
  cbn [cats bt at_bol bef aft caps star plus] in H.
  apply rep_greedy_sound in H as (y0 & z0 & E0 & Hy0 & _ & _ & H). cbn beta in H.
  apply rep_greedy_sound in H as (y1 & z1 & E1 & Hy1 & L1 & _ & H). cbn beta in H.
  apply rep_greedy_sound in H as (y2 & z2 & E2 & Hy2 & L2 & _ & H). cbn beta in H.
  apply rep_greedy_sound in H as (y3 & z3 & E3 & Hy3 & L3 & _ & H). cbn beta in H.
  cbn [aft] in H. destruct (at_eol false z3) eqn:Heol; [|discriminate].
  subst. assert (z3 = []) as ->.
  { apply no_LF_at_eol; [|exact Heol].
    rewrite !forallb_app in Hdot.
    repeat (apply andb_true_iff in Hdot as [_ Hdot]). exact Hdot. }
  exists y1, y3, y0, y2. rewrite app_nil_r.
  repeat split; auto; try (intros ->; simpl in *; lia).
  erewrite forallb_ext_in; [exact Hy1|]. intros c. symmetry. apply oper_char_word.
Qed.

Lemma scan_not_at_start (r : re) (b a : str) (skip : nat) :
  b <> [] -> scan (Cat (Bol false) r) b a skip = [].
Proof.
  revert b skip. induction a as [|c a IH]; intros b skip Hb.
  - destruct skip; [|reflexivity]. simpl. unfold try_at. simpl.
    destruct b; [congruence|reflexivity].
  - destruct skip as [|n]; simpl.
    + unfold try_at. simpl. destruct b as [|d b]; [congruence|]. simpl.
      now apply IH.
    + now apply IH.
Qed.

Lemma rep_greedy_first {R} (p : ascii -> bool) (k : str -> str -> option R)
    lo hi b a r :
  lo <= run_len p hi a ->
  k (rev (firstn (run_len p hi a) a) ++ b) (skipn (run_len p hi a) a) = Some r ->
  rep_greedy p k lo hi b a = Some r.
Proof.
  revert lo hi b. induction a as [|c a IH]; intros lo hi b Hlo Hk; simpl in *.
  - assert (lo = 0) as -> by lia. exact Hk.
  - destruct (more hi && p c).
    + simpl in Hk. rewrite (IH (pred lo) (option_map pred hi) (c :: b)).
      * reflexivity.
      * lia.
      * now rewrite <- app_assoc in Hk.
    + assert (lo = 0) as -> by lia. exact Hk.
Qed.

Lemma lstrip_upto_run n s :
  lstrip_upto n s = skipn (run_len Chr.is_space (Some n) s) s.
Proof.
  revert n. induction s as [|c s IH]; intros [|n]; simpl; try reflexivity.
  destruct (Chr.is_space c); simpl; [apply IH|reflexivity].
Qed.

Lemma indent_sub (s : str) : sub_empty INDENT_RE s = lstrip_upto 8 s.
Proof.
  rewrite lstrip_upto_run. unfold sub_empty, finditer, INDENT_RE.
  set (n := run_len Chr.is_space (Some 8) s).
  assert (Hfirst : try_at (Cat (Bol false) (Rep true 0 (Some 8) Chr.is_space))
                     [] s false
                   = Some (MS (rev (firstn n s)) (skipn n s) [])).
  { unfold try_at. cbn [bt at_bol bef aft caps].
    apply rep_greedy_first; [lia|]. fold n. now rewrite app_nil_r. }
  destruct s as [|c s].
  - reflexivity.
  - cbn [scan]. rewrite Hfirst. cbn [mk_mobj m_end m_start pos bef length].
    rewrite length_rev.
    destruct (Nat.eqb_spec (length (firstn n (c :: s))) 0) as [E|E].
    + assert (n = 0) as Hn.
      { destruct n; [reflexivity|]. simpl in E. lia. }
      assert (Hc : Chr.is_space c = false).
      { subst n. simpl in Hn. destruct (Chr.is_space c); [discriminate|reflexivity]. }
      replace (try_at (Cat (Bol false) (Rep true 0 (Some 8) Chr.is_space))
                 [] (c :: s) true) with (@None mstate)
        by (unfold try_at; simpl; now rewrite Hc).
      rewrite scan_not_at_start by discriminate.
      rewrite Hn. reflexivity.
    + rewrite scan_not_at_start by discriminate.
      cbn [remove_spans m_start m_end]. unfold Str.slice. simpl.
      f_equal. unfold pos. cbn [bef]. rewrite length_rev. apply firstn_length_le.
      subst n. clear. generalize (Some 8). generalize (c :: s).
      induction l as [|d l IH]; intros hi; simpl; [lia|].
      destruct (more hi && Chr.is_space d); simpl; [|lia].
      specialize (IH (option_map pred hi)). lia.
Qed.

Lemma strip_nil_iff (s : str) : Str.strip s = [] <-> forallb Chr.is_space s = true.
Proof.
  unfold Str.strip, Str.strip_by. rewrite rstrip_by_nil_iff.
  induction s as [|c s IH]; simpl; [tauto|].
  destruct (Chr.is_space c) eqn:Hc; simpl; [exact IH|].
  rewrite Hc. simpl. tauto.
Qed.





Lemma operators_line_match st line name remainder :
  single_line line -> oper_shape line name remainder ->
  operators_line st line
  = OpState (ODict.set name (OpDoc name (Str.strip remainder) []) (os_result st))
            (Some name).
Proof.
  intros Hl (lead & ws & -> & Hlead & Hn0 & Hn & Hws2 & Hws & Hr).
  apply single_line_dot in Hl.
  destruct (span_space remainder) as (w' & t & -> & Hw' & Ht).
  assert (Hdot : forallb Chr.dot ((ws ++ w') ++ t) = true).
  { rewrite !forallb_app in *.
    repeat (apply andb_true_iff in Hl as [? Hl]).
    repeat (apply andb_true_iff; split); auto. }
  destruct (oper_line_try lead name (ws ++ w') t) as (st' & Hst & Hg1 & g & Hg2 & Hg);
    auto.
  { rewrite forallb_app. now rewrite Hws, Hw'. }
  { rewrite length_app. lia. }
  { rewrite !length_app. destruct w'; destruct t; simpl in *; try congruence; lia. }
  unfold operators_line.
  destruct (Str.strip (lead ++ name ++ ws ++ w' ++ t)) eqn:Es.
  - exfalso. apply strip_nil_iff in Es. rewrite !forallb_app in Es.
    apply andb_true_iff in Es as [_ Es]. apply andb_true_iff in Es as [Es _].
    destruct name as [|c name]; [congruence|]. simpl in *.
    apply andb_true_iff in Es as [Es _]. apply andb_true_iff in Hn as [Hn _].
    apply word_not_space in Hn. congruence.
  - unfold py_match. rewrite <- !app_assoc in Hst. rewrite Hst.
    cbn [option_map]. unfold grp, group. cbn [mk_mobj m_caps].
    rewrite Hg1, Hg2. cbn [default from_option id]. unfold id.
    rewrite Hg. unfold Str.strip at 1, Str.strip_by.
    rewrite <- app_assoc. rewrite lstrip_by_run by assumption.
    unfold Str.strip, Str.strip_by. now rewrite lstrip_by_run by assumption.
Qed.





(** ** What a scan leaves between its matches *)

Section RepLazy.
Context {R : Type}.
Variable p : ascii -> bool.
Variable k : str -> str -> option R.

Lemma rep_lazy_sound lo hi b a r :
  rep_lazy p k lo hi b a = Some r ->
  exists y z, a = y ++ z /\ forallb p y = true /\ lo <= length y /\
              within hi (length y) /\ k (rev y ++ b) z = Some r.
Proof.
  revert lo hi b. induction a as [|c a IH]; intros lo hi b; simpl.
  - destruct (Nat.eqb_spec lo 0) as [->|]; [|discriminate].
    destruct (k b []) eqn:E; [|discriminate]. intros [= ->].
    exists [], []. repeat split; auto. destruct hi; simpl; lia.
  - assert (Hgo : (if more hi && p c
                   then rep_lazy p k (pred lo) (option_map pred hi) (c :: b) a
                   else None) = Some r ->
                  exists y z, c :: a = y ++ z /\ forallb p y = true /\
                              lo <= length y /\ within hi (length y) /\
                              k (rev y ++ b) z = Some r).
    { destruct (more hi && p c) eqn:E; [|discriminate].
      apply andb_true_iff in E as [Hm Hp]. intros Er.
      apply IH in Er as (y & z & -> & Hy & Hlo & Hhi & Hk).
      exists (c :: y), z. simpl. rewrite Hp, Hy. repeat split; auto.
      - lia.
      - destruct hi as [[|m]|]; simpl in *; try discriminate; lia.
      - now rewrite <- app_assoc. }
    destruct (Nat.eqb_spec lo 0) as [->|]; [|exact Hgo].
    destruct (k b (c :: a)) eqn:E; simpl; [|exact Hgo].
    intros [= ->]. exists [], (c :: a). repeat split; auto.
    destruct hi; simpl; lia.
Qed.

End RepLazy.

Lemma extends_refl st : extends st st.
Proof. now exists []. Qed.

Lemma extends_trans st1 st2 st3 :
  extends st1 st2 -> extends st2 st3 -> extends st1 st3.
Proof.
  intros (y & E1 & E2) (z & E3 & E4). exists (y ++ z).
  rewrite E1, E3, E4, E2. now rewrite rev_app_distr, !app_assoc.
Qed.

Lemma bt_sound r st k res :
  bt r st k = Some res -> exists st', extends st st' /\ k st' = Some res.
Proof.
  revert st k. induction r as [|p|x IHx y IHy|x IHx y IHy|g lo hi p|n x IHx|ml|ml];
    intros st k H; cbn [bt] in H.
  - exists st. split; [apply extends_refl|exact H].
  - destruct (aft st) as [|c a'] eqn:Ea; [discriminate|].
    destruct (p c); [|discriminate].
    eexists. split; [|exact H]. exists [c]. simpl. now rewrite Ea.
  - apply IHx in H as (st1 & E1 & H). apply IHy in H as (st2 & E2 & H).
    exists st2. split; [eapply extends_trans; eauto|exact H].
  - destruct (bt x st k) eqn:E; simpl in H.
    + injection H as ->. now apply IHx.
    + now apply IHy.
  - assert (exists y z, aft st = y ++ z /\ k (MS (rev y ++ bef st) z (caps st)) = Some res)
      as (y & z & Ea & Hk).
    { destruct g.
      - apply rep_greedy_sound in H as (y & z & ? & _ & _ & _ & ?). eauto.
      - apply rep_lazy_sound in H as (y & z & ? & _ & _ & _ & ?). eauto. }
    eexists. split; [|exact Hk]. exists y. now rewrite Ea.
  - apply IHx in H as (st1 & E1 & H).
    eexists. split; [|exact H]. destruct E1 as (y & ? & ?). now exists y.
  - destruct (at_bol ml (bef st)); [|discriminate].
    exists st. split; [apply extends_refl|exact H].
  - destruct (at_eol ml (aft st)); [|discriminate].
    exists st. split; [apply extends_refl|exact H].
Qed.

Lemma try_at_extends r b a adv st :
  try_at r b a adv = Some st ->
  exists y, a = y ++ aft st /\ bef st = rev y ++ b /\ (adv = true -> y <> []).
Proof.
  unfold try_at. intros H. apply bt_sound in H as (st' & (y & E1 & E2) & H).
  simpl in E1, E2.
  destruct (adv && (pos st' =? length b)) eqn:Ea; [discriminate|].
  injection H as <-. exists y. repeat split; auto.
  intros -> ->. simpl in *. unfold pos in Ea. rewrite E2, Nat.eqb_refl in Ea.
  discriminate.
Qed.

Lemma slice_same (s : str) (i : nat) : Str.slice s i i = [].
Proof. unfold Str.slice. now rewrite Nat.sub_diag. Qed.

Lemma slice_next (b : str) (c : ascii) (a : str) (j : nat) :
  length b + 1 <= j ->
  Str.slice (rev b ++ c :: a) (length b) j
  = c :: Str.slice (rev b ++ c :: a) (length b + 1) j.
Proof.
  intros Hj. unfold Str.slice.
  rewrite !skipn_app, !length_rev.
  rewrite (skipn_all2 (n := length b)) by (rewrite length_rev; lia).
  rewrite (skipn_all2 (n := length b + 1)) by (rewrite length_rev; lia).
  replace (length b - length b) with 0 by lia.
  replace (length b + 1 - length b) with 1 by lia.
  simpl. destruct (j - length b) as [|n] eqn:E; [lia|].
  simpl. f_equal. f_equal. lia.
Qed.

Lemma slice_to_end (b a : str) :
  Str.slice (rev b ++ a) (length b) (length (rev b ++ a)) = a.
Proof.
  unfold Str.slice. rewrite skipn_app, length_rev, length_app, length_rev.
  rewrite skipn_all2 by (rewrite length_rev; lia).
  replace (length b - length b) with 0 by lia. simpl.
  replace (length b + length a - length b) with (length a) by lia.
  apply firstn_all.
Qed.

Lemma rev_cons_app (b : str) (c : ascii) (a : str) :
  rev (c :: b) ++ a = rev b ++ c :: a.
Proof. simpl. now rewrite <- app_assoc. Qed.

Section Scan.
Variable r : re.

Lemma try_at_start b a adv st :
  try_at r b a adv = Some st -> length b <= pos st /\ pos st <= length b + length a.
Proof.
  intros H. apply try_at_extends in H as (y & -> & E & _).
  unfold pos. rewrite E, length_app, length_rev, length_app. lia.
Qed.

Lemma try_at_end_empty b st :
  try_at r b [] false = Some st -> pos st = length b /\ try_at r b [] true = None.
Proof.
  intros H. split.
  - apply try_at_start in H. simpl in H. lia.
  - destruct (try_at r b [] true) as [st2|] eqn:E; [|reflexivity].
    apply try_at_extends in E as (y & E1 & _ & Hy).
    destruct y; [now specialize (Hy eq_refl)|discriminate].
Qed.

Lemma start_of_bounds a : forall b skip,
  skip <= length a ->
  length b + skip <= start_of (rev b ++ a) (scan r b a skip)
  /\ start_of (rev b ++ a) (scan r b a skip) <= length b + length a.
Proof.
  induction a as [|c a IH]; intros b skip Hs.
  - simpl in Hs. assert (skip = 0) as -> by lia. simpl.
    destruct (try_at r b [] false) as [st|]; simpl.
    + destruct (_ =? _); [destruct (try_at r b [] true)|]; simpl; lia.
    + rewrite length_app, length_rev. simpl. lia.
  - simpl in Hs. rewrite <- rev_cons_app.
    destruct skip as [|n].
    + cbn [scan].
      destruct (try_at r b (c :: a) false) as [st|].
      * destruct (_ =? _); [destruct (try_at r b (c :: a) true)|]; simpl; lia.
      * destruct (IH (c :: b) 0 ltac:(lia)) as [H1 H2]. simpl in *. lia.
    + cbn [scan]. destruct (IH (c :: b) n ltac:(lia)) as [H1 H2]. simpl in *. lia.
Qed.

Lemma gaps_before a : forall b skip,
  skip <= length a ->
  Str.slice (rev b ++ a) (length b + skip) (start_of (rev b ++ a) (scan r b a skip))
  = fst (gaps r b a skip).
Proof.
  induction a as [|c a IH]; intros b skip Hs.
  - simpl in Hs. assert (skip = 0) as -> by lia. rewrite Nat.add_0_r. simpl.
    destruct (try_at r b [] false) as [st|]; simpl.
    + destruct (_ =? _); [destruct (try_at r b [] true)|]; simpl; apply slice_same.
    + rewrite app_nil_r. unfold Str.slice. rewrite length_rev.
      now rewrite Nat.sub_diag.
  - simpl in Hs. destruct skip as [|n].
    + rewrite Nat.add_0_r. cbn [scan gaps].
      destruct (try_at r b (c :: a) false) as [st|].
      * destruct (_ =? _); [destruct (try_at r b (c :: a) true)|];
          repeat destruct (gaps _ _ _ _); simpl; apply slice_same.
      * pose proof (IH (c :: b) 0 ltac:(lia)) as H.
        pose proof (start_of_bounds a (c :: b) 0 ltac:(lia)) as [H1 _].
        rewrite rev_cons_app in H, H1. simpl length in H, H1.
        destruct (gaps r (c :: b) a 0) as [g l]. simpl in H |- *.
        rewrite slice_next by lia. f_equal.
        rewrite <- H. f_equal. lia.
    + cbn [scan gaps]. rewrite <- rev_cons_app.
      rewrite <- (IH (c :: b) n) by lia. f_equal. simpl. lia.
Qed.

Lemma gaps_bodies a : forall b skip,
  skip <= length a ->
  bodies (rev b ++ a) (scan r b a skip) = snd (gaps r b a skip).
Proof.
  induction a as [|c a IH]; intros b skip Hs.
  - simpl in Hs. assert (skip = 0) as -> by lia. simpl.
    destruct (try_at r b [] false) as [st|] eqn:E; [|reflexivity].
    apply try_at_end_empty in E as [E1 E2]. rewrite E2.
    cbn [mk_mobj m_end m_start]. rewrite E1, Nat.eqb_refl. simpl.
    f_equal. f_equal. rewrite app_nil_r, length_rev, ?E1. apply slice_same.
  - simpl in Hs. destruct skip as [|n].
    + cbn [scan gaps].
      destruct (try_at r b (c :: a) false) as [st|] eqn:E.
      * pose proof (try_at_start _ _ _ _ E) as [Hlo Hhi]. simpl in Hhi.
        cbn [mk_mobj m_end m_start].
        destruct (Nat.eqb_spec (pos st) (length b)) as [Ee|Ene].
        -- destruct (try_at r b (c :: a) true) as [st2|] eqn:E2.
           ++ pose proof (try_at_start _ _ _ _ E2) as [Hlo2 Hhi2]. simpl in Hhi2.
              assert (Hne : pos st2 <> length b).
              { apply try_at_extends in E2 as (y & _ & Eb & Hy).
                unfold pos. rewrite Eb, length_app, length_rev.
                destruct y; [now specialize (Hy eq_refl)|simpl; lia]. }
              pose proof (IH (c :: b) (pos st2 - length b - 1) ltac:(lia)) as Hb.
              pose proof (gaps_before a (c :: b) (pos st2 - length b - 1) ltac:(lia)) as Hg.
              rewrite rev_cons_app in Hb, Hg.
              destruct (gaps r (c :: b) a (pos st2 - length b - 1)) as [g l].
              cbn [bodies mk_mobj m_end m_start start_of snd fst] in *.
              rewrite Ee, slice_same. f_equal. f_equal; [|exact Hb].
              f_equal. rewrite <- Hg. f_equal. simpl. lia.
           ++ pose proof (IH (c :: b) 0 ltac:(lia)) as Hb.
              pose proof (gaps_before a (c :: b) 0 ltac:(lia)) as Hg.
              pose proof (start_of_bounds a (c :: b) 0 ltac:(lia)) as [H1 _].
              rewrite rev_cons_app in Hb, Hg, H1. simpl length in Hg, H1.
              destruct (gaps r (c :: b) a 0) as [g l].
              cbn [bodies mk_mobj m_end m_start start_of snd fst] in *.
              rewrite Ee. f_equal; [|exact Hb]. f_equal.
              rewrite slice_next by lia. f_equal. rewrite <- Hg. f_equal. lia.
        -- pose proof (IH (c :: b) (pos st - length b - 1) ltac:(lia)) as Hb.
           pose proof (gaps_before a (c :: b) (pos st - length b - 1) ltac:(lia)) as Hg.
           rewrite rev_cons_app in Hb, Hg.
           destruct (gaps r (c :: b) a (pos st - length b - 1)) as [g l].
           cbn [bodies mk_mobj m_end m_start start_of snd fst] in *.
           f_equal; [|exact Hb]. f_equal. rewrite <- Hg. f_equal. simpl. lia.
      * pose proof (IH (c :: b) 0 ltac:(lia)) as Hb.
        rewrite rev_cons_app in Hb.
        destruct (gaps r (c :: b) a 0) as [g l]. exact Hb.
    + cbn [scan gaps]. rewrite <- rev_cons_app. apply IH. lia.
Qed.

End Scan.

Lemma remove_spans_bodies (text : str) (ms : list mobj) (i : nat) :
  remove_spans ms i text
  = Str.slice text i (start_of text ms) ++ concat (map snd (bodies text ms)).
Proof.
  revert i. induction ms as [|m ms IH]; intros i; simpl.
  - rewrite app_nil_r. unfold Str.slice. symmetry.
    rewrite <- length_skipn. apply firstn_all.
  - now rewrite IH.
Qed.

(** [pattern.sub('', s)] is the text the scanner passes over. *)
Lemma sub_empty_gaps (r : re) (s : str) :
  sub_empty r s
  = fst (gaps r [] s 0) ++ concat (map snd (snd (gaps r [] s 0))).
Proof.
  unfold sub_empty, finditer. rewrite remove_spans_bodies.
  pose proof (gaps_before r s [] 0 ltac:(lia)) as H1.
  pose proof (gaps_bodies r s [] 0 ltac:(lia)) as H2.
  simpl in H1, H2. now rewrite H1, H2.
Qed.

Lemma finditer_gaps (r : re) (s : str) :
  finditer r s = map fst (snd (gaps r [] s 0)).
Proof.
  unfold finditer. rewrite <- (gaps_bodies r s [] 0) by lia. simpl.
  generalize (scan r [] s 0). intros ms.
  induction ms as [|m ms IH]; simpl; [reflexivity|]. now rewrite <- IH.
Qed.

Lemma sections_loop_bodies (text : str) (ms : list mobj) (acc : gmap str str) :
  sections_loop text ms acc
  = fold_left
      (fun acc mb => <[ grp 1 (fst mb) := Str.strip_chars [Chr.LF] (snd mb) ]> acc)
      (bodies text ms) acc.
Proof.
  revert acc. induction ms as [|m ms IH]; intros acc; [reflexivity|].
  cbn [sections_loop bodies fold_left fst snd]. rewrite IH.
  destruct ms; reflexivity.
Qed.

Lemma split_sections_gaps (text : str) :
  _split_sections text
  = fold_left
      (fun acc mb => <[ grp 1 (fst mb) := Str.strip_chars [Chr.LF] (snd mb) ]> acc)
      (snd (gaps HELP_HEADERS_RE [] text 0)) ∅.
Proof.
  unfold _split_sections, finditer. rewrite sections_loop_bodies.
  pose proof (gaps_bodies HELP_HEADERS_RE text [] 0 ltac:(lia)) as H.
  simpl in H. now rewrite H.
Qed.

(** ** The synopsis *)

Lemma not_close_eqb c : not_close c = negb (Ascii.eqb c "]").
Proof. reflexivity. Qed.

Lemma until_close_some a x rest :
  until_close a = Some (x, rest) ->
  a = x ++ "]"%char :: rest /\ forallb not_close x = true.
Proof.
  revert x. induction a as [|c a IH]; intros x; simpl; [discriminate|].
  destruct (Ascii.eqb_spec c "]") as [->|Hc].
  - intros [= <- <-]. now split.
  - destruct (until_close a) as [[x' r']|]; [|discriminate].
    intros [= <- <-]. destruct (IH x' eq_refl) as [-> Hx]. split; [reflexivity|].
    simpl. rewrite Hx, not_close_eqb.
    destruct (Ascii.eqb_spec c "]"); [congruence|reflexivity].
Qed.

Lemma until_close_none a : until_close a = None -> forallb not_close a = true.
Proof.
  induction a as [|c a IH]; simpl; [reflexivity|].
  rewrite not_close_eqb.
  destruct (Ascii.eqb c "]"); [discriminate|].
  destruct (until_close a) as [[x r]|]; [discriminate|]. intros _. now apply IH.
Qed.

Lemma forallb_suffix (p : ascii -> bool) (y z : str) :
  forallb p (y ++ z) = true -> forallb p z = true.
Proof. rewrite forallb_app. intros H. now apply andb_true_iff in H as [_ H]. Qed.

Lemma try_at_block_open b a adv :
  try_at OPT_BLOCK_RE b ("["%char :: a) adv =
  match until_close a with
  | Some (x, rest) =>
      if nonempty x
      then Some (MS (rev ("["%char :: x ++ ["]"%char]) ++ b) rest [(1, x)])
      else None
  | None => None
  end.
Proof.
  unfold try_at, OPT_BLOCK_RE. cbn [cats bt aft bef caps plus].
  change (Chr.lit "[" "[") with true. cbv iota.
  destruct (until_close a) as [[x rest]|] eqn:E.
  - apply until_close_some in E as [-> Hx].
    destruct x as [|c x]; cbn [nonempty].
    + reflexivity.
    + fold not_close. eapply rep_greedy_max; [exact Hx|reflexivity|simpl; lia|].
      cbn beta. cbn [aft bef caps].
      change (Chr.lit "]" "]") with true. cbv iota.
      rewrite taken_app. unfold pos. cbn [bef].
      replace (adv && _) with false.
      * f_equal. f_equal. simpl. rewrite rev_app_distr. simpl.
        now rewrite <- !app_assoc.
      * symmetry. apply andb_false_iff. right. apply Nat.eqb_neq.
        simpl. rewrite !length_app. simpl. lia.
  - apply until_close_none in E. fold not_close.
    apply rep_greedy_none. intros y z -> _ _ _. cbn [aft].
    apply forallb_suffix in E. destruct z as [|d z]; [reflexivity|].
    simpl in E. apply andb_true_iff in E as [Hd _].
    rewrite not_close_eqb in Hd. unfold Chr.lit.
    now destruct (Ascii.eqb d "]").
Qed.

Lemma try_at_block_other b a adv :
  match a with
  | c :: _ => Ascii.eqb c "[" = false
  | [] => True
  end ->
  try_at OPT_BLOCK_RE b a adv = None.
Proof.
  unfold try_at, OPT_BLOCK_RE. cbn [cats bt aft bef caps plus].
  destruct a as [|c a]; [reflexivity|]. unfold Chr.lit. now intros ->.
Qed.

Lemma gaps_skip (r : re) (y rest b : str) :
  gaps r b (y ++ rest) (length y) = gaps r (rev y ++ b) rest 0.
Proof.
  revert b. induction y as [|c y IH]; intros b; [reflexivity|].
  cbn [app length gaps]. rewrite IH. simpl. now rewrite <- app_assoc.
Qed.

Lemma gaps_pass (r : re) (b : str) (c : ascii) (a : str) :
  try_at r b (c :: a) false = None ->
  gaps r b (c :: a) 0
  = (c :: fst (gaps r (c :: b) a 0), snd (gaps r (c :: b) a 0)).
Proof.
  intros H. cbn [gaps]. rewrite H. now destruct (gaps r (c :: b) a 0).
Qed.

Lemma gaps_match (r : re) (b : str) (c : ascii) (a : str) (st : mstate) :
  try_at r b (c :: a) false = Some st ->
  pos st <> length b ->
  gaps r b (c :: a) 0
  = ([], (mk_mobj b st, fst (gaps r (c :: b) a (pos st - length b - 1)))
         :: snd (gaps r (c :: b) a (pos st - length b - 1))).
Proof.
  intros H Hne. cbn [gaps]. rewrite H. cbv zeta. cbn [mk_mobj m_end m_start].
  destruct (Nat.eqb_spec (pos st) (length b)); [congruence|].
  now destruct (gaps r (c :: b) a (pos st - length b - 1)).
Qed.

Lemma groups_from_open x acc rest :
  forallb not_close x = true ->
  groups_from (Some acc) (x ++ "]"%char :: rest)
  = match rev x ++ acc with
    | [] => groups_from None rest
    | _ => (rev acc ++ x) :: groups_from None rest
    end.
Proof.
  revert acc. induction x as [|c x IH]; intros acc Hx.
  - simpl. destruct acc; [reflexivity|]. now rewrite app_nil_r.
  - simpl in Hx. apply andb_true_iff in Hx as [Hc Hx].
    rewrite not_close_eqb in Hc. apply negb_true_iff in Hc.
    cbn [app groups_from]. rewrite Hc, IH by assumption.
    simpl. rewrite <- !app_assoc. simpl.
    destruct (rev x ++ c :: acc); reflexivity.
Qed.

Lemma groups_from_unclosed x pending :
  forallb not_close x = true -> groups_from pending x = [].
Proof.
  revert pending. induction x as [|c x IH]; intros pending Hx; [reflexivity|].
  simpl in Hx. apply andb_true_iff in Hx as [Hc Hx].
  rewrite not_close_eqb in Hc. apply negb_true_iff in Hc.
  simpl. rewrite Hc. destruct pending; [now apply IH|].
  destruct (Ascii.eqb c "["); now apply IH.
Qed.

Lemma strip_groups_open x acc rest :
  forallb not_close x = true ->
  strip_groups (Some acc) (x ++ "]"%char :: rest)
  = match rev x ++ acc with
    | [] => "["%char :: "]"%char :: strip_groups None rest
    | _ => strip_groups None rest
    end.
Proof.
  revert acc. induction x as [|c x IH]; intros acc Hx.
  - reflexivity.
  - simpl in Hx. apply andb_true_iff in Hx as [Hc Hx].
    rewrite not_close_eqb in Hc. apply negb_true_iff in Hc.
    cbn [app strip_groups]. rewrite Hc, IH by assumption.
    simpl. rewrite <- !app_assoc. reflexivity.
Qed.

Lemma strip_groups_unclosed x pending :
  forallb not_close x = true ->
  strip_groups pending x
  = match pending with
    | None => []
    | Some acc => "["%char :: rev acc
    end ++ x.
Proof.
  revert pending. induction x as [|c x IH]; intros pending Hx.
  - simpl. destruct pending; [now rewrite app_nil_r|reflexivity].
  - simpl in Hx. apply andb_true_iff in Hx as [Hc Hx].
    rewrite not_close_eqb in Hc. apply negb_true_iff in Hc.
    cbn [strip_groups]. rewrite Hc. destruct pending as [acc|].
    + rewrite IH by assumption. simpl. now rewrite <- !app_assoc.
    + destruct (Ascii.eqb_spec c "[") as [->|Hn].
      * now rewrite IH.
      * rewrite IH by assumption. reflexivity.
Qed.

(** What the scanner finds with [\[([^\]]+)\]] is what the left-to-right
    reading finds. *)
Lemma block_gaps (n : nat) : forall a b,
  length a <= n ->
  map (fun mb => grp 1 (fst mb)) (snd (gaps OPT_BLOCK_RE b a 0))
  = groups_from None a
  /\ fst (gaps OPT_BLOCK_RE b a 0)
     ++ concat (map snd (snd (gaps OPT_BLOCK_RE b a 0)))
     = strip_groups None a.
Proof.
  induction n as [|n IH]; intros a b Hn.
  - destruct a; [|simpl in Hn; lia]. now split.
  - destruct a as [|c a]; [now split|]. simpl in Hn.
    assert (Hpass : try_at OPT_BLOCK_RE b (c :: a) false = None ->
                    groups_from None (c :: a) = groups_from None a ->
                    strip_groups None (c :: a) = c :: strip_groups None a ->
                    map (fun mb => grp 1 (fst mb)) (snd (gaps OPT_BLOCK_RE b (c :: a) 0))
                    = groups_from None (c :: a)
                    /\ fst (gaps OPT_BLOCK_RE b (c :: a) 0)
                       ++ concat (map snd (snd (gaps OPT_BLOCK_RE b (c :: a) 0)))
                       = strip_groups None (c :: a)).
    { intros Ht Hg Hs. rewrite (gaps_pass _ _ _ _ Ht), Hg, Hs.
      destruct (IH a (c :: b) ltac:(lia)) as [H1 H2].
      cbn [fst snd app]. now rewrite H1, H2. }
    destruct (Ascii.eqb_spec c "[") as [->|Hc].
    + pose proof (try_at_block_open b a false) as Ht.
      destruct (until_close a) as [[x rest]|] eqn:E.
      * apply until_close_some in E as [-> Hx].
        destruct x as [|d x]; cbn [nonempty] in Ht.
        -- apply Hpass; [exact Ht|reflexivity|reflexivity].
        -- assert (Hg : groups_from None ("["%char :: (d :: x) ++ "]"%char :: rest)
                        = (d :: x) :: groups_from None rest).
           { change (groups_from None ("["%char :: (d :: x) ++ "]"%char :: rest))
               with (groups_from (Some []) ((d :: x) ++ "]"%char :: rest)).
             rewrite groups_from_open by assumption. rewrite app_nil_r.
             destruct (rev (d :: x)) eqn:Er; [|reflexivity].
             apply (f_equal (@length _)) in Er. rewrite length_rev in Er.
             simpl in Er. lia. }
           assert (Hs : strip_groups None ("["%char :: (d :: x) ++ "]"%char :: rest)
                        = strip_groups None rest).
           { change (strip_groups None ("["%char :: (d :: x) ++ "]"%char :: rest))
               with (strip_groups (Some []) ((d :: x) ++ "]"%char :: rest)).
             rewrite strip_groups_open by assumption. rewrite app_nil_r.
             destruct (rev (d :: x)) eqn:Er; [|reflexivity].
             apply (f_equal (@length _)) in Er. rewrite length_rev in Er.
             simpl in Er. lia. }
           rewrite Hg, Hs.
           rewrite (gaps_match _ _ _ _ _ Ht).
           2:{ unfold pos; cbn [bef]. rewrite length_app, length_rev;
                 simpl; lia. }
           unfold pos. cbn [bef].
           replace (length (rev ("["%char :: (d :: x) ++ ["]"%char]) ++ b)
                    - length b - 1)
             with (length ((d :: x) ++ ["]"%char]))
             by (rewrite !length_app, length_rev; simpl; rewrite !length_app;
                 simpl; lia).
           replace ((d :: x) ++ "]"%char :: rest)
             with (((d :: x) ++ ["]"%char]) ++ rest)
             by (now rewrite <- app_assoc).
           rewrite gaps_skip.
           destruct (IH rest (rev ((d :: x) ++ ["]"%char]) ++ "["%char :: b))
             as [H1 H2].
           { simpl in Hn. rewrite !length_app in Hn. simpl in Hn. lia. }
           split.
           ++ cbn [fst snd map]. f_equal. exact H1.
           ++ cbn [fst snd map concat]. exact H2.
      * apply until_close_none in E.
        apply Hpass; [exact Ht| |].
        -- cbn [groups_from]. change (Ascii.eqb "[" "[") with true. cbv iota.
           now rewrite !groups_from_unclosed.
        -- cbn [strip_groups]. change (Ascii.eqb "[" "[") with true. cbv iota.
           now rewrite !strip_groups_unclosed.
    + apply Ascii.eqb_neq in Hc.
      apply Hpass.
      * apply try_at_block_other. exact Hc.
      * simpl. now rewrite Hc.
      * simpl. now rewrite Hc.
Qed.

Lemma findall_blocks (s : str) : findall1 OPT_BLOCK_RE s = bracket_groups s.
Proof.
  unfold findall1, bracket_groups. rewrite finditer_gaps, map_map.
  apply (block_gaps (length s) s [] (le_n _)).
Qed.

Lemma sub_blocks (s : str) : sub_empty OPT_BLOCK_RE s = without_groups s.
Proof.
  unfold without_groups. rewrite sub_empty_gaps.
  apply (block_gaps (length s) s [] (le_n _)).
Qed.

Lemma synopsis_not_space c : synopsis_char c = true -> Chr.is_space c = false.
Proof.
  by_cases_on_ascii (fun c => implb (synopsis_char c) (negb (Chr.is_space c))).
  specialize (H c).
  destruct (synopsis_char c), (Chr.is_space c); simpl in *; congruence.
Qed.

Lemma space_not_synopsis c : Chr.is_space c = true -> synopsis_char c = false.
Proof.
  intros H. destruct (synopsis_char c) eqn:E; [|reflexivity].
  apply synopsis_not_space in E. congruence.
Qed.

Lemma synopsis_not_hash c : synopsis_char c = true -> Ascii.eqb "#" c = false.
Proof.
  by_cases_on_ascii (fun c => implb (synopsis_char c) (negb (Ascii.eqb "#" c))).
  specialize (H c).
  destruct (synopsis_char c), (Ascii.eqb "#" c); simpl in *; congruence.
Qed.

Lemma space_not_hash c : Chr.is_space c = true -> Ascii.eqb "#" c = false.
Proof.
  by_cases_on_ascii (fun c => implb (Chr.is_space c) (negb (Ascii.eqb "#" c))).
  specialize (H c).
  destruct (Chr.is_space c), (Ascii.eqb "#" c); simpl in *; congruence.
Qed.

Lemma synopsis_line_try lead left ws right :
  forallb Chr.is_space lead = true ->
  left <> [] -> forallb synopsis_char left = true ->
  ws <> [] -> forallb Chr.is_space ws = true ->
  right <> [] -> stops Chr.is_space right -> forallb Chr.dot right = true ->
  try_at SYNOPSIS_LINE_RE [] (lead ++ left ++ ws ++ right) false
  = Some (MS (rev (lead ++ left ++ ws ++ right)) [] [(2, right); (1, left)]).
Proof.
  intros Hlead Hl0 Hl Hw0 Hw Hr0 Hr Hd.
  unfold try_at, SYNOPSIS_LINE_RE.
  cbn [cats bt at_bol bef aft caps star plus].
  eapply rep_greedy_max; [assumption| |lia|].
  { eapply stops_head; eauto using synopsis_not_space. }
  cbn beta.
  eapply rep_greedy_max; [assumption| |now apply length_pos|].
  { eapply stops_head; [|exact Hw|assumption]. apply space_not_synopsis. }
  cbn beta.
  eapply rep_greedy_max; [assumption| |now apply length_pos|].
  { destruct right; [congruence|exact Hr]. }
  cbn beta. rewrite <- (app_nil_r right) at 1.
  eapply rep_greedy_max; [assumption|exact I|now apply length_pos|].
  cbn [at_eol Nat.eqb andb length bef aft caps pos].
  rewrite !taken_app.
  f_equal. f_equal.
  - rewrite !rev_app_distr. now rewrite <- !app_assoc, ?app_nil_r.
  - f_equal. f_equal. unfold taken. cbn [aft length].
    rewrite Nat.sub_0_r. apply firstn_all.
Qed.

Lemma synopsis_line_sound line st :
  forallb Chr.dot line = true ->
  try_at SYNOPSIS_LINE_RE [] line false = Some st ->
  exists lead left ws right,
    line = lead ++ left ++ ws ++ right /\
    forallb Chr.is_space lead = true /\
    left <> [] /\ forallb synopsis_char left = true /\
    ws <> [] /\ forallb Chr.is_space ws = true /\
    right <> [].
Proof.
  intros Hdot H. unfold try_at, SYNOPSIS_LINE_RE in H.
  cbn [cats bt at_bol bef aft caps star plus] in H.
  apply rep_greedy_sound in H as (y0 & z0 & E0 & Hy0 & _ & _ & H). cbn beta in H.
  apply rep_greedy_sound in H as (y1 & z1 & E1 & Hy1 & L1 & _ & H). cbn beta in H.
  apply rep_greedy_sound in H as (y2 & z2 & E2 & Hy2 & L2 & _ & H). cbn beta in H.
  apply rep_greedy_sound in H as (y3 & z3 & E3 & Hy3 & L3 & _ & H). cbn beta in H.
  cbn [aft] in H. destruct (at_eol false z3) eqn:Heol; [|discriminate].
  subst. assert (z3 = []) as ->.
  { apply no_LF_at_eol; [|exact Heol].
    rewrite !forallb_app in Hdot.
    repeat (apply andb_true_iff in Hdot as [_ Hdot]). exact Hdot. }
  exists y0, y1, y2, y3. rewrite app_nil_r.
  repeat split; auto; intros ->; simpl in *; lia.
Qed.

Lemma splitlines_single (l : str) :
  single_line l -> l <> [] -> Str.splitlines l = [l].
Proof.
  unfold single_line. induction l as [|c l IH]; intros H Hne; [congruence|].
  simpl in H. apply andb_true_iff in H as [Hc H].
  unfold Chr.non in Hc. apply negb_true_iff in Hc.
  cbn [Str.splitlines]. rewrite Hc.
  destruct l as [|d l]; [reflexivity|].
  now rewrite IH.
Qed.

Lemma groups_from_chars (p : ascii -> bool) pending s :
  forallb p s = true ->
  match pending with
  | Some acc => forallb p acc = true
  | None => True
  end ->
  Forall (fun g => forallb p g = true) (groups_from pending s).
Proof.
  revert pending. induction s as [|c s IH]; intros pending Hs Hp; [constructor|].
  simpl in Hs. apply andb_true_iff in Hs as [Hc Hs]. simpl.
  destruct pending as [acc|].
  - destruct (Ascii.eqb c "]").
    + destruct acc as [|a acc]; [now apply IH|].
      constructor; [|now apply IH]. now rewrite forallb_rev.
    + apply IH; [assumption|]. simpl. now rewrite Hc, Hp.
  - destruct (Ascii.eqb c "["); now apply IH.
Qed.

Lemma split_on_chars (p : ascii -> bool) d s :
  forallb p s = true -> Forall (fun g => forallb p g = true) (Str.split_on d s).
Proof.
  induction s as [|c s IH]; intros Hs; simpl.
  - now repeat constructor.
  - simpl in Hs. apply andb_true_iff in Hs as [Hc Hs].
    specialize (IH Hs).
    destruct (Ascii.eqb c d); [now constructor|].
    destruct (Str.split_on d s) as [|l ls]; [now repeat constructor; simpl; rewrite Hc|].
    inversion IH; subst. constructor; [simpl; now rewrite Hc|assumption].
Qed.

Lemma strip_no_space (s : str) :
  forallb (Chr.non Chr.is_space) s = true -> Str.strip s = s.
Proof.
  intros H. destruct s as [|c s]; [reflexivity|].
  destruct (exists_last (l := c :: s)) as (x & d & E); [discriminate|].
  rewrite E in *. apply strip_by_keeps.
  - rewrite <- E. simpl in H |- *. rewrite <- E in H. simpl in H.
    apply andb_true_iff in H as [H _]. unfold Chr.non in H.
    now apply negb_true_iff in H.
  - rewrite forallb_app in H. simpl in H.
    apply andb_true_iff in H as [_ H]. apply andb_true_iff in H as [H _].
    unfold Chr.non in H. now apply negb_true_iff in H.
Qed.

Lemma optional_items acc items :
  fold_left
    (fun optional_params item =>
       let item := Str.strip item in
       if nonempty item then optional_params ++ [item] else optional_params)
    items acc
  = acc ++ List.filter nonempty (map Str.strip items).
Proof.
  revert acc. induction items as [|i items IH]; intros acc; simpl.
  - now rewrite app_nil_r.
  - rewrite IH. destruct (nonempty (Str.strip i)); [|reflexivity].
    now rewrite <- app_assoc.
Qed.

Lemma optional_blocks acc blocks :
  fold_left
    (fun optional_params opt_block =>
       fold_left
         (fun optional_params item =>
            let item := Str.strip item in
            if nonempty item then optional_params ++ [item]
            else optional_params)
         (Str.split_on "," opt_block) optional_params)
    blocks acc
  = acc ++ flat_map (fun blk => List.filter nonempty (map Str.strip (Str.split_on "," blk)))
             blocks.
Proof.
  revert acc. induction blocks as [|blk blocks IH]; intros acc; simpl.
  - now rewrite app_nil_r.
  - rewrite IH, optional_items. now rewrite <- app_assoc.
Qed.

Lemma map_strip_id (items : list str) :
  Forall (fun g => forallb (Chr.non Chr.is_space) g = true) items ->
  map Str.strip items = items.
Proof.
  induction 1 as [|i items Hi _ IH]; [reflexivity|].
  simpl. now rewrite strip_no_space, IH.
Qed.

Lemma flat_items (gs : list str) :
  Forall (fun g => forallb (Chr.non Chr.is_space) g = true) gs ->
  flat_map (fun blk => List.filter nonempty (map Str.strip (Str.split_on "," blk))) gs
  = flat_map items_of gs.
Proof.
  induction gs as [|g gs IH]; intros Hgs; [reflexivity|].
  pose proof (Forall_inv Hgs) as Hg. pose proof (Forall_inv_tail Hgs) as Hgs'.
  simpl. rewrite (IH Hgs'). f_equal. unfold items_of.
  rewrite map_strip_id; [reflexivity|]. now apply split_on_chars.
Qed.

Lemma optional_of_left (left : str) :
  forallb synopsis_char left = true ->
  optional_of left = flat_map items_of (bracket_groups left).
Proof.
  intros Hl. unfold optional_of. rewrite optional_blocks, findall_blocks.
  simpl. apply flat_items.
  assert (Hns : forallb (Chr.non Chr.is_space) left = true).
  { rewrite forallb_forall in *. intros c Hc. unfold Chr.non.
    now rewrite synopsis_not_space by auto. }
  exact (groups_from_chars _ None left Hns I).
Qed.

Lemma last_only_last (l : list str) :
  l <> [] -> last_only l = [List.last l []].
Proof.
  intros H. destruct (exists_last H) as (x & a & ->).
  unfold last_only. rewrite rev_app_distr. simpl. now rewrite last_last.
Qed.

Lemma lstrip_by_split (p : ascii -> bool) (s : str) :
  exists t, s = t ++ Str.lstrip_by p s /\ forallb p t = true
            /\ stops p (Str.lstrip_by p s).
Proof.
  induction s as [|c s (t & E & Ht & Hs)].
  - exists []. now repeat split.
  - simpl. destruct (p c) eqn:Hc.
    + exists (c :: t). simpl. rewrite Hc, Ht. repeat split; auto. now f_equal.
    + exists []. repeat split. exact Hc.
Qed.

Lemma rstrip_by_split (p : ascii -> bool) (s : str) :
  exists t, s = Str.rstrip_by p s ++ t /\ forallb p t = true
            /\ (Str.rstrip_by p s = [] \/
                exists x c, Str.rstrip_by p s = x ++ [c] /\ p c = false).
Proof.
  unfold Str.rstrip_by.
  destruct (lstrip_by_split p (rev s)) as (t & E & Ht & Hs).
  exists (rev t). split; [|split].
  - rewrite <- rev_app_distr, <- E. now rewrite rev_involutive.
  - now rewrite forallb_rev.
  - destruct (Str.lstrip_by p (rev s)) as [|c l]; [now left|].
    right. exists (rev l), c. split; [reflexivity|exact Hs].
Qed.

Lemma rstrip_shape lead left ws right trail :
  trimmed right -> forallb Chr.is_space trail = true ->
  Str.rstrip (lead ++ left ++ ws ++ right ++ trail) = lead ++ left ++ ws ++ right.
Proof.
  intros Hr Ht. apply trimmed_iff in Hr as (x & c & -> & _ & Hc).
  unfold Str.rstrip.
  replace (lead ++ left ++ ws ++ (x ++ [c]) ++ trail)
    with ((lead ++ left ++ ws ++ x ++ [c]) ++ trail)
    by (now rewrite <- !app_assoc).
  rewrite rstrip_by_run by assumption.
  replace (lead ++ left ++ ws ++ x ++ [c]) with ((lead ++ left ++ ws ++ x) ++ [c])
    by (now rewrite <- !app_assoc).
  rewrite rstrip_by_last by assumption. now rewrite <- !app_assoc.
Qed.

Lemma not_comment lead left rest :
  forallb Chr.is_space lead = true ->
  left <> [] -> forallb synopsis_char left = true ->
  negb (nonempty (lead ++ left ++ rest))
  || Str.startswith (L "#") (lead ++ left ++ rest) = false.
Proof.
  intros Hlead Hl0 Hl. unfold L.
  destruct lead as [|c lead].
  - destruct left as [|c left]; [congruence|].
    cbn [list_ascii_of_string app nonempty negb orb Str.startswith forallb] in *.
    apply andb_true_iff in Hl as [Hc _]. now rewrite synopsis_not_hash.
  - cbn [list_ascii_of_string app nonempty negb orb Str.startswith forallb] in *.
    apply andb_true_iff in Hlead as [Hc _].
    now rewrite space_not_hash.
Qed.

(** The loop body on a line of the shape: the specification it yields, or
    the [IndexError] of [parts[0]] when the left half has no token. *)
Lemma synopsis_line_shape line left right :
  synopsis_shape line left right -> forallb Chr.dot right = true ->
  synopsis_line line
  = match List.filter nonempty (Str.split_on "," (without_groups left)) with
    | [] => Raise IndexError
    | op_name :: required =>
        let io_tokens := Str.split right in
        Ok (Some (Spec op_name required
                    (flat_map items_of (bracket_groups left))
                    (if 2 <=? length io_tokens then removelast io_tokens
                     else io_tokens)
                    (if 2 <=? length io_tokens then [List.last io_tokens []]
                     else [])
                    (Str.contains (L "<operator>") op_name)))
    end.
Proof.
  intros (lead & ws & trail & -> & Hlead & Hl0 & Hl & Hw0 & Hw & Hr & Ht) Hd.
  unfold synopsis_line. rewrite rstrip_shape by assumption.
  rewrite not_comment by assumption.
  pose proof Hr as Hr'. apply trimmed_iff in Hr' as (x & c & Er & Hs & Hc).
  unfold py_match. rewrite synopsis_line_try; auto.
  2:{ apply Hr. }
  cbn [option_map]. unfold grp, group. cbn [mk_mobj m_caps caps group_in Nat.eqb
                                             default from_option]. unfold id.
  rewrite sub_blocks, optional_of_left by assumption.
  destruct (List.filter nonempty (Str.split_on "," (without_groups left)))
    as [|op_name required]; [reflexivity|].
  cbv zeta. unfold but_last.
  destruct (Nat.leb_spec 2 (length (Str.split right))) as [H2|H2]; [|reflexivity].
  rewrite last_only_last; [reflexivity|].
  intros E. rewrite E in H2. simpl in H2. lia.
Qed.

Lemma synopsis_line_skip line :
  single_line line ->
  (forall left right, ~ synopsis_shape line left right) ->
  synopsis_line line = Ok None.
Proof.
  intros Hl Hno. unfold synopsis_line.
  destruct (negb (nonempty (Str.rstrip line)) || _) eqn:Ec; [reflexivity|].
  unfold py_match.
  destruct (try_at SYNOPSIS_LINE_RE [] (Str.rstrip line) false) as [st|] eqn:E;
    [|reflexivity].
  exfalso.
  destruct (rstrip_by_split Chr.is_space line) as (trail & El & Ht & Hlast).
  fold (Str.rstrip line) in El, Hlast.
  apply single_line_dot in Hl.
  assert (Hd : forallb Chr.dot (Str.rstrip line) = true).
  { rewrite El, forallb_app in Hl. now apply andb_true_iff in Hl as [Hl _]. }
  apply synopsis_line_sound in E; [|exact Hd].
  destruct E as (lead & left & ws & right & E & Hlead & Hl0 & Hleft & Hw0 & Hw & Hr0).
  destruct Hlast as [Hnil|(x & c & Ex & Hc)].
  { rewrite Hnil in E. destruct lead, left; simpl in E; congruence. }
  (* the last character of the right half is the last of the stripped line *)
  destruct (exists_last Hr0) as (d0 & dl & ->).
  assert (dl = c) as ->.
  { rewrite Ex in E.
    replace (lead ++ left ++ ws ++ d0 ++ [dl])
      with ((lead ++ left ++ ws ++ d0) ++ [dl]) in E
      by (now rewrite <- !app_assoc).
    apply app_inj_tail in E as [_ E]. congruence. }
  destruct (split_leading d0 c Hc) as (sp & d & Ed & Hsp & Hdt).
  apply (Hno left d). exists lead, (ws ++ sp), trail.
  rewrite El, E, Ed. repeat split; auto.
  - now rewrite <- !app_assoc.
  - intros H. apply app_eq_nil in H as [-> _]. congruence.
  - rewrite forallb_app. now rewrite Hw, Hsp.
  - apply Hdt.
  - apply Hdt.
Qed.

Lemma startswith_iff (p s : str) :
  Str.startswith p s = true <-> exists post, s = p ++ post.
Proof.
  revert s. induction p as [|a p IH]; intros s; simpl.
  - split; [intros _; now exists s|reflexivity].
  - destruct s as [|b s].
    + split; [discriminate|]. now intros (post & H).
    + rewrite andb_true_iff, IH. split.
      * intros [Hab (post & ->)]. apply Ascii.eqb_eq in Hab as ->. now exists post.
      * intros (post & [= -> ->]). split; [apply Ascii.eqb_refl|now exists post].
Qed.

Lemma contains_iff (needle s : str) :
  Str.contains needle s = true <-> exists pre post, s = pre ++ needle ++ post.
Proof.
  induction s as [|c s IH]; simpl.
  - rewrite orb_false_r, startswith_iff. split.
    + intros (post & H). now exists [], post.
    + intros (pre & post & H). destruct pre; [now exists post|discriminate].
  - rewrite orb_true_iff, startswith_iff, IH. split.
    + intros [(post & ->)|(pre & post & ->)].
      * now exists [], post.
      * now exists (c :: pre), post.
    + intros (pre & post & H). destruct pre as [|d pre].
      * left. now exists post.
      * right. injection H as -> ->. now exists pre, post.
Qed.

(** C1 (amended). For a line made of a left half of letters, digits and
    the characters [_ < > , [ ]], white space, and a trimmed right half
    (white space may surround them), whose left half keeps a non-empty
    token once the bracketed groups are removed: the parser returns one
    specification, with the first of those tokens as operator name, the
    others as required parameters, the non-empty comma-separated items of
    the bracketed groups as optional parameters, and the white-space
    separated tokens of the right half as inputs, except that with two or
    more tokens the last one is the output.  A line of no such form is
    skipped.  The line [foo,p1,[flag] in1 in2 out] gives required [p1],
    optional [flag], two input tokens, one output token, and no
    template. *)
Theorem synopsis_line_spec (line left right op_name : str)
    (required : list str)
    (Hline : single_line line)
    (Hshape : synopsis_shape line left right)
    (Hparts : List.filter nonempty (Str.split_on "," (without_groups left))
              = op_name :: required) :
  let io_tokens := Str.split right in
  let s :=
    Spec op_name required (flat_map items_of (bracket_groups left))
      (if 2 <=? length io_tokens then removelast io_tokens else io_tokens)
      (if 2 <=? length io_tokens then [List.last io_tokens []] else [])
      (Str.contains (L "<operator>") op_name) in
  synopsis_line line = Ok (Some s)
  /\ _parse_synopsis_block line = Ok [s]
  /\ (forall line' : str,
        single_line line' ->
        (forall l r, ~ synopsis_shape line' l r) ->
        synopsis_line line' = Ok None)
  /\ _parse_synopsis_block (L "foo,p1,[flag] in1 in2 out")
     = Ok [Spec (L "foo") [L "p1"] [L "flag"] [L "in1"; L "in2"] [L "out"]
             false].
Proof.
  cbv zeta.
  assert (Hd : forallb Chr.dot right = true).
  { destruct Hshape as (lead & ws & trail & -> & _).
    apply single_line_dot in Hline. rewrite !forallb_app in Hline.
    do 3 (apply andb_true_iff in Hline as [_ Hline]).
    now apply andb_true_iff in Hline as [Hline _]. }
  assert (Hs := synopsis_line_shape line left right Hshape Hd).
  rewrite Hparts in Hs. cbv zeta in Hs.
  split; [exact Hs|]. split; [|split].
  - unfold _parse_synopsis_block. rewrite splitlines_single; auto.
    + simpl. now rewrite Hs.
    + destruct Hshape as (lead & ws & trail & -> & _ & Hl0 & _).
      destruct lead, left; simpl; congruence.
  - intros line' Hl' Hno. now apply synopsis_line_skip.
  - reflexivity.
Qed.

Lemma synopsis_line_spec_witness :
  synopsis_line (L "  <operator>,p1[,a,b][c]  in1 out ")
  = Ok (Some (Spec (L "<operator>") [L "p1"] [L "a"; L "b"; L "c"] [L "in1"]
                [L "out"] true)).
Proof.
  refine (proj1 (synopsis_line_spec (L "  <operator>,p1[,a,b][c]  in1 out ")
                   (L "<operator>,p1[,a,b][c]") (L "in1 out") (L "<operator>")
                   [L "p1"] _ _ _)).
  - reflexivity.
  - exists (L "  "), (L "  "), (L " ").
    repeat split; try reflexivity; discriminate.
  - reflexivity.
Defined.

(** A left half with a character outside the pattern's class: the line has
    both halves, and the parser skips it. *)
Lemma synopsis_left_half_counterexample :
  L "foo-x in1 out" = L "foo-x" ++ L " " ++ L "in1 out"
  /\ synopsis_line (L "foo-x in1 out") = Ok None
  /\ _parse_synopsis_block (L "foo-x in1 out") = Ok [].
Proof. repeat split. Qed.

(** A left half made of bracketed groups only has no operator token:
    [parts[0]] raises. *)
Example synopsis_no_token : _parse_synopsis_block (L "[a] in out") = Raise IndexError.
Proof. reflexivity. Qed.

(** C2 (amended). For every line the parser turns into a specification,
    [is_template] is true exactly when the operator token contains the
    text [<operator>]. *)
Theorem is_template_spec (line : str) (s : spec)
    (H : synopsis_line line = Ok (Some s)) :
  is_template s = Str.contains (L "<operator>") (op s)
  /\ (is_template s = true <->
      exists pre post, op s = pre ++ L "<operator>" ++ post).
Proof.
  assert (E : is_template s = Str.contains (L "<operator>") (op s)).
  { unfold synopsis_line in H.
    destruct (negb _ || _); [discriminate|].
    destruct (py_match SYNOPSIS_LINE_RE _) as [m|]; [|discriminate].
    destruct (List.filter nonempty _) as [|op_name required]; [discriminate|].
    destruct (2 <=? _); injection H as <-; reflexivity. }
  split; [exact E|]. rewrite E. apply contains_iff.
Qed.

Lemma is_template_spec_witness :
  is_template (Spec (L "<operator>") [L "p1"] [] [L "in"] [L "out"] true)
  = Str.contains (L "<operator>") (L "<operator>").
Proof.
  exact (proj1 (is_template_spec (L "<operator>,p1 in out")
                  (Spec (L "<operator>") [L "p1"] [] [L "in"] [L "out"] true)
                  eq_refl)).
Defined.

(** An operator token that contains the placeholder without being it. *)
Lemma is_template_counterexample :
  synopsis_line (L "<operator>s in out")
  = Ok (Some (Spec (L "<operator>s") [] [] [L "in"] [L "out"] true))
  /\ L "<operator>s" <> L "<operator>".
Proof. split; [reflexivity|discriminate]. Qed.

(** ** The section headers *)

Lemma LF_is_space : Chr.is_space Chr.LF = true.
Proof. reflexivity. Qed.

Lemma rep_ws_end {R} (F : str -> str -> R) (a b : str) :
  rep_greedy Chr.is_space
    (fun b' a' => if at_eol true a' then Some (F b' a') else None) 0 None b a
  = match ws_end a with
    | Some (w, z) => Some (F (rev w ++ b) z)
    | None => None
    end.
Proof.
  revert b. induction a as [|c a IH]; intros b; [reflexivity|].
  cbn [rep_greedy ws_end more andb Nat.eqb pred option_map at_eol orb].
  rewrite andb_true_r.
  destruct (Chr.is_space c) eqn:Hc.
  - rewrite IH. destruct (ws_end a) as [[w z]|]; simpl.
    + now rewrite <- app_assoc.
    + destruct (Ascii.eqb c Chr.LF); reflexivity.
  - destruct (Ascii.eqb_spec c Chr.LF) as [->|]; [|reflexivity].
    now rewrite LF_is_space in Hc.
Qed.

Lemma startswith_head_is (t a : str) (c : ascii) (t' : str) :
  Str.startswith (c :: t') a = true -> Str.startswith t a = true ->
  head_is c t = true.
Proof.
  destruct a as [|d a]; [discriminate|]. simpl.
  intros H1 H2. apply andb_true_iff in H1 as [H1 _].
  apply Ascii.eqb_eq in H1 as ->.
  destruct t as [|e t]; [reflexivity|]. simpl in *.
  apply andb_true_iff in H2 as [H2 _]. exact H2.
Qed.

Lemma find_distinct (ts : list str) (c : ascii) (t' a : str) :
  existsb (head_is c) ts = false ->
  Str.startswith (c :: t') a = true ->
  List.find (fun t => Str.startswith t a) ts = None.
Proof.
  intros Hex Hs. induction ts as [|t ts IH]; [reflexivity|].
  simpl in Hex. apply orb_false_iff in Hex as [Ht Hex]. simpl.
  destruct (Str.startswith t a) eqn:E; [|now apply IH].
  rewrite (startswith_head_is t a c t' Hs E) in Ht. discriminate.
Qed.

Lemma bt_alts_lit (ts : list str) (st : mstate) (k : mstate -> option mstate) :
  ts <> [] -> distinct_heads ts = true ->
  bt (alts (map lit ts)) st k
  = match List.find (fun t => Str.startswith t (aft st)) ts with
    | Some t => k (MS (rev t ++ bef st) (skipn (length t) (aft st)) (caps st))
    | None => None
    end.
Proof.
  induction ts as [|t ts IH]; intros Hne Hd; [congruence|].
  cbn [distinct_heads] in Hd. apply andb_true_iff in Hd as [Ht Hd].
  destruct ts as [|t2 ts].
  - cbn [map alts List.find]. rewrite bt_lit.
    now destruct (Str.startswith t (aft st)).
  - change (alts (map lit (t :: t2 :: ts)))
      with (Alt (lit t) (alts (map lit (t2 :: ts)))).
    cbn [bt]. rewrite bt_lit, IH by (auto; discriminate).
    change (List.find (fun t0 => Str.startswith t0 (aft st)) (t :: t2 :: ts))
      with (if Str.startswith t (aft st) then Some t
            else List.find (fun t0 => Str.startswith t0 (aft st)) (t2 :: ts)).
    destruct (Str.startswith t (aft st)) eqn:E; [|reflexivity].
    destruct t as [|c t']; [discriminate|]. apply negb_true_iff in Ht.
    rewrite (find_distinct (t2 :: ts) c t' (aft st) Ht E).
    now destruct (k _).
Qed.

Lemma bt_headers (st : mstate) (k : mstate -> option mstate) :
  bt (alts (map lit HEADERS)) st k
  = match header_of (aft st) with
    | Some t => k (MS (rev t ++ bef st) (skipn (length t) (aft st)) (caps st))
    | None => None
    end.
Proof. apply bt_alts_lit; [discriminate|reflexivity]. Qed.

(** The header pattern at one position. *)
Lemma try_at_header (b a : str) :
  try_at HELP_HEADERS_RE b a false
  = if at_bol true b then
      match header_of a with
      | Some t =>
          match ws_end (skipn (length t) a) with
          | Some (w, z) => Some (MS (rev w ++ rev t ++ b) z [(1, t)])
          | None => None
          end
      | None => None
      end
    else None.
Proof.
  unfold try_at, HELP_HEADERS_RE. cbn [cats bt bef aft caps star].
  destruct (at_bol true b); [|reflexivity].
  rewrite bt_headers. cbn [aft bef caps].
  destruct (header_of a) as [t|] eqn:Et; [|reflexivity].
  cbn [andb].
  rewrite (rep_ws_end (fun b' a' => MS b' a' _)).
  destruct (ws_end (skipn (length t) a)) as [[w z]|]; [|reflexivity].
  f_equal. f_equal. f_equal. f_equal.
  unfold header_of in Et. apply find_some in Et as [_ Et].
  apply startswith_iff in Et as (post & ->).
  rewrite skipn_app, Nat.sub_diag, skipn_all. simpl. apply taken_app.
Qed.

(** *** Lines *)

Lemma split_on_text (s : str) :
  text_of (Str.split_on Chr.LF s) = s
  /\ Forall no_LF (Str.split_on Chr.LF s)
  /\ Str.split_on Chr.LF s <> [].
Proof.
  induction s as [|c s (IH1 & IH2 & IH3)]; simpl.
  - repeat split; [repeat constructor|discriminate].
  - destruct (Ascii.eqb_spec c Chr.LF) as [->|Hc].
    + repeat split; [|constructor; [reflexivity|assumption]|discriminate].
      simpl. destruct (Str.split_on Chr.LF s) as [|l ls]; [congruence|].
      simpl in *. now rewrite IH1.
    + destruct (Str.split_on Chr.LF s) as [|l ls]; [congruence|].
      repeat split; [| |discriminate].
      * simpl in *. now rewrite IH1.
      * pose proof (Forall_inv IH2) as H1. pose proof (Forall_inv_tail IH2) as H2.
        constructor; [|assumption]. unfold no_LF in *. simpl. rewrite H1.
        apply dot_iff in Hc. now rewrite Hc.
Qed.

Lemma ws_end_app (ws x w z : str) :
  forallb Chr.is_space ws = true -> ws_end x = Some (w, z) ->
  ws_end (ws ++ x) = Some (ws ++ w, z).
Proof.
  intros Hws Hx. induction ws as [|c ws IH]; [exact Hx|].
  simpl in Hws. apply andb_true_iff in Hws as [Hc Hws].
  simpl. rewrite Hc, (IH Hws). reflexivity.
Qed.

Lemma ws_end_none (sp : str) (c : ascii) (y : str) :
  forallb Chr.is_space sp = true -> no_LF sp -> Chr.is_space c = false ->
  ws_end (sp ++ c :: y) = None.
Proof.
  unfold no_LF. intros Hsp Hd Hc. induction sp as [|d sp IH].
  - simpl. now rewrite Hc.
  - simpl in Hsp, Hd. apply andb_true_iff in Hsp as [Hds Hsp].
    apply andb_true_iff in Hd as [Hdd Hd].
    simpl. rewrite Hds, (IH Hsp Hd).
    unfold Chr.dot in Hdd. apply negb_true_iff in Hdd. now rewrite Hdd.
Qed.

(** A line that is not white space only: white space, then something
    else. *)
Lemma not_ws_only (l : str) :
  ws_only l = false ->
  exists sp c y, l = sp ++ c :: y /\ forallb Chr.is_space sp = true
                 /\ Chr.is_space c = false.
Proof.
  unfold ws_only. induction l as [|d l IH]; [discriminate|].
  simpl. destruct (Chr.is_space d) eqn:Hd; simpl.
  - intros H. destruct (IH H) as (sp & c & y & -> & Hsp & Hc).
    exists (d :: sp), c, y. simpl. rewrite Hd, Hsp. now repeat split.
  - intros _. exists [], d, l. now repeat split.
Qed.

Lemma no_LF_app (x y : str) : no_LF (x ++ y) <-> no_LF x /\ no_LF y.
Proof. unfold no_LF. rewrite forallb_app. apply andb_true_iff. Qed.

Lemma ws_end_tail (ls : list str) :
  Forall no_LF ls ->
  ws_end (tail_text ls)
  = Some (tail_text (leading ws_only ls), tail_text (after_leading ws_only ls)).
Proof.
  induction 1 as [|l ls Hl _ IH]; [reflexivity|].
  cbn [tail_text flat_map app ws_end leading after_leading].
  fold (tail_text ls). rewrite LF_is_space, Ascii.eqb_refl.
  destruct (ws_only l) eqn:Hw.
  - rewrite (ws_end_app l _ _ _ Hw IH). reflexivity.
  - destruct (not_ws_only l Hw) as (sp & c & y & -> & Hsp & Hc).
    rewrite <- app_assoc. cbn [app].
    apply no_LF_app in Hl as [Hl _].
    rewrite ws_end_none by auto. cbn [flat_map app].
    now rewrite <- app_assoc.
Qed.

Lemma startswith_line (t l : str) (ls : list str) :
  no_LF t -> Str.startswith t (l ++ tail_text ls) = Str.startswith t l.
Proof.
  unfold no_LF. revert l. induction t as [|c t IH]; intros l Ht; [reflexivity|].
  simpl in Ht. apply andb_true_iff in Ht as [Hc Ht].
  destruct l as [|d l].
  - simpl. destruct ls as [|l' ls]; [reflexivity|]. simpl.
    unfold Chr.dot in Hc. apply negb_true_iff in Hc. now rewrite Hc.
  - simpl. now rewrite IH.
Qed.

Lemma header_of_line (l : str) (ls : list str) :
  header_of (l ++ tail_text ls) = header_of l.
Proof.
  unfold header_of, HEADERS. cbn [List.find].
  now rewrite !startswith_line by reflexivity.
Qed.

Lemma header_of_prefix (a t : str) :
  header_of a = Some t -> exists rest, a = t ++ rest.
Proof.
  unfold header_of. intros H. apply find_some in H as [_ H].
  now apply startswith_iff.
Qed.

Lemma skipn_prefix {A} (t x : list A) : skipn (length t) (t ++ x) = x.
Proof. induction t; simpl; auto. Qed.

(** The header pattern at the start of a line. *)
Lemma try_at_line (b l : str) (ls : list str) :
  at_bol true b = true -> no_LF l -> Forall no_LF ls ->
  try_at HELP_HEADERS_RE b (l ++ tail_text ls) false
  = match header_line l with
    | Some t =>
        Some (MS (rev (l ++ tail_text (leading ws_only ls)) ++ b)
                 (tail_text (after_leading ws_only ls)) [(1, t)])
    | None => None
    end.
Proof.
  intros Hb Hl Hls. rewrite try_at_header, Hb, header_of_line.
  unfold header_line.
  destruct (header_of l) as [t|] eqn:Et; [|reflexivity].
  destruct (header_of_prefix _ _ Et) as (rest & ->).
  rewrite <- app_assoc, skipn_prefix.
  rewrite <- (app_nil_r (t ++ rest)) at 1. rewrite <- app_assoc, skipn_prefix, app_nil_r.
  destruct (ws_only rest) eqn:Hw.
  - rewrite (ws_end_app rest _ _ _ Hw (ws_end_tail ls Hls)).
    f_equal. f_equal.
    rewrite !rev_app_distr. now rewrite <- !app_assoc.
  - destruct (not_ws_only rest Hw) as (sp & c & y & -> & Hsp & Hc).
    apply no_LF_app in Hl as [_ Hl]. apply no_LF_app in Hl as [Hl _].
    rewrite <- app_assoc. cbn [app]. now rewrite ws_end_none.
Qed.

Lemma try_at_inside (b a : str) :
  at_bol true b = false -> try_at HELP_HEADERS_RE b a false = None.
Proof. intros H. now rewrite try_at_header, H. Qed.

Lemma try_at_newline (b a : str) :
  try_at HELP_HEADERS_RE b (Chr.LF :: a) false = None.
Proof. rewrite try_at_header. now destruct (at_bol true b). Qed.

Lemma try_at_end (b : str) : try_at HELP_HEADERS_RE b [] false = None.
Proof. rewrite try_at_header. now destruct (at_bol true b). Qed.

(** Inside a line the scanner passes over the characters. *)
Lemma gaps_inside (l x b : str) :
  at_bol true b = false -> no_LF l ->
  gaps HELP_HEADERS_RE b (l ++ x) 0
  = (l ++ fst (gaps HELP_HEADERS_RE (rev l ++ b) x 0),
     snd (gaps HELP_HEADERS_RE (rev l ++ b) x 0)).
Proof.
  revert b. induction l as [|c l IH]; intros b Hb Hl.
  - simpl. now destruct (gaps _ _ _ _).
  - unfold no_LF in Hl. simpl in Hl. apply andb_true_iff in Hl as [Hc Hl].
    cbn [app]. rewrite gaps_pass by now apply try_at_inside.
    rewrite IH; [|unfold Chr.dot in Hc; simpl; now apply negb_true_iff in Hc|exact Hl].
    cbn [fst snd]. simpl. now rewrite <- !app_assoc.
Qed.

Lemma gaps_plain_line (l x b : str) :
  try_at HELP_HEADERS_RE b (l ++ x) false = None -> no_LF l ->
  gaps HELP_HEADERS_RE b (l ++ x) 0
  = (l ++ fst (gaps HELP_HEADERS_RE (rev l ++ b) x 0),
     snd (gaps HELP_HEADERS_RE (rev l ++ b) x 0)).
Proof.
  intros Ht Hl. destruct l as [|c l].
  - simpl. now destruct (gaps _ _ _ _).
  - unfold no_LF in Hl. simpl in Hl. apply andb_true_iff in Hl as [Hc Hl].
    cbn [app] in *. rewrite gaps_pass by assumption.
    rewrite gaps_inside; [|unfold Chr.dot in Hc; simpl; now apply negb_true_iff in Hc|exact Hl].
    cbn [fst snd]. simpl. now rewrite <- !app_assoc.
Qed.

Lemma gaps_match_app (r : re) (b m z : str) (st : mstate) :
  try_at r b (m ++ z) false = Some st -> m <> [] -> bef st = rev m ++ b ->
  gaps r b (m ++ z) 0
  = ([], (mk_mobj b st, fst (gaps r (rev m ++ b) z 0))
         :: snd (gaps r (rev m ++ b) z 0)).
Proof.
  intros Ht Hm Hb. destruct m as [|c y]; [congruence|]. cbn [app] in *.
  assert (Hpos : pos st = S (length y) + length b).
  { unfold pos. rewrite Hb, length_app, length_rev. reflexivity. }
  rewrite (gaps_match _ _ _ _ _ Ht) by lia.
  replace (pos st - length b - 1) with (length y) by lia.
  rewrite gaps_skip. simpl. now rewrite <- !app_assoc.
Qed.

Lemma header_line_inv (l t : str) :
  header_line l = Some t ->
  In t HEADERS /\ exists ws, l = t ++ ws /\ forallb Chr.is_space ws = true.
Proof.
  unfold header_line. destruct (header_of l) as [t'|] eqn:E; [|discriminate].
  destruct (header_of_prefix _ _ E) as (ws & ->).
  rewrite skipn_prefix. destruct (ws_only ws) eqn:Hw; [|discriminate].
  intros [= ->]. split; [|now exists ws].
  unfold header_of in E. now apply find_some in E as [E _].
Qed.

Lemma header_line_intro (t ws : str) :
  In t HEADERS -> forallb Chr.is_space ws = true -> header_line (t ++ ws) = Some t.
Proof.
  intros Hin Hws. unfold header_line.
  assert (E : header_of (t ++ ws) = Some t).
  { unfold HEADERS in Hin. simpl in Hin.
    destruct Hin as [<-|[<-|[<-|[<-|[<-|[<-|[]]]]]]]; reflexivity. }
  rewrite E, skipn_prefix. unfold ws_only. now rewrite Hws.
Qed.

Lemma header_nonempty (l t : str) : header_line l = Some t -> ws_only l = false.
Proof.
  intros H. apply header_line_inv in H as (Hin & ws & -> & _).
  unfold HEADERS in Hin. simpl in Hin.
  destruct Hin as [<-|[<-|[<-|[<-|[<-|[<-|[]]]]]]]; reflexivity.
Qed.

Lemma ws_only_not_header (l : str) : ws_only l = true -> header_line l = None.
Proof.
  intros H. destruct (header_line l) as [t|] eqn:E; [|reflexivity].
  apply header_nonempty in E. congruence.
Qed.

Lemma raw_sections_after (ls : list str) :
  raw_sections (after_leading ws_only ls) = raw_sections ls.
Proof.
  induction ls as [|l ls IH]; [reflexivity|]. simpl.
  destruct (ws_only l) eqn:Hw; [|reflexivity].
  now rewrite ws_only_not_header.
Qed.

Lemma tail_text_split {p : str -> bool} (ls : list str) :
  tail_text ls = tail_text (leading p ls) ++ tail_text (after_leading p ls).
Proof.
  unfold tail_text. induction ls as [|l ls IH]; [reflexivity|]. simpl.
  destruct (p l); [|reflexivity]. simpl. rewrite <- app_assoc.
  now rewrite <- IH.
Qed.

Lemma after_leading_length {A} (p : A -> bool) (l : list A) :
  length (after_leading p l) <= length l.
Proof. induction l as [|x l IH]; simpl; [lia|]. destruct (p x); simpl; lia. Qed.

Lemma after_leading_Forall {A} (P : A -> Prop) (p : A -> bool) (l : list A) :
  Forall P l -> Forall P (after_leading p l).
Proof.
  induction 1 as [|x l Hx Hl IH]; simpl; [constructor|].
  destruct (p x); [assumption|now constructor].
Qed.

Lemma gaps_tail (n : nat) : forall ls b,
  length ls <= n -> Forall no_LF ls ->
  fst (gaps HELP_HEADERS_RE b (tail_text ls) 0) = pre_tail ls
  /\ map named (snd (gaps HELP_HEADERS_RE b (tail_text ls) 0)) = raw_sections ls.
Proof.
  induction n as [|n IH]; intros ls b Hn Hls.
  - destruct ls; [|simpl in Hn; lia]. cbn [tail_text flat_map gaps].
    rewrite try_at_end. split; reflexivity.
  - destruct ls as [|l ls].
    { cbn [tail_text flat_map gaps]. rewrite try_at_end. split; reflexivity. }
    simpl in Hn.
    pose proof (Forall_inv Hls) as Hl. pose proof (Forall_inv_tail Hls) as Hls'.
    cbn [tail_text flat_map app]. fold (tail_text ls).
    rewrite gaps_pass by apply try_at_newline. cbn [fst snd pre_tail raw_sections].
    pose proof (try_at_line (Chr.LF :: b) l ls eq_refl Hl Hls') as Ht.
    unfold is_header.
    destruct (header_line l) as [t|] eqn:Eh.
    + pose proof (header_nonempty _ _ Eh) as Hne.
      rewrite (tail_text_split (p := ws_only) ls), app_assoc in Ht |- *.
      rewrite (gaps_match_app _ _ _ _ _ Ht).
      2:{ intros E. apply app_eq_nil in E as [-> _]. discriminate. }
      2:{ reflexivity. }
      destruct (IH (after_leading ws_only ls)
                  (rev (l ++ tail_text (leading ws_only ls)) ++ Chr.LF :: b))
        as [H1 H2].
      { pose proof (after_leading_length ws_only ls). lia. }
      { now apply after_leading_Forall. }
      cbn [fst snd map]. rewrite H2, raw_sections_after. split; [reflexivity|].
      f_equal. unfold named. cbn [fst snd]. now rewrite H1.
    + rewrite gaps_plain_line by assumption.
      destruct (IH ls (rev l ++ Chr.LF :: b) ltac:(lia) Hls') as [H1 H2].
      cbn [fst snd]. now rewrite H1, H2.
Qed.

(** The scanner on a whole text, line by line. *)
Lemma gaps_lines (lines : list str) :
  Forall no_LF lines ->
  map named (snd (gaps HELP_HEADERS_RE [] (text_of lines) 0)) = raw_sections lines.
Proof.
  intros Hls. destruct lines as [|l ls].
  { cbn [text_of gaps]. now rewrite try_at_end. }
  pose proof (Forall_inv Hls) as Hl. pose proof (Forall_inv_tail Hls) as Hls'.
  cbn [text_of raw_sections].
  pose proof (try_at_line [] l ls eq_refl Hl Hls') as Ht.
  destruct (header_line l) as [t|] eqn:Eh.
  - pose proof (header_nonempty _ _ Eh) as Hne.
    rewrite (tail_text_split (p := ws_only) ls), app_assoc in Ht |- *.
    rewrite (gaps_match_app _ _ _ _ _ Ht).
    2:{ intros E. apply app_eq_nil in E as [-> _]. discriminate. }
    2:{ reflexivity. }
    destruct (gaps_tail (length ls) (after_leading ws_only ls)
                (rev (l ++ tail_text (leading ws_only ls)) ++ []))
      as [H1 H2].
    { apply after_leading_length. }
    { now apply after_leading_Forall. }
    cbn [fst snd map]. rewrite H2, raw_sections_after.
    f_equal. unfold named. cbn [fst snd]. now rewrite H1.
  - rewrite gaps_plain_line by assumption.
    destruct (gaps_tail (length ls) ls (rev l ++ []) (le_n _) Hls') as [H1 H2].
    cbn [fst snd]. exact H2.
Qed.

(** *** The sections of a text, line by line *)

Lemma lstrip_by_all (p : ascii -> bool) (s : str) :
  forallb p s = true -> Str.lstrip_by p s = [].
Proof.
  induction s as [|c s IH]; simpl; [reflexivity|].
  intros H. apply andb_true_iff in H as [-> H]. now apply IH.
Qed.

Lemma strip_by_app_run (p : ascii -> bool) (s t : str) :
  forallb p t = true -> Str.strip_by p (s ++ t) = Str.strip_by p s.
Proof.
  intros Ht. unfold Str.strip_by.
  destruct (lstrip_by_split p s) as (u & E & Hu & Hs).
  rewrite E at 1. rewrite <- app_assoc, lstrip_by_run by assumption.
  destruct (Str.lstrip_by p s) as [|c s'] eqn:El.
  - simpl. now rewrite lstrip_by_all.
  - rewrite lstrip_by_stops by exact Hs. now apply rstrip_by_run.
Qed.

Lemma strip_by_cons (p : ascii -> bool) (c : ascii) (s : str) :
  p c = true -> Str.strip_by p (c :: s) = Str.strip_by p s.
Proof. intros H. unfold Str.strip_by. simpl. now rewrite H. Qed.

Lemma tail_text_join (x : str) (xs : list str) :
  tail_text (x :: xs) = Chr.LF :: Str.join [Chr.LF] (x :: xs).
Proof.
  revert x. induction xs as [|y xs IH]; intros x.
  - simpl. now rewrite app_nil_r.
  - change (tail_text (x :: y :: xs)) with (Chr.LF :: x ++ tail_text (y :: xs)).
    rewrite IH. reflexivity.
Qed.

Lemma pre_tail_leading (ls : list str) :
  pre_tail ls
  = tail_text (leading plain ls)
    ++ match after_leading plain ls with
       | [] => []
       | _ => [Chr.LF]
       end.
Proof.
  induction ls as [|l ls IH]; [reflexivity|].
  cbn [pre_tail leading after_leading]. unfold plain at 1 3.
  destruct (is_header l); cbn [negb]; [reflexivity|].
  rewrite IH. cbn [tail_text flat_map app]. now rewrite <- app_assoc.
Qed.

Lemma strip_pre_tail (ls : list str) :
  Str.strip_chars [Chr.LF] (pre_tail ls)
  = Str.strip_chars [Chr.LF] (Str.join [Chr.LF] (leading plain ls)).
Proof.
  rewrite pre_tail_leading. unfold Str.strip_chars.
  rewrite strip_by_app_run by (destruct (after_leading plain ls); reflexivity).
  destruct (leading plain ls) as [|x xs]; [reflexivity|].
  rewrite tail_text_join. now apply strip_by_cons.
Qed.

Lemma raw_sections_stripped (lines : list str) :
  map (fun tb => (fst tb, Str.strip_chars [Chr.LF] (snd tb))) (raw_sections lines)
  = sections_of lines.
Proof.
  induction lines as [|l ls IH]; [reflexivity|]. simpl.
  destruct (header_line l); [|exact IH].
  simpl. rewrite IH. f_equal. f_equal. apply strip_pre_tail.
Qed.

(** The section splitter is the line-by-line reading. *)
Lemma split_sections_lines (text : str) :
  _split_sections text
  = fold_left store (sections_of (Str.split_on Chr.LF text)) ∅.
Proof.
  rewrite split_sections_gaps.
  destruct (split_on_text text) as (Et & Hls & _).
  rewrite <- Et at 1. rewrite <- raw_sections_stripped, <- gaps_lines by assumption.
  generalize (snd (gaps HELP_HEADERS_RE [] (text_of (Str.split_on Chr.LF text)) 0)).
  generalize (∅ : gmap str str).
  intros acc l. revert acc. induction l as [|mb l IH]; intros acc; [reflexivity|].
  simpl. now rewrite IH.
Qed.

Lemma sections_of_plain (xs zs : list str) :
  Forall (fun l => header_line l = None) xs ->
  sections_of (xs ++ zs) = sections_of zs.
Proof.
  induction 1 as [|x xs Hx _ IH]; [reflexivity|]. simpl. now rewrite Hx.
Qed.

Lemma sections_of_app (xs zs : list str) :
  exists s1, sections_of (xs ++ zs) = s1 ++ sections_of zs.
Proof.
  induction xs as [|x xs (s1 & IH)]; [now exists []|]. simpl. rewrite IH.
  destruct (header_line x) as [t|]; [|now exists s1].
  now exists ((t, section_body (xs ++ zs)) :: s1).
Qed.

Lemma sections_of_keys (lines : list str) (t body : str) :
  In (t, body) (sections_of lines) ->
  exists l, In l lines /\ header_line l = Some t.
Proof.
  induction lines as [|l ls IH]; [intros []|]. simpl.
  destruct (header_line l) as [t'|] eqn:E.
  - intros [[= -> _]|H].
    + exists l. now split; [left|].
    + destruct (IH H) as (l' & Hin & Hl'). exists l'. split; [now right|assumption].
  - intros H. destruct (IH H) as (l' & Hin & Hl'). exists l'.
    split; [now right|assumption].
Qed.

Lemma fold_store_absent (secs : list (str * str)) (acc : gmap str str) (k : str) :
  (forall body, ~ In (k, body) secs) ->
  fold_left store secs acc !! k = acc !! k.
Proof.
  revert acc. induction secs as [|[t b] secs IH]; intros acc H; [reflexivity|].
  simpl. rewrite IH.
  - unfold store. simpl. apply lookup_insert_ne. intros ->. apply (H b). now left.
  - intros body Hin. apply (H body). now right.
Qed.

Lemma fold_store_last (s1 s2 : list (str * str)) (acc : gmap str str)
    (k v : str) :
  (forall body, ~ In (k, body) s2) ->
  fold_left store (s1 ++ (k, v) :: s2) acc !! k = Some v.
Proof.
  intros H. rewrite fold_left_app. simpl. rewrite fold_store_absent by assumption.
  unfold store. simpl. apply lookup_insert_eq.
Qed.

Lemma split_on_app (d : ascii) (x y : str) :
  Str.split_on d (x ++ d :: y) = Str.split_on d x ++ Str.split_on d y.
Proof.
  induction x as [|c x IH]; simpl.
  - now rewrite Ascii.eqb_refl.
  - destruct (Ascii.eqb c d); [now rewrite IH|].
    rewrite IH. destruct (Str.split_on d x) as [|l ls] eqn:E; [|reflexivity].
    exfalso. clear -E. destruct x as [|e x]; simpl in E; [discriminate|].
    destruct (Ascii.eqb e d); [discriminate|].
    destruct (Str.split_on d x); discriminate.
Qed.

(** C6 (amended). The splitter is a reading of the text line by line, the
    lines ending at newlines.  A header line is one of the six tokens
    followed by nothing but white space.  A header whose last header line
    is followed by the lines [after] maps to their body: the
    white-space-only lines directly after the header line are left out,
    the lines up to the next header line are joined, and the newlines at
    both ends are removed.  A header without a header line has no
    entry. *)
Theorem split_sections_spec (text : str) :
  _split_sections text
  = fold_left (fun acc tb => <[ fst tb := snd tb ]> acc)
      (sections_of (Str.split_on Chr.LF text)) ∅
  /\ (forall l t : str,
        header_line l = Some t <->
        In t HEADERS /\
        exists ws, l = t ++ ws /\ forallb Chr.is_space ws = true)
  /\ (forall (before : list str) (l : str) (after : list str) (t : str),
        Str.split_on Chr.LF text = before ++ l :: after ->
        header_line l = Some t ->
        (forall l', In l' after -> header_line l' <> Some t) ->
        _split_sections text !! t = Some (section_body after))
  /\ (forall t : str,
        (forall l, In l (Str.split_on Chr.LF text) -> header_line l <> Some t) ->
        _split_sections text !! t = None).
Proof.
  split; [apply split_sections_lines|]. split; [|split].
  - intros l t. split; [apply header_line_inv|].
    intros (Hin & ws & -> & Hws). now apply header_line_intro.
  - intros before l after t E Hl Hafter. rewrite split_sections_lines, E.
    destruct (sections_of_app before (l :: after)) as (s1 & ->).
    simpl. rewrite Hl. apply fold_store_last.
    intros body Hin. apply sections_of_keys in Hin as (l' & Hin & Hl').
    exact (Hafter l' Hin Hl').
  - intros t H. rewrite split_sections_lines, fold_store_absent.
    + apply lookup_empty.
    + intros body Hin. apply sections_of_keys in Hin as (l' & Hin & Hl').
      exact (H l' Hin Hl').
Qed.

(** A white-space-only line at the end of a section is kept, and one right
    after the header line is removed: the trimming is neither that of the
    empty lines nor that of the white-space-only lines at both ends. *)
Lemma split_sections_blank_lines_counterexample :
  _split_sections (text_lines ["NAME"; "foo"; " "; "SYNOPSIS"; "bar"]) !! L "NAME"
  = Some (text_lines ["foo"; " "])
  /\ _split_sections (text_lines ["NAME"; " "; "foo"]) !! L "NAME"
     = Some (L "foo").
Proof. split; vm_compute; reflexivity. Qed.

(** C10. A text none of whose lines is a header line has no sections, its
    page yields no call specification, and attaching it changes nothing.
    Placed before the lines of another text, it leaves the sections of that
    text as they are. *)
Theorem preamble_discarded (exec_accepts : str -> bool) (pre rest : str)
    (cls : gmap str member)
    (Hpre : Forall (fun l => header_line l = None) (Str.split_on Chr.LF pre)) :
  _split_sections pre = ∅
  /\ _split_sections (pre ++ Chr.LF :: rest) = _split_sections rest
  /\ page_specs pre = Ok []
  /\ _attach_dynamic_methods exec_accepts pre cls = (cls, Ok tt).
Proof.
  assert (E : _split_sections pre = ∅).
  { rewrite split_sections_lines.
    rewrite <- (app_nil_r (Str.split_on Chr.LF pre)).
    now rewrite sections_of_plain. }
  assert (Hp : page_specs pre = Ok []).
  { unfold page_specs. rewrite E, !lookup_empty. reflexivity. }
  split; [exact E|]. split; [|split; [exact Hp|]].
  - rewrite !split_sections_lines, split_on_app. now rewrite sections_of_plain.
  - unfold _attach_dynamic_methods. rewrite Hp. reflexivity.
Qed.

Lemma preamble_discarded_witness :
  _split_sections (text_lines ["cdo 2.4.0"; "  NAME"; "name"; "NAME"; "    sinfo - info"])
  = _split_sections (text_lines ["NAME"; "    sinfo - info"]).
Proof.
  refine (proj1 (proj2 (preamble_discarded (fun _ => true)
            (text_lines ["cdo 2.4.0"; "  NAME"; "name"])
            (text_lines ["NAME"; "    sinfo - info"]) ∅ _))).
  repeat constructor.
Defined.

Lemma split_sections_spec_witness :
  _split_sections
    (text_lines ["NAME"; "old"; "NAME  "; " "; "    sinfo - info"; ""; "SYNOPSIS"; "x"])
    !! L "NAME"
  = Some (section_body [L " "; L "    sinfo - info"; L ""; L "SYNOPSIS"; L "x"]).
Proof.
  refine (proj1 (proj2 (proj2 (split_sections_spec _)))
            [L "NAME"; L "old"] (L "NAME  ")
            [L " "; L "    sinfo - info"; L ""; L "SYNOPSIS"; L "x"] (L "NAME")
            _ _ _).
  - reflexivity.
  - reflexivity.
  - intros l' [<-|[<-|[<-|[<-|[<-|[]]]]]]; discriminate.
Defined.

Lemma execute_spec_witness :
  execute (fun _ => Completed 0 [Byte.x6f; Byte.x6b] []) Utf8.decode [L "cdo"]
  = Ok (L "ok").
Proof.
  apply (proj1 (execute_spec (fun _ => Completed 0 [Byte.x6f; Byte.x6b] [])
                  Utf8.decode [L "cdo"])).
  split; reflexivity.
Defined.

(** ** The operator listing *)

Section RepLazyFirst.
Context {R : Type}.
Variable p : ascii -> bool.
Variable k : str -> str -> option R.

Lemma rep_lazy_first b x rest r :
  forallb p x = true ->
  (forall y z, x = y ++ z -> z <> [] -> k (rev y ++ b) (z ++ rest) = None) ->
  k (rev x ++ b) rest = Some r ->
  rep_lazy p k 0 None b (x ++ rest) = Some r.
Proof.
  revert b. induction x as [|c x IH]; intros b Hp Hno Hk.
  - simpl in *. destruct rest; simpl; now rewrite Hk.
  - simpl in Hp. apply andb_true_iff in Hp as [Hc Hp].
    cbn [app rep_lazy Nat.eqb more andb pred option_map]. rewrite Hc.
    pose proof (Hno [] (c :: x) eq_refl ltac:(discriminate)) as H0.
    simpl in H0. rewrite H0. cbn [orelse].
    apply IH; auto.
    + intros y z E Hz. specialize (Hno (c :: y) z). simpl in Hno.
      rewrite <- app_assoc in Hno. apply Hno; [now rewrite E|assumption].
    + simpl in Hk. now rewrite <- app_assoc in Hk.
Qed.

End RepLazyFirst.

Lemma dash_digit_not_space c : dash_digit c = true -> Chr.is_space c = false.
Proof.
  by_cases_on_ascii (fun c => implb (dash_digit c) (negb (Chr.is_space c))).
  specialize (H c). destruct (dash_digit c), (Chr.is_space c); simpl in *; congruence.
Qed.

Lemma forallb_impl (p q : ascii -> bool) (s : str) :
  (forall c, p c = true -> q c = true) -> forallb p s = true -> forallb q s = true.
Proof.
  intros H. induction s as [|c s IH]; simpl; [reflexivity|].
  intros Hs. apply andb_true_iff in Hs as [Hc Hs]. now rewrite (H c Hc), IH.
Qed.

(** The end of the pattern on the counts. *)
Lemma line_tail_match (b ws i o : str) (cs : list (nat * str))
    (k : mstate -> option mstate) (r : mstate) :
  forallb Chr.is_space ws = true ->
  i <> [] -> forallb dash_digit i = true ->
  o <> [] -> forallb dash_digit o = true ->
  k (MS (rev (ws ++ counts_text i o) ++ b) [] ((4, o) :: (3, i) :: cs)) = Some r ->
  bt LINE_TAIL (MS b (ws ++ counts_text i o) cs) k = Some r.
Proof.
  intros Hws Hi0 Hi Ho0 Ho Ek. unfold LINE_TAIL, counts_text.
  cbn [cats bt at_bol bef aft caps star plus].
  eapply rep_greedy_max; [exact Hws|reflexivity|lia|].
  cbn beta. change (Chr.lit "(" "(") with true. cbv iota.
  eapply rep_greedy_max; [exact Hi|reflexivity|now apply length_pos|].
  cbn beta. change (Chr.lit "|" "|") with true. cbv iota.
  eapply rep_greedy_max; [exact Ho|reflexivity|now apply length_pos|].
  cbn beta. cbn [aft bef caps]. change (Chr.lit ")" ")") with true. cbv iota.
  cbn [rep_greedy Nat.eqb at_eol aft].
  rewrite <- Ek. f_equal. rewrite !taken_app. f_equal.
  unfold counts_text.
  repeat (rewrite ?rev_app_distr; simpl; rewrite <- ?app_assoc).
  reflexivity.
Qed.

Lemma line_tail_sound (st : mstate) (k : mstate -> option mstate) (res : mstate) :
  bt LINE_TAIL st k = Some res ->
  exists ws a b t,
    aft st = ws ++ counts_text a b ++ t /\
    forallb Chr.is_space ws = true /\
    forallb dash_digit a = true /\ forallb dash_digit b = true /\
    forallb Chr.is_space t = true /\ a <> [] /\ b <> [].
Proof.
  unfold LINE_TAIL. cbn [cats bt at_bol bef aft caps star plus]. intros H.
  apply rep_greedy_sound in H as (ws & z0 & E0 & Hws & _ & _ & H). cbn beta in H.
  cbn [aft] in H. destruct z0 as [|c0 z0]; [discriminate|].
  unfold Chr.lit at 1 in H. destruct (Ascii.eqb_spec c0 "(") as [->|]; [|discriminate].
  apply rep_greedy_sound in H as (a & z1 & E1 & Ha & Ha0 & _ & H). cbn beta in H.
  cbn [aft] in H. destruct z1 as [|c1 z1]; [discriminate|].
  unfold Chr.lit at 1 in H. destruct (Ascii.eqb_spec c1 "|") as [->|]; [|discriminate].
  apply rep_greedy_sound in H as (b & z2 & E2 & Hb & Hb0 & _ & H). cbn beta in H.
  cbn [aft] in H. destruct z2 as [|c2 z2]; [discriminate|].
  unfold Chr.lit at 1 in H. destruct (Ascii.eqb_spec c2 ")") as [->|]; [|discriminate].
  apply rep_greedy_sound in H as (ws2 & z3 & E3 & Hws2 & _ & _ & H). cbn beta in H.
  cbn [aft] in H. destruct (at_eol false z3) eqn:Heol; [|discriminate].
  exists ws, a, b, (ws2 ++ z3). subst. unfold counts_text.
  assert (Ha1 : a <> []) by (destruct a; [simpl in Ha0; lia|discriminate]).
  assert (Hb1 : b <> []) by (destruct b; [simpl in Hb0; lia|discriminate]).
  repeat split; auto.
  - rewrite E0. simpl. repeat (rewrite <- app_assoc; simpl). reflexivity.
  - rewrite forallb_app, Hws2. simpl.
    destruct z3 as [|c z3]; [reflexivity|]. simpl in Heol.
    apply andb_true_iff in Heol as [Hc Hz]. apply Ascii.eqb_eq in Hc as ->.
    destruct z3; [reflexivity|discriminate].
Qed.

Lemma head_unique (P : ascii -> bool) (r r' : str) (s s' : ascii) (x x' : str) :
  r ++ s :: x = r' ++ s' :: x' ->
  forallb P r = true -> forallb P r' = true -> P s = false -> P s' = false ->
  r = r' /\ s = s' /\ x = x'.
Proof.
  revert r'. induction r as [|c r IH]; intros r' E Hr Hr' Hs Hs'.
  - destruct r' as [|c' r']; simpl in E.
    + now injection E as -> ->.
    + injection E as -> _. simpl in Hr'. apply andb_true_iff in Hr' as [Hc _].
      congruence.
  - simpl in Hr. apply andb_true_iff in Hr as [Hc Hr].
    destruct r' as [|c' r']; simpl in E.
    + injection E as -> _. congruence.
    + injection E as -> E. simpl in Hr'. apply andb_true_iff in Hr' as [_ Hr'].
      destruct (IH r' E Hr Hr' Hs Hs') as (-> & -> & ->). now repeat split.
Qed.

Lemma tail_unique (P : ascii -> bool) (x x' : str) (s s' : ascii) (r r' : str) :
  x ++ s :: r = x' ++ s' :: r' ->
  forallb P r = true -> forallb P r' = true -> P s = false -> P s' = false ->
  x = x' /\ s = s' /\ r = r'.
Proof.
  intros E Hr Hr' Hs Hs'.
  apply (f_equal (@rev _)) in E. rewrite !rev_app_distr in E. simpl in E.
  rewrite <- !app_assoc in E. simpl in E.
  apply (head_unique P) in E as (E1 & -> & E2); auto using forallb_rev.
  - apply (f_equal (@rev _)) in E1, E2. rewrite !rev_involutive in E1, E2.
    now subst.
  - now rewrite forallb_rev.
  - now rewrite forallb_rev.
Qed.

(** The counts are read off the end of the line in one way only. *)
Lemma counts_unique (pre pre' i o a b t : str) :
  pre ++ counts_text i o = pre' ++ counts_text a b ++ t ->
  forallb dash_digit i = true -> forallb dash_digit o = true ->
  forallb dash_digit a = true -> forallb dash_digit b = true ->
  forallb Chr.is_space t = true ->
  pre = pre' /\ i = a /\ o = b /\ t = [].
Proof.
  unfold counts_text. intros E Hi Ho Ha Hb Ht.
  assert (E1 : (pre ++ "("%char :: i ++ "|"%char :: o) ++ ")"%char :: []
               = (pre' ++ "("%char :: a ++ "|"%char :: b) ++ ")"%char :: t).
  { repeat (rewrite <- app_assoc; simpl).
    simpl in E. repeat (rewrite <- app_assoc in E; simpl in E).
    exact E. }
  apply (tail_unique Chr.is_space) in E1 as (E1 & _ & <-); auto.
  assert (E2 : (pre ++ "("%char :: i) ++ "|"%char :: o
               = (pre' ++ "("%char :: a) ++ "|"%char :: b).
  { repeat (rewrite <- app_assoc; simpl). exact E1. }
  apply (tail_unique dash_digit) in E2 as (E2 & _ & ->); auto.
  apply (tail_unique dash_digit) in E2 as (-> & _ & ->); auto.
Qed.

Lemma LINE_RE_parts :
  LINE_RE = Cat (Bol false) (Cat (Grp 1 (plus non_space)) LINE_DESC).
Proof. reflexivity. Qed.

Lemma line_desc_skip (st : mstate) (k : mstate -> option mstate) :
  stops Chr.is_space (aft st) ->
  bt LINE_DESC st k = bt LINE_TAIL st k.
Proof.
  intros Hs. unfold LINE_DESC, opt, plus. cbn [bt].
  destruct (aft st) as [|c a] eqn:Ea; cbn [rep_greedy Nat.eqb more andb orelse].
  - reflexivity.
  - simpl in Hs. now rewrite Hs.
Qed.

Lemma counts_not_space (i o : str) :
  forallb dash_digit i = true -> forallb dash_digit o = true ->
  forallb non_space (counts_text i o) = true.
Proof.
  intros Hi Ho. unfold counts_text.
  repeat (rewrite forallb_app || cbn [forallb]).
  assert (H : forall s, forallb dash_digit s = true -> forallb non_space s = true).
  { intros s. apply forallb_impl. intros c Hc. unfold non_space, Chr.non.
    now rewrite dash_digit_not_space. }
  now rewrite (H i Hi), (H o Ho).
Qed.

Lemma stops_non_space (z : str) :
  forallb non_space z = true -> stops Chr.is_space z.
Proof.
  destruct z as [|c z]; [reflexivity|]. simpl. intros H.
  apply andb_true_iff in H as [H _]. unfold non_space, Chr.non in H.
  now apply negb_true_iff in H.
Qed.

(** No other end of the line can be read as the counts. *)
Lemma line_tail_only (b pre i o : str) (cs : list (nat * str))
    (k : mstate -> option mstate) :
  forallb dash_digit i = true -> forallb dash_digit o = true ->
  forallb Chr.is_space pre = false ->
  bt LINE_TAIL (MS b (pre ++ counts_text i o) cs) k = None.
Proof.
  intros Hi Ho Hpre.
  destruct (bt LINE_TAIL _ k) as [res|] eqn:E; [|reflexivity].
  apply line_tail_sound in E as (ws & a & c & t & E & Hws & Ha & Hc & Ht & _).
  cbn [aft] in E.
  apply counts_unique in E as (-> & _); auto. congruence.
Qed.

(** A line without description: name and counts. *)
Lemma listing_try_bare (name i o : str) :
  name <> [] -> forallb non_space name = true ->
  i <> [] -> forallb dash_digit i = true ->
  o <> [] -> forallb dash_digit o = true ->
  try_at LINE_RE [] (name ++ counts_text i o) false
  = Some (MS (rev (name ++ counts_text i o)) [] [(4, o); (3, i); (1, name)]).
Proof.
  intros Hn0 Hn Hi0 Hi Ho0 Ho.
  rewrite LINE_RE_parts. unfold try_at. cbn [bt at_bol bef aft caps plus].
  rewrite <- (app_nil_r (name ++ counts_text i o)) at 1.
  eapply rep_greedy_back.
  - rewrite forallb_app, Hn. now apply counts_not_space.
  - exact I.
  - now apply length_pos.
  - intros y z E Hy. cbn beta. rewrite !app_nil_r.
    assert (Hz : forallb non_space z = true).
    { pose proof (counts_not_space i o Hi Ho) as H. rewrite E in H.
      now apply forallb_suffix in H. }
    rewrite line_desc_skip by (cbn [aft]; now apply stops_non_space).
    destruct (bt LINE_TAIL _ _) as [res|] eqn:Eb; [|reflexivity].
    exfalso. apply line_tail_sound in Eb as (ws & a & c & t & Ez & Hws & Ha & Hc & Ht & _).
    cbn [aft] in Ez.
    assert (E' : [] ++ counts_text i o = (y ++ ws) ++ counts_text a c ++ t).
    { simpl. rewrite E, Ez. now rewrite <- app_assoc. }
    apply counts_unique in E' as (E' & _); auto.
    symmetry in E'. apply app_eq_nil in E' as [-> _]. congruence.
  - cbn beta. rewrite !app_nil_r.
    rewrite line_desc_skip by reflexivity.
    apply (line_tail_match (rev name) [] i o); auto.
    cbn [pos bef app Nat.eqb andb]. unfold pos. cbn [bef andb].
    now rewrite taken_app, rev_app_distr.
Qed.

Lemma rstrip_by_no_run (p : ascii -> bool) (y z : str) :
  Str.rstrip_by p (y ++ z) = y ++ z -> forallb p z = true -> z = [].
Proof.
  intros E Hz. rewrite rstrip_by_run in E by exact Hz.
  pose proof (rstrip_by_length p y) as Hl. rewrite E, length_app in Hl.
  destruct z; [reflexivity|simpl in Hl; lia].
Qed.

Lemma stops_app_counts (x i o : str) :
  stops Chr.is_space x -> stops Chr.is_space (x ++ counts_text i o).
Proof. destruct x; [reflexivity|exact id]. Qed.

(** A line with white space after the name: name, description and counts. *)
Lemma listing_try_desc (name ws d ws2 i o : str) :
  name <> [] -> forallb non_space name = true ->
  ws <> [] -> forallb Chr.is_space ws = true ->
  forallb Chr.dot d = true -> Str.rstrip d = d ->
  stops Chr.is_space (d ++ ws2) ->
  forallb Chr.is_space ws2 = true ->
  i <> [] -> forallb dash_digit i = true ->
  o <> [] -> forallb dash_digit o = true ->
  try_at LINE_RE [] (name ++ ws ++ d ++ ws2 ++ counts_text i o) false
  = Some (MS (rev (name ++ ws ++ d ++ ws2 ++ counts_text i o)) []
             [(4, o); (3, i); (2, d); (1, name)]).
Proof.
  intros Hn0 Hn Hw0 Hw Hd Hdr Hst Hw2 Hi0 Hi Ho0 Ho.
  rewrite LINE_RE_parts. unfold try_at. cbn [bt at_bol bef aft caps plus].
  eapply rep_greedy_max; [exact Hn| |now apply length_pos|].
  { destruct ws as [|c ws]; [congruence|]. simpl in *.
    apply andb_true_iff in Hw as [Hc _]. unfold non_space, Chr.non. now rewrite Hc. }
  cbn beta. rewrite taken_app, app_nil_r.
  unfold LINE_DESC, opt. cbn [bt plus star_lazy aft bef caps].
  match goal with
  | |- orelse ?x _ = Some ?r => assert (E : x = Some r)
  end.
  2:{ now rewrite E. }
  eapply rep_greedy_max; [exact Hw| |now apply length_pos|].
  { rewrite app_assoc. now apply stops_app_counts. }
  cbn beta. cbn [aft bef caps].
  eapply rep_lazy_first; [exact Hd| |].
  - intros y z E Hz. cbn beta.
    destruct (bt LINE_TAIL _ _) as [res|] eqn:Eb; [|reflexivity].
    exfalso. apply line_tail_sound in Eb as (ws' & a & c & t & Ez & Hws' & Ha & Hc & Ht & _).
    cbn [aft] in Ez.
    assert (E' : (z ++ ws2) ++ counts_text i o = ws' ++ counts_text a c ++ t).
    { now rewrite <- app_assoc. }
    apply counts_unique in E' as (E' & _); auto.
    rewrite <- E', forallb_app in Hws'. apply andb_true_iff in Hws' as [Hz' _].
    rewrite E in Hdr. apply rstrip_by_no_run in Hdr; auto.
  - cbn beta. apply line_tail_match; auto.
    cbn [pos bef app Nat.eqb andb]. unfold pos. cbn [bef andb].
    rewrite taken_app.
    repeat (rewrite ?rev_app_distr; simpl; rewrite <- ?app_assoc).
    reflexivity.
Qed.

Lemma digits_run (ds : str) (acc : Z) (seen : bool) :
  ds <> [] -> forallb Chr.is_digit ds = true ->
  Str.digits acc seen ds
  = Some (fold_left (fun acc c => (10 * acc + Z.of_nat (Chr.code c - 48))%Z) ds acc).
Proof.
  revert acc seen. induction ds as [|c ds IH]; intros acc seen Hne H; [congruence|].
  simpl in H. apply andb_true_iff in H as [Hc H]. cbn [Str.digits fold_left].
  rewrite Hc. destruct ds as [|d ds]; [reflexivity|]. now apply IH.
Qed.

Lemma digit_not_sign c :
  Chr.is_digit c = true -> Ascii.eqb c "-" = false /\ Ascii.eqb c "+" = false.
Proof.
  by_cases_on_ascii (fun c => implb (Chr.is_digit c)
                                (negb (Ascii.eqb c "-") && negb (Ascii.eqb c "+"))).
  specialize (H c). intros Hc. rewrite Hc in H. simpl in H.
  apply andb_true_iff in H as [H1 H2].
  now apply negb_true_iff in H1, H2.
Qed.

Lemma digit_dash_digit c : Chr.is_digit c = true -> dash_digit c = true.
Proof. unfold dash_digit. intros ->. apply orb_true_r. Qed.

Lemma number_dash_digit neg ds :
  forallb Chr.is_digit ds = true -> forallb dash_digit (number neg ds) = true.
Proof.
  intros H. apply (forallb_impl _ _ _ digit_dash_digit) in H.
  destruct neg; simpl; [|exact H]. exact H.
Qed.

Lemma number_nonempty neg ds : ds <> [] -> number neg ds <> [].
Proof. destruct neg; simpl; [discriminate|auto]. Qed.

Lemma filter_digits (ds : str) :
  forallb Chr.is_digit ds = true -> List.filter Chr.is_digit ds = ds.
Proof.
  induction ds as [|c ds IH]; simpl; [reflexivity|].
  intros H. apply andb_true_iff in H as [-> H]. now rewrite IH.
Qed.

(** [int] on a printed count. *)
Lemma int_number (neg : bool) (ds : str) :
  ds <> [] -> forallb Chr.is_digit ds = true ->
  length ds <= Str.max_str_digits ->
  Str.int (number neg ds) = Ok (value neg ds).
Proof.
  intros Hne Hd Hlen. unfold Str.int.
  rewrite strip_no_space.
  2:{ apply (forallb_impl dash_digit); [|now apply number_dash_digit].
      intros c Hc. unfold Chr.non. now rewrite dash_digit_not_space. }
  assert (Hf : List.filter Chr.is_digit (number neg ds) = ds).
  { destruct neg; simpl; now rewrite filter_digits. }
  rewrite Hf. apply Nat.ltb_ge in Hlen. 
  destruct neg; cbn [number value].
  - cbn [Ascii.eqb Bool.eqb]. rewrite (digits_run ds) by assumption.
    cbn [option_map]. now rewrite Hlen.
  - pose proof (digits_run ds 0%Z false Hne Hd) as Er.
    destruct ds as [|c t]; [congruence|].
    assert (Hc : Chr.is_digit c = true).
    { simpl in Hd. now apply andb_true_iff in Hd as [Hc _]. }
    apply digit_not_sign in Hc as [-> ->].
    rewrite Er. now rewrite Hlen.
Qed.







Lemma rstrip_counts (pre i o t : str) :
  forallb Chr.is_space t = true ->
  Str.rstrip (pre ++ counts_text i o ++ t) = pre ++ counts_text i o.
Proof.
  intros Ht. unfold Str.rstrip. rewrite !app_assoc. rewrite rstrip_by_run by exact Ht.
  unfold counts_text.
  replace (pre ++ "("%char :: i ++ "|"%char :: o ++ [")"%char])
    with ((pre ++ "("%char :: i ++ "|"%char :: o) ++ [")"%char]).
  - now apply rstrip_by_last.
  - repeat (rewrite <- app_assoc; simpl). reflexivity.
Qed.

Lemma counts_nonempty (pre i o : str) : nonempty (pre ++ counts_text i o) = true.
Proof. destruct pre; reflexivity. Qed.

Section WellFormed.
Variables (name : str) (neg_in neg_out : bool) (din dout : str) (t : str).
Hypothesis name_nonempty : name <> [].
Hypothesis name_no_space : forallb non_space name = true.
Hypothesis din_nonempty : din <> [].
Hypothesis din_digits : forallb Chr.is_digit din = true.
Hypothesis din_length : length din <= Str.max_str_digits.
Hypothesis dout_nonempty : dout <> [].
Hypothesis dout_digits : forallb Chr.is_digit dout = true.
Hypothesis dout_length : length dout <= Str.max_str_digits.
Hypothesis t_space : forallb Chr.is_space t = true.

Local Abbreviation counts :=
  (counts_text (number neg_in din) (number neg_out dout)).

(** A well-formed line without description yields the name and the two
    counts. *)
Lemma listing_line_plain (ws : str) :
  forallb Chr.is_space ws = true ->
  listing_line (name ++ ws ++ counts ++ t)
  = Ok (Some (Row name None (value neg_in din) (value neg_out dout) false None)).
Proof.
  intros Hws. unfold listing_line.
  replace (name ++ ws ++ counts ++ t) with ((name ++ ws) ++ counts ++ t)
    by now rewrite <- app_assoc.
  rewrite rstrip_counts by exact t_space. rewrite counts_nonempty. cbn [negb].
  unfold py_match. destruct ws as [|c ws'] eqn:Ews.
  - rewrite app_nil_r. rewrite listing_try_bare;
      auto using number_nonempty, number_dash_digit.
    cbn. rewrite !int_number by assumption. reflexivity.
  - rewrite <- Ews in *.
    pose proof (listing_try_desc name ws [] [] (number neg_in din) (number neg_out dout)) as E.
    simpl in E. rewrite <- app_assoc. rewrite E;
      auto using number_nonempty, number_dash_digit.
    + cbn. rewrite !int_number by assumption. reflexivity.
    + rewrite Ews. discriminate.
Qed.



End WellFormed.

Lemma line_re_split (st : mstate) (k : mstate -> option mstate) :
  bt LINE_RE st k = bt LINE_HEAD st (fun st' => bt LINE_TAIL st' k).
Proof. reflexivity. Qed.

(** No line matches the listing pattern unless it ends in two counts in
    parentheses. *)
Lemma line_re_sound (line : str) (m : mobj) :
  py_match LINE_RE line = Some m ->
  exists pre i o t,
    line = pre ++ counts_text i o ++ t /\
    i <> [] /\ forallb dash_digit i = true /\
    o <> [] /\ forallb dash_digit o = true /\
    forallb Chr.is_space t = true.
Proof.
  unfold py_match, try_at. intros H.
  destruct (bt LINE_RE _ _) as [st|] eqn:E; [clear H|discriminate].
  rewrite line_re_split in E.
  apply bt_sound in E as (st' & (y & Ey & _) & E).
  apply line_tail_sound in E as (ws & a & b & t & Ea & Hws & Ha & Hb & Ht & Ha0 & Hb0).
  cbn [aft] in Ey. exists (y ++ ws), a, b, t. repeat split; auto.
  now rewrite Ey, Ea, <- app_assoc.
Qed.

(** A line that does not end in two counts in parentheses is skipped. *)
Lemma listing_line_skipped (raw_line : str) :
  (forall pre i o t,
     i <> [] -> forallb dash_digit i = true ->
     o <> [] -> forallb dash_digit o = true ->
     forallb Chr.is_space t = true ->
     raw_line <> pre ++ counts_text i o ++ t) ->
  listing_line raw_line = Ok None.
Proof.
  intros Hno. unfold listing_line.
  destruct (negb (nonempty (Str.rstrip raw_line))); [reflexivity|].
  destruct (py_match LINE_RE (Str.rstrip raw_line)) as [m|] eqn:E; [|reflexivity].
  exfalso. apply line_re_sound in E as (pre & i & o & t & E & Hi0 & Hi & Ho0 & Ho & Ht).
  destruct (rstrip_by_split Chr.is_space raw_line) as (t' & E' & Ht' & _).
  apply (Hno pre i o (t ++ t')); auto.
  - now rewrite forallb_app, Ht, Ht'.
  - rewrite E' at 1. unfold Str.rstrip in E. rewrite E.
    repeat (rewrite <- app_assoc; simpl). reflexivity.
Qed.

(** C5. The pattern of a listing line admits counts that are not integers
    ([[-\d]+] is any mix of digits and minus signs); [int] rejects them, so
    such a line is not skipped: it ends the whole parse with a
    [ValueError], and the rows collected so far are lost.  A line outside
    the pattern is skipped. *)
Theorem listing_non_integer_count_raises :
  py_match LINE_RE (L "foo (-|1)") <> None
  /\ Str.int (L "-") = Raise ValueError
  /\ listing_line (L "foo (-|1)") = Raise ValueError
  /\ listing_rows
       (unlines [L "abs   Absolute value (1|1)"; L "foo (-|1)"])
     = Raise ValueError
  /\ listing_rows
       (unlines [L "abs   Absolute value (1|1)"; L "foo bar"])
     = Ok [Row (L "abs") (Some (L "Absolute value")) 1 1 false None]
  /\ (forall sort_values,
        parse_cdo_operator_listing sort_values
          (unlines [L "abs   Absolute value (1|1)"; L "foo (-|1)"])
        = Raise ValueError)
  /\ (forall sort_values,
        parse_cdo_operator_listing sort_values
          (unlines [L "abs   Absolute value (1|1)"; L "foo bar"])
        = Ok (sort_values
                [Row (L "abs") (Some (L "Absolute value")) 1 1 false None])).
Proof.
  repeat split; try reflexivity. vm_compute. discriminate.
Qed.

Example listing_alias :
  listing_rows
    (unlines [L "sinfov    --> sinfon (-1|0)  "; L ""; L "copy Copy datasets (-1|1)"])
  = Ok [Row (L "sinfov") (Some (L "--> sinfon")) (-1) 0 true (Some (L "sinfon"));
        Row (L "copy") (Some (L "Copy datasets")) (-1) 1 false None].
Proof. reflexivity. Qed.


(** * Further properties of the two modules *)

(** ** Lines *)

Lemma splitlines_single_lines (s : str) : Forall single_line (Str.splitlines s).
Proof.
  assert (H : forall n s, length s <= n -> Forall single_line (Str.splitlines s)).
  { clear s. induction n as [|n IH]; intros s Hn.
    - destruct s; [constructor|simpl in Hn; lia].
    - destruct s as [|c s]; [constructor|]. simpl in Hn.
      cbn [Str.splitlines]. destruct (Chr.is_linebreak c) eqn:Hc.
      + destruct (Ascii.eqb c Chr.CR).
        * destruct s as [|d s'].
          -- constructor; [reflexivity|constructor].
          -- destruct (Ascii.eqb d Chr.LF); constructor; try reflexivity;
               apply IH; simpl in *; lia.
        * constructor; [reflexivity|]. apply IH. lia.
      + pose proof (IH s ltac:(lia)) as Hs.
        destruct (Str.splitlines s) as [|l ls].
        * constructor; [|constructor]. unfold single_line. simpl.
          unfold Chr.non. now rewrite Hc.
        * inversion Hs; subst. constructor; [|assumption].
          unfold single_line in *. simpl. unfold Chr.non at 1. now rewrite Hc. }
  apply (H (length s)). lia.
Qed.

Lemma rstrip_by_idem (p : ascii -> bool) (s : str) :
  Str.rstrip_by p (Str.rstrip_by p s) = Str.rstrip_by p s.
Proof.
  destruct (rstrip_by_split p s) as (t & _ & _ & [E|(x & c & E & Hc)]).
  - rewrite E. reflexivity.
  - rewrite E. now apply rstrip_by_last.
Qed.

(** ** The operator listing: what a match captures *)

Lemma line_tail_caps (st : mstate) (k : mstate -> option mstate) (res : mstate) :
  bt LINE_TAIL st k = Some res ->
  exists ws a b t b',
    aft st = ws ++ counts_text a b ++ t /\
    forallb Chr.is_space ws = true /\
    a <> [] /\ forallb dash_digit a = true /\
    b <> [] /\ forallb dash_digit b = true /\
    forallb Chr.is_space t = true /\
    (exists z, k (MS b' z ((4, b) :: (3, a) :: caps st)) = Some res).
Proof.
  unfold LINE_TAIL. cbn [cats bt at_bol bef aft caps star plus]. intros H.
  apply rep_greedy_sound in H as (ws & z0 & E0 & Hws & _ & _ & H). cbn beta in H.
  cbn [aft] in H. destruct z0 as [|c0 z0]; [discriminate|].
  unfold Chr.lit at 1 in H. destruct (Ascii.eqb_spec c0 "(") as [->|]; [|discriminate].
  apply rep_greedy_sound in H as (a & z1 & E1 & Ha & Ha0 & _ & H). cbn beta in H.
  cbn [aft] in H. destruct z1 as [|c1 z1]; [discriminate|].
  unfold Chr.lit at 1 in H. destruct (Ascii.eqb_spec c1 "|") as [->|]; [|discriminate].
  apply rep_greedy_sound in H as (b & z2 & E2 & Hb & Hb0 & _ & H). cbn beta in H.
  cbn [aft] in H. destruct z2 as [|c2 z2]; [discriminate|].
  unfold Chr.lit at 1 in H. destruct (Ascii.eqb_spec c2 ")") as [->|]; [|discriminate].
  apply rep_greedy_sound in H as (ws2 & z3 & E3 & Hws2 & _ & _ & H). cbn beta in H.
  cbn [aft bef caps] in H. destruct (at_eol false z3) eqn:Heol; [|discriminate].
  cbn [aft] in E1, E2, E3. subst z0 z1 z2.
  rewrite !taken_app in H.
  assert (Ha1 : a <> []) by (destruct a; [simpl in Ha0; lia|discriminate]).
  assert (Hb1 : b <> []) by (destruct b; [simpl in Hb0; lia|discriminate]).
  exists ws, a, b, (ws2 ++ z3). eexists. repeat split; auto.
  - rewrite E0. unfold counts_text. simpl.
    repeat (rewrite <- app_assoc; simpl). reflexivity.
  - rewrite forallb_app, Hws2. simpl.
    destruct z3 as [|c z3]; [reflexivity|]. simpl in Heol.
    apply andb_true_iff in Heol as [Hc Hz]. apply Ascii.eqb_eq in Hc as ->.
    destruct z3; [reflexivity|discriminate].
  - eexists. exact H.
Qed.

(** The groups of a match of the listing pattern. *)
Lemma line_re_caps (line : str) (st : mstate) :
  try_at LINE_RE [] line false = Some st ->
  exists name mid i o t,
    line = name ++ mid ++ counts_text i o ++ t /\
    name <> [] /\ forallb non_space name = true /\
    i <> [] /\ forallb dash_digit i = true /\
    o <> [] /\ forallb dash_digit o = true /\
    forallb Chr.is_space t = true /\
    (caps st = [(4, o); (3, i); (1, name)] \/
     exists d, caps st = [(4, o); (3, i); (2, d); (1, name)]
               /\ forallb Chr.dot d = true).
Proof.
  unfold try_at. intros H. rewrite line_re_split in H.
  unfold LINE_HEAD, opt in H. cbn [bt at_bol bef aft caps plus star_lazy] in H.
  apply rep_greedy_sound in H as (name & z0 & E0 & Hn & Hn0 & _ & H). cbn beta in H.
  subst line. rewrite taken_app in H.
  assert (Hn1 : name <> []) by (destruct name; [simpl in Hn0; lia|discriminate]).
  unfold orelse in H.
  match type of H with
  | match ?x with _ => _ end = _ => destruct x as [r|] eqn:E1
  end.
  - injection H as ->.
    apply rep_greedy_sound in E1 as (ws & z1 & E1 & Hws & _ & _ & H). cbn beta in H.
    cbn [aft bef caps] in H.
    apply rep_lazy_sound in H as (d & z2 & E2 & Hd & _ & _ & H). cbn beta in H.
    cbn [aft bef caps] in H. subst z0 z1. rewrite taken_app in H.
    apply line_tail_caps in H
      as (ws' & i & o & t & b' & E & Hws' & Hi0 & Hi & Ho0 & Ho & Ht & z & H).
    cbn [aft caps] in E, H. injection H as <-.
    exists name, (ws ++ d ++ ws'), i, o, t. repeat split; auto.
    + rewrite E. repeat (rewrite <- app_assoc; simpl). reflexivity.
    + right. exists d. now split.
  - apply line_tail_caps in H
      as (ws' & i & o & t & b' & E & Hws' & Hi0 & Hi & Ho0 & Ho & Ht & z & H).
    cbn [aft caps] in E, H. injection H as <-.
    exists name, ws', i, o, t. subst z0. repeat split; auto.
Qed.

(** What a line of the listing comes to: it is skipped, or it ends in two
    counts and the outcome is that of [int] on them. *)
Lemma listing_line_cases (raw_line : str) :
  listing_line raw_line = Ok None \/
  exists name mid i o t dtext,
    Str.rstrip raw_line = name ++ mid ++ counts_text i o ++ t /\
    name <> [] /\ forallb non_space name = true /\
    i <> [] /\ forallb dash_digit i = true /\
    o <> [] /\ forallb dash_digit o = true /\
    forallb Chr.is_space t = true /\
    listing_line raw_line
    = bind (Str.int i) (fun n_in =>
      bind (Str.int o) (fun n_out =>
        Ok (Some (listing_row name dtext n_in n_out)))).
Proof.
  unfold listing_line.
  destruct (negb (nonempty (Str.rstrip raw_line))); [now left|].
  unfold py_match.
  destruct (try_at LINE_RE [] (Str.rstrip raw_line) false) as [st|] eqn:E;
    [|now left].
  right. apply line_re_caps in E
    as (name & mid & i & o & t & E & Hn0 & Hn & Hi0 & Hi & Ho0 & Ho & Ht & Hc).
  destruct Hc as [Hc|(d & Hc & Hd)].
  - exists name, mid, i, o, t, []. repeat split; auto.
    cbn [option_map]. unfold grp, group. cbn [mk_mobj m_caps]. rewrite Hc.
    reflexivity.
  - exists name, mid, i, o, t, d. repeat split; auto.
    cbn [option_map]. unfold grp, group. cbn [mk_mobj m_caps]. rewrite Hc.
    reflexivity.
Qed.

Lemma int_raises (s : str) (e : exn) : Str.int s = Raise e -> e = ValueError.
Proof.
  unfold Str.int.
  destruct (match Str.strip s with [] => None | _ => _ end) as [z|];
    [destruct (_ <? _)|]; congruence.
Qed.

Lemma startswith_app (p s : str) : Str.startswith p (p ++ s) = true.
Proof. apply startswith_iff. now exists s. Qed.

(** Every match a scan reports is a match of the pattern somewhere. *)
Lemma scan_sound (r : re) (a : str) : forall b skip m,
  In m (scan r b a skip) ->
  exists b' a' adv st, try_at r b' a' adv = Some st /\ m = mk_mobj b' st.
Proof.
  induction a as [|c a IH]; intros b skip m.
  - destruct skip; cbn [scan]; [|intros []].
    destruct (try_at r b [] false) as [st|] eqn:E; [|intros []].
    cbv zeta. destruct (_ =? _).
    + destruct (try_at r b [] true) as [st2|] eqn:E2.
      * intros [<-|[<-|[]]]; eauto 6.
      * intros [<-|[]]; eauto 6.
    + intros [<-|[]]; eauto 6.
  - destruct skip as [|n]; cbn [scan]; [|apply IH].
    destruct (try_at r b (c :: a) false) as [st|] eqn:E; [|apply IH].
    cbv zeta. destruct (_ =? _).
    + destruct (try_at r b (c :: a) true) as [st2|] eqn:E2.
      * intros [<-|[<-|H]]; eauto 6.
      * intros [<-|H]; eauto 6.
    + intros [<-|H]; eauto 6.
Qed.

Lemma search_sound (r : re) (s : str) (m : mobj) :
  search r s = Some m ->
  exists b' a' adv st, try_at r b' a' adv = Some st /\ m = mk_mobj b' st.
Proof.
  unfold search, finditer. intros H. apply (scan_sound r s [] 0).
  destruct (scan r [] s 0); [discriminate|]. injection H as ->. now left.
Qed.

(** The group of a match of the alias pattern. *)
Lemma alias_caps (b a : str) (adv : bool) (st : mstate) :
  try_at ALIAS_RE b a adv = Some st ->
  exists X, caps st = [(1, X)] /\ X <> [] /\ forallb non_space X = true.
Proof.
  unfold try_at, ALIAS_RE. cbn [cats bt]. rewrite bt_lit. cbn [aft bef caps].
  destruct (Str.startswith _ a); [|discriminate].
  cbn [bt star plus aft bef caps]. intros H.
  apply rep_greedy_sound in H as (sp & z0 & E0 & Hsp & _ & _ & H). cbn beta in H.
  cbn [aft bef caps] in H.
  apply rep_greedy_sound in H as (X & z1 & E1 & HX & HX0 & _ & H). cbn beta in H.
  subst z0. rewrite taken_app in H.
  destruct (adv && _); [discriminate|]. injection H as <-.
  exists X. repeat split; auto. destruct X; [simpl in HX0; lia|discriminate].
Qed.

(** X2. Every row the listing parser builds has a name that is a non-empty
    prefix of its line without white space; a description, when present,
    is non-empty and has no white space at its end; and the row is marked
    as an alias exactly when it has an alias target, which is then
    non-empty and free of white space. *)
Theorem listing_row_invariants (raw_line : str) (r : row) :
  listing_line raw_line = Ok (Some r) ->
  name r <> [] /\ forallb non_space (name r) = true
  /\ Str.startswith (name r) raw_line = true
  /\ match description r with
     | Some d => d <> [] /\ Str.rstrip d = d
     | None => True
     end
  /\ match alias_to r with
     | Some X => is_alias r = true /\ X <> [] /\ forallb non_space X = true
     | None => is_alias r = false
     end.
Proof.
  intros H. destruct (listing_line_cases raw_line) as [E|E]; [congruence|].
  destruct E as (nm & mid & i & o & t & dtext & El & Hn0 & Hn & _ & _ & _ & _ & _ & E).
  rewrite E in H.
  destruct (Str.int i) as [n_in|]; [|discriminate].
  destruct (Str.int o) as [n_out|]; [|discriminate].
  injection H as <-. unfold listing_row. cbn [name description is_alias alias_to].
  split; [exact Hn0|]. split; [exact Hn|]. split; [|split].
  - destruct (rstrip_by_split Chr.is_space raw_line) as (t' & Er & _).
    fold (Str.rstrip raw_line) in Er. rewrite Er, El. rewrite <- app_assoc.
    apply startswith_app.
  - destruct (Str.rstrip dtext) as [|c d] eqn:Ed; cbn [nonempty]; [exact I|].
    split; [discriminate|]. rewrite <- Ed. apply rstrip_by_idem.
  - destruct (search ALIAS_RE (Str.rstrip dtext)) as [m|] eqn:Es;
      cbn [option_map]; [|reflexivity].
    split; [reflexivity|].
    apply search_sound in Es as (b' & a' & adv & st & Es & ->).
    apply alias_caps in Es as (X & Ec & HX0 & HX).
    unfold grp, group. cbn [mk_mobj m_caps]. rewrite Ec.
    cbn. now split.
Qed.

Lemma listing_row_invariants_witness :
  Str.startswith (L "sinfov") (L "sinfov    --> sinfon (-1|0)  ") = true.
Proof.
  exact (proj1 (proj2 (proj2
    (listing_row_invariants (L "sinfov    --> sinfon (-1|0)  ")
       (Row (L "sinfov") (Some (L "--> sinfon")) (-1) 0 true (Some (L "sinfon")))
       eq_refl)))).
Defined.








Lemma listing_try_leading_space (c : ascii) (s : str) :
  Chr.is_space c = true -> try_at LINE_RE [] (c :: s) false = None.
Proof.
  intros Hc. unfold try_at. rewrite line_re_split.
  unfold LINE_HEAD. cbn [bt at_bol bef aft caps plus rep_greedy Nat.eqb more andb].
  unfold non_space at 1, Chr.non. rewrite Hc. reflexivity.
Qed.

(** X4. The listing parser skips, without a row and without an exception,
    every line that starts with white space (a blank line among them), and
    every line that does not end, white space apart, in two parenthesised
    runs of digits and minus signs separated by a bar. *)
Theorem listing_line_skips (raw_line : str) :
  (stops (Chr.non Chr.is_space) raw_line -> listing_line raw_line = Ok None)
  /\ ((forall pre i o t,
         i <> [] -> forallb dash_digit i = true ->
         o <> [] -> forallb dash_digit o = true ->
         forallb Chr.is_space t = true ->
         raw_line <> pre ++ counts_text i o ++ t) ->
      listing_line raw_line = Ok None).
Proof.
  split; [|apply listing_line_skipped].
  intros Hs. unfold listing_line.
  destruct (rstrip_by_split Chr.is_space raw_line) as (t & E & _ & _).
  fold (Str.rstrip raw_line) in E.
  destruct (Str.rstrip raw_line) as [|c s]; [reflexivity|]. cbn [nonempty negb].
  rewrite E in Hs. simpl in Hs. unfold Chr.non in Hs.
  apply negb_false_iff in Hs. unfold py_match.
  now rewrite listing_try_leading_space.
Qed.

Lemma listing_line_raises (raw_line : str) (e : exn) :
  listing_line raw_line = Raise e -> e = ValueError.
Proof.
  intros H. destruct (listing_line_cases raw_line) as [E|E]; [congruence|].
  destruct E as (nm & mid & i & o & t & dtext & _ & _ & _ & _ & _ & _ & _ & _ & E).
  rewrite E in H.
  destruct (Str.int i) as [n_in|e1] eqn:Ei; simpl in H.
  - destruct (Str.int o) as [n_out|e2] eqn:Eo; simpl in H; [discriminate|].
    injection H as <-. now apply int_raises in Eo.
  - injection H as <-. now apply int_raises in Ei.
Qed.

Lemma listing_loop_ok (lines : list str) : forall acc rows,
  listing_loop lines acc = Ok rows <->
  exists outs,
    Forall2 (fun l r => listing_line l = Ok r) lines outs /\
    rows = acc ++ omap id outs.
Proof.
  induction lines as [|l lines IH]; intros acc rows; cbn [listing_loop].
  - split.
    + intros [= <-]. exists []. split; [constructor|]. now rewrite app_nil_r.
    + intros (outs & H & ->). inversion H; subst. now rewrite app_nil_r.
  - split.
    + destruct (listing_line l) as [[x|]|e] eqn:El; cbn [bind]; [| |discriminate].
      * intros H. apply IH in H as (outs & H & ->).
        exists (Some x :: outs). split; [now constructor|].
        simpl. now rewrite <- app_assoc.
      * intros H. apply IH in H as (outs & H & ->).
        exists (None :: outs). split; [now constructor|]. reflexivity.
    + intros (outs & H & ->). inversion H as [|? r ? outs' Hl Hrest]; subst.
      rewrite Hl. cbn [bind]. destruct r as [x|].
      * apply IH. exists outs'. split; [assumption|].
        simpl. now rewrite <- app_assoc.
      * apply IH. exists outs'. now split.
Qed.

Lemma listing_loop_raises (lines : list str) : forall acc e,
  listing_loop lines acc = Raise e ->
  e = ValueError /\ Exists (fun l => listing_line l = Raise ValueError) lines.
Proof.
  induction lines as [|l lines IH]; intros acc e; cbn [listing_loop];
    [discriminate|].
  destruct (listing_line l) as [[x|]|e'] eqn:El; cbn [bind].
  - intros H. apply IH in H as [-> H]. split; [reflexivity|now right].
  - intros H. apply IH in H as [-> H]. split; [reflexivity|now right].
  - intros [= <-]. pose proof (listing_line_raises _ _ El) as ->.
    split; [reflexivity|now left].
Qed.

Lemma str_le_total (a b : str) : str_le a b = false -> str_le b a = true.
Proof.
  revert b. induction a as [|x a IH]; intros [|y b]; simpl; try discriminate;
    try reflexivity.
  destruct (Nat.ltb_spec (Chr.code x) (Chr.code y)) as [Hlt|Hge]; [discriminate|].
  destruct (Nat.eqb_spec (Chr.code x) (Chr.code y)) as [E|E].
  - intros Hab. rewrite E, Nat.ltb_irrefl, Nat.eqb_refl. now apply IH.
  - intros _. destruct (Nat.ltb_spec (Chr.code y) (Chr.code x)); [reflexivity|lia].
Qed.

Lemma insert_by_name_perm (r : row) (rows : list row) :
  Permutation (r :: rows) (insert_by_name r rows).
Proof.
  induction rows as [|x rows IH]; simpl; [reflexivity|].
  destruct (str_le (name r) (name x)); [reflexivity|].
  rewrite perm_swap. now constructor.
Qed.

Lemma insert_by_name_ascending (r : row) (rows : list row) :
  ascending (map name rows) -> ascending (map name (insert_by_name r rows)).
Proof.
  induction rows as [|x rows IH]; intros H; [exact I|].
  cbn [insert_by_name]. destruct (str_le (name r) (name x)) eqn:E.
  - cbn [map ascending]. split; [exact E|exact H].
  - apply str_le_total in E. destruct rows as [|y rows].
    + cbn. now split.
    + cbn [map ascending] in H. destruct H as [Hxy H].
      specialize (IH H). cbn [insert_by_name] in IH |- *.
      destruct (str_le (name r) (name y)) eqn:E'; cbn [map ascending] in IH |- *.
      * split; [exact E|]. exact IH.
      * split; [exact Hxy|]. exact IH.
Qed.

Lemma sort_by_name_orders : orders_by_name sort_by_name.
Proof.
  intros rows. unfold sort_by_name.
  induction rows as [|r rows [IHp IHa]]; [now split|]. cbn [fold_right]. split.
  - etransitivity; [|apply insert_by_name_perm]. now constructor.
  - now apply insert_by_name_ascending.
Qed.

(** X5. The listing parser is all or nothing.  Its loop collects rows
    exactly when no line raises, and they are then the rows of the lines
    that were not skipped, in the order of the lines.  A line that raises
    makes the whole call raise [ValueError], and the rows read before it
    are lost.  When no line gives a row, as for the empty text, the call
    raises [KeyError].  Otherwise it returns the collected rows as
    [sort_values] orders them; and it raises nothing else. *)
Theorem listing_all_or_nothing (sort_values : list row -> list row)
    (text : str) :
  (forall rows,
     listing_rows text = Ok rows <->
     exists outs,
       Forall2 (fun l r => listing_line l = Ok r) (Str.splitlines text) outs /\
       rows = omap id outs)
  /\ (parse_cdo_operator_listing sort_values text = Raise ValueError <->
      Exists (fun l => listing_line l = Raise ValueError) (Str.splitlines text))
  /\ (parse_cdo_operator_listing sort_values text = Raise KeyError <->
      listing_rows text = Ok [])
  /\ (forall out,
        parse_cdo_operator_listing sort_values text = Ok out <->
        exists rows,
          listing_rows text = Ok rows /\ rows <> [] /\ out = sort_values rows)
  /\ (forall e,
        parse_cdo_operator_listing sort_values text = Raise e ->
        e = ValueError \/ e = KeyError)
  /\ (orders_by_name sort_values ->
      forall out,
        parse_cdo_operator_listing sort_values text = Ok out ->
        ascending (map name out) /\
        exists rows, listing_rows text = Ok rows /\ Permutation rows out).
Proof.
  assert (Hsort : orders_by_name sort_values ->
                  forall out,
                    parse_cdo_operator_listing sort_values text = Ok out ->
                    ascending (map name out) /\
                    exists rows,
                      listing_rows text = Ok rows /\ Permutation rows out).
  { intros Hs out. unfold parse_cdo_operator_listing.
    destruct (listing_rows text) as [[|r rows]|e]; cbn [bind]; try discriminate.
    intros [= <-]. destruct (Hs (r :: rows)) as [Hp Ha].
    split; [exact Ha|]. now exists (r :: rows). }
  cut ((forall rows,
     listing_rows text = Ok rows <->
     exists outs,
       Forall2 (fun l r => listing_line l = Ok r) (Str.splitlines text) outs /\
       rows = omap id outs)
  /\ (parse_cdo_operator_listing sort_values text = Raise ValueError <->
      Exists (fun l => listing_line l = Raise ValueError) (Str.splitlines text))
  /\ (parse_cdo_operator_listing sort_values text = Raise KeyError <->
      listing_rows text = Ok [])
  /\ (forall out,
        parse_cdo_operator_listing sort_values text = Ok out <->
        exists rows,
          listing_rows text = Ok rows /\ rows <> [] /\ out = sort_values rows)
  /\ (forall e,
        parse_cdo_operator_listing sort_values text = Raise e ->
        e = ValueError \/ e = KeyError)).
  { intros (H1 & H2 & H3 & H4 & H5).
    repeat (split; [assumption|]). exact Hsort. }
  clear Hsort.
  assert (Hex : Exists (fun l => listing_line l = Raise ValueError)
                  (Str.splitlines text) ->
                listing_rows text = Raise ValueError).
  { intros Hex. unfold listing_rows.
    destruct (listing_loop (Str.splitlines text) []) as [rows|e] eqn:E.
    - exfalso. apply listing_loop_ok in E as (outs & H & _).
      clear -H Hex. induction H as [|l r ls outs Hl _ IH].
      + inversion Hex.
      + inversion Hex; subst; [congruence|auto].
    - apply listing_loop_raises in E as [-> _]. reflexivity. }
  unfold parse_cdo_operator_listing.
  split; [intros rows; apply listing_loop_ok|].
  destruct (listing_rows text) as [rows|e] eqn:E; cbn [bind].
  - assert (Hno : ~ Exists (fun l => listing_line l = Raise ValueError)
                      (Str.splitlines text)).
    { intros H. apply Hex in H. discriminate. }
    destruct rows as [|r rows].
    + split; [split; [discriminate|tauto]|]. split; [tauto|].
      split; [|intros e [= <-]; now right].
      intros out. split; [discriminate|].
      intros (rows & [= <-] & Hne & _). congruence.
    + split; [split; [discriminate|tauto]|].
      split; [split; discriminate|].
      split; [|discriminate].
      intros out. split.
      * intros [= <-]. exists (r :: rows). now repeat split.
      * intros (rows' & [= <-] & _ & ->). reflexivity.
  - unfold listing_rows in E. apply listing_loop_raises in E as [-> Hx].
    split; [tauto|]. split; [split; discriminate|].
    split; [|intros e [= <-]; now left].
    intros out. split; [discriminate|]. intros (rows & H & _). discriminate.
Qed.

Example listing_sorted :
  parse_cdo_operator_listing sort_by_name
    (unlines [L "sinfov    --> sinfon (-1|0)  "; L ""; L "copy Copy datasets (-1|1)"])
  = Ok [Row (L "copy") (Some (L "Copy datasets")) (-1) 1 false None;
        Row (L "sinfov") (Some (L "--> sinfon")) (-1) 0 true (Some (L "sinfon"))]
  /\ parse_cdo_operator_listing sort_by_name (L "no row here") = Raise KeyError.
Proof. split; reflexivity. Qed.

(** ** Template expansion *)

Lemma expand_flat (specs : list spec) (names : list str) :
  _expand_template_specs specs names = flat_map (expand_one names) specs.
Proof. unfold _expand_template_specs. now rewrite expand_outer_loop. Qed.

Lemma expand_plain (specs : list spec) (names : list str) :
  Forall (fun s => is_template s = false) specs ->
  flat_map (expand_one names) specs = specs.
Proof.
  induction 1 as [|s specs Hs _ IH]; simpl; [reflexivity|].
  unfold expand_one at 1. now rewrite Hs, IH.
Qed.

Lemma expand_no_template (specs : list spec) (names : list str) :
  Forall (fun s => is_template s = false) (flat_map (expand_one names) specs).
Proof.
  induction specs as [|s specs IH]; simpl; [constructor|].
  apply Forall_app. split; [|exact IH].
  unfold expand_one. destruct (is_template s) eqn:E.
  - apply List.Forall_forall. intros x Hx.
    apply in_map_iff in Hx as (n & <- & _). reflexivity.
  - now repeat constructor.
Qed.

(** X6. After template expansion no specification is a template, so
    expanding a second time, with whatever names, changes nothing; a list
    without templates is returned as it is; the operator names of the
    result are, in order, the candidate names for each template and the
    own name of each other specification; and the result has one
    specification per candidate name and template plus the others. *)
Theorem expand_template_specs_laws (specs : list spec) (names names' : list str) :
  Forall (fun s => is_template s = false) (_expand_template_specs specs names)
  /\ _expand_template_specs (_expand_template_specs specs names) names'
     = _expand_template_specs specs names
  /\ _expand_template_specs
       (List.filter (fun s => negb (is_template s)) specs) names
     = List.filter (fun s => negb (is_template s)) specs
  /\ map op (_expand_template_specs specs names)
     = flat_map (fun s => if is_template s then names else [op s]) specs
  /\ length (_expand_template_specs specs names)
     = length (List.filter (fun s => negb (is_template s)) specs)
       + length (List.filter is_template specs) * length names.
Proof.
  rewrite !expand_flat. split; [apply expand_no_template|].
  split; [apply expand_plain, expand_no_template|]. split; [|split].
  - apply expand_plain. apply List.Forall_forall. intros s Hs.
    apply List.filter_In in Hs as [_ Hs]. now apply negb_true_iff in Hs.
  - induction specs as [|s specs IH]; simpl; [reflexivity|].
    rewrite map_app, IH. f_equal. unfold expand_one.
    destruct (is_template s); [|reflexivity].
    rewrite map_map. simpl. apply map_id.
  - induction specs as [|s specs IH]; simpl; [reflexivity|].
    rewrite length_app, IH. unfold expand_one.
    destruct (is_template s); simpl; [rewrite length_map|]; lia.
Qed.

(** ** Attachment: how the loop composes and where it stops *)

Section AttachMore.

Variable exec_accepts : str -> bool.
Variable param_meta : gmap str (str * str).
Variable description_section : str.
Variable op_docs : ODict.t opdoc.

Local Abbreviation attach :=
  (attach_loop exec_accepts param_meta description_section op_docs).
Local Abbreviation create :=
  (fun s => _create_operator_function exec_accepts (op s) s param_meta
              description_section op_docs).

Lemma attach_app (xs ys : list spec) (cls : gmap str member) :
  attach (xs ++ ys) cls
  = match snd (attach xs cls) with
    | Ok _ => attach ys (fst (attach xs cls))
    | Raise e => attach xs cls
    end.
Proof.
  revert cls. induction xs as [|s xs IH]; intros cls; cbn [app attach_loop].
  - reflexivity.
  - destruct (cls !! op s); [apply IH|].
    destruct (_create_operator_function _ _ _ _ _ _) as [f|e]; [apply IH|].
    reflexivity.
Qed.

Lemma create_raises (s : spec) (e : exn) :
  create s = Raise e ->
  e = SynthesisError /\ exec_accepts (def_source (op s) s param_meta) = false.
Proof.
  unfold _create_operator_function.
  destruct (exec_accepts _); [discriminate|]. now intros [= <-].
Qed.

Lemma attach_failure (specs : list spec) : forall cls e,
  snd (attach specs cls) = Raise e ->
  e = SynthesisError /\
  exists pre s post,
    specs = pre ++ s :: post /\
    attach pre cls = (fst (attach specs cls), Ok tt) /\
    fst (attach specs cls) !! op s = None /\
    exec_accepts (def_source (op s) s param_meta) = false.
Proof.
  induction specs as [|s specs IH]; intros cls e; cbn [attach_loop].
  - discriminate.
  - destruct (cls !! op s) as [v|] eqn:Ev.
    + intros H. destruct (IH _ _ H) as (-> & pre & s' & post & -> & Hp & Hn & Hx).
      split; [reflexivity|]. exists (s :: pre), s', post.
      cbn [app attach_loop]. rewrite Ev. auto.
    + destruct (_create_operator_function _ _ _ _ _ _) as [f|e'] eqn:Ec.
      * intros H. destruct (IH _ _ H) as (-> & pre & s' & post & -> & Hp & Hn & Hx).
        split; [reflexivity|]. exists (s :: pre), s', post.
        cbn [app attach_loop]. rewrite Ev, Ec. auto.
      * cbn [snd fst]. intros [= <-]. apply create_raises in Ec as [-> Hx].
        split; [reflexivity|]. exists [], s, specs. auto.
Qed.

Lemma attach_origin (specs : list spec) : forall cls k m,
  fst (attach specs cls) !! k = Some m ->
  cls !! k = Some m \/
  (cls !! k = None /\
   exists pre s post f,
     specs = pre ++ s :: post /\ Forall (fun s' => op s' <> k) pre /\
     op s = k /\ create s = Ok f /\ m = Bound f).
Proof.
  induction specs as [|s specs IH]; intros cls k m; cbn [attach_loop].
  - now left.
  - destruct (cls !! op s) as [v|] eqn:Ev.
    + intros H. apply IH in H as [H|(Hn & pre & s' & post & f & -> & Hpre & Hk & Hc & ->)].
      * now left.
      * right. split; [exact Hn|]. exists (s :: pre), s', post, f.
        repeat split; auto. constructor; [|exact Hpre]. congruence.
    + destruct (_create_operator_function _ _ _ _ _ _) as [f|e'] eqn:Ec.
      * intros H. apply IH in H as [H|(Hn & pre & s' & post & f' & -> & Hpre & Hk & Hc & ->)].
        -- destruct (decide (op s = k)) as [<-|Hne].
           ++ rewrite lookup_insert_eq in H. injection H as <-.
              right. split; [exact Ev|]. exists [], s, specs, f. now repeat split.
           ++ rewrite lookup_insert_ne in H by exact Hne. now left.
        -- destruct (decide (op s = k)) as [E|Hne].
           ++ rewrite E, lookup_insert_eq in Hn. discriminate.
           ++ rewrite lookup_insert_ne in Hn by exact Hne.
              right. split; [exact Hn|]. exists (s :: pre), s', post, f'.
              repeat split; auto.
      * cbn [fst]. now left.
Qed.

End AttachMore.

(** X7. The attach loop over a list of specifications followed by
    another is the loop over the first and then, unless it raised, the loop
    over the second from the class it left.  When the loop raises, it
    raises at the first specification whose name is not yet a member and
    whose generated [def] statement the interpreter refuses: the specifications before
    it were processed normally and their members stay, and nothing after
    it is attached. *)
Theorem attach_loop_stops_at_failure (exec_accepts : str -> bool)
    (param_meta : gmap str (str * str)) (description_section : str)
    (op_docs : ODict.t opdoc) (specs : list spec) (cls : gmap str member) :
  let attach := attach_loop exec_accepts param_meta description_section op_docs in
  (forall xs ys,
     attach (xs ++ ys) cls
     = match snd (attach xs cls) with
       | Ok _ => attach ys (fst (attach xs cls))
       | Raise e => attach xs cls
       end)
  /\ (forall e,
        snd (attach specs cls) = Raise e ->
        e = SynthesisError /\
        exists pre s post,
          specs = pre ++ s :: post /\
          attach pre cls = (fst (attach specs cls), Ok tt) /\
          fst (attach specs cls) !! op s = None /\
          exec_accepts (def_source (op s) s param_meta) = false).
Proof.
  cbv zeta. split.
  - intros xs ys. apply attach_app.
  - intros e. apply attach_failure.
Qed.

(** X8. Whatever the loop attaches comes from the list: a member of the
    class after the loop was a member before, or else its name was free
    and it is the callable synthesized from the first specification of the
    list that carries this name.  A name that is no member afterwards was
    none before. *)
Theorem attach_members_origin (exec_accepts : str -> bool)
    (param_meta : gmap str (str * str)) (description_section : str)
    (op_docs : ODict.t opdoc) (specs : list spec) (cls : gmap str member)
    (k : str) :
  match fst (attach_loop exec_accepts param_meta description_section op_docs
               specs cls) !! k with
  | Some m =>
      cls !! k = Some m \/
      (cls !! k = None /\
       exists pre s post f,
         specs = pre ++ s :: post /\ Forall (fun s' => op s' <> k) pre /\
         op s = k /\
         _create_operator_function exec_accepts k s param_meta
           description_section op_docs = Ok f /\
         m = Bound f)
  | None => cls !! k = None
  end.
Proof.
  destruct (fst _ !! k) as [m|] eqn:E.
  - apply attach_origin in E as [E|(Hn & pre & s & post & f & -> & Hpre & <- & Hc & ->)].
    + now left.
    + right. split; [exact Hn|]. exists pre, s, post, f. now repeat split.
  - destruct (cls !! k) as [v|] eqn:Ev; [|reflexivity].
    pose proof (attach_keeps exec_accepts param_meta description_section op_docs
                  specs cls) as Hsub.
    eapply lookup_weaken in Ev; [|exact Hsub]. congruence.
Qed.

(** ** The synopsis block *)

Lemma synopsis_line_cases (line : str) :
  single_line line ->
  synopsis_line line = Ok None \/
  exists left right,
    synopsis_shape line left right /\ forallb Chr.dot right = true.
Proof.
  intros Hl. unfold synopsis_line.
  destruct (negb (nonempty (Str.rstrip line)) || _) eqn:Ec; [now left|].
  unfold py_match.
  destruct (try_at SYNOPSIS_LINE_RE [] (Str.rstrip line) false) as [st|] eqn:E;
    [|now left].
  right.
  destruct (rstrip_by_split Chr.is_space line) as (trail & El & Ht & Hlast).
  fold (Str.rstrip line) in El, Hlast.
  apply single_line_dot in Hl.
  assert (Hd : forallb Chr.dot (Str.rstrip line) = true).
  { rewrite El, forallb_app in Hl. now apply andb_true_iff in Hl as [Hl _]. }
  apply synopsis_line_sound in E; [|exact Hd].
  destruct E as (lead & left & ws & right & E & Hlead & Hl0 & Hleft & Hw0 & Hw & Hr0).
  destruct Hlast as [Hnil|(x & c & Ex & Hc)].
  { rewrite Hnil in E. destruct lead, left; simpl in E; congruence. }
  destruct (exists_last Hr0) as (d0 & dl & ->).
  assert (dl = c) as ->.
  { rewrite Ex in E.
    replace (lead ++ left ++ ws ++ d0 ++ [dl])
      with ((lead ++ left ++ ws ++ d0) ++ [dl]) in E
      by (now rewrite <- !app_assoc).
    apply app_inj_tail in E as [_ E]. congruence. }
  destruct (split_leading d0 c Hc) as (sp & d & Ed & Hsp & Hdt).
  exists left, d. split.
  - exists lead, (ws ++ sp), trail.
    rewrite El, E, Ed. repeat split; auto.
    + now rewrite <- !app_assoc.
    + intros H. apply app_eq_nil in H as [-> _]. congruence.
    + rewrite forallb_app. now rewrite Hw, Hsp.
    + apply Hdt.
    + apply Hdt.
  - rewrite E, Ed in Hd. rewrite !forallb_app in Hd.
    repeat (apply andb_true_iff in Hd as [_ Hd]). exact Hd.
Qed.

Lemma split_nonempty (s : str) : trimmed s -> Str.split s <> [].
Proof.
  intros H. apply trimmed_iff in H as (x & c & E & Hs & Hc).
  destruct s as [|a s]; [now destruct x|]. simpl in Hs.
  cbn [Str.split]. rewrite Hs.
  destruct s as [|d s]; [discriminate|].
  destruct (Chr.is_space d); [discriminate|].
  destruct (Str.split (d :: s)); discriminate.
Qed.

Lemma filter_nonempty (l : list str) :
  Forall (fun p => p <> []) (List.filter nonempty l).
Proof.
  apply List.Forall_forall. intros p Hp. apply List.filter_In in Hp as [_ Hp].
  now destruct p.
Qed.

Lemma items_nonempty (gs : list str) :
  Forall (fun p => p <> []) (flat_map items_of gs).
Proof.
  induction gs as [|g gs IH]; simpl; [constructor|].
  apply Forall_app. split; [apply filter_nonempty|exact IH].
Qed.

Lemma synopsis_line_sound_spec (line : str) (s : spec) :
  single_line line -> synopsis_line line = Ok (Some s) ->
  (op s <> [] /\
   Forall (fun p => p <> []) (required_params s) /\
   Forall (fun p => p <> []) (optional_params s) /\
   in_tokens s <> [] /\
   length (out_tokens s) <= 1) /\
  is_template s = Str.contains (L "<operator>") (op s).
Proof.
  intros Hl H. destruct (synopsis_line_cases line Hl) as [E|(left & right & Hs & Hd)];
    [congruence|].
  rewrite (synopsis_line_shape line left right Hs Hd) in H.
  assert (Hr : trimmed right) by (destruct Hs as (? & ? & ? & Hs); apply Hs).
  pose proof (split_nonempty right Hr) as Hio.
  pose proof (filter_nonempty (Str.split_on "," (without_groups left))) as Hparts.
  destruct (List.filter nonempty (Str.split_on "," (without_groups left)))
    as [|op_name required]; [discriminate|].
  cbv zeta in H. injection H as <-.
  cbn [op required_params optional_params in_tokens out_tokens is_template].
  split; [|reflexivity].
  split; [exact (Forall_inv Hparts)|]. split; [exact (Forall_inv_tail Hparts)|].
  split; [apply items_nonempty|].
  destruct (Str.split right) as [|a [|b l]]; [congruence| |]; cbn [length].
  - split; [discriminate|simpl; lia].
  - split; [discriminate|simpl; lia].
Qed.

Lemma synopsis_line_raises (line : str) (e : exn) :
  synopsis_line line = Raise e -> e = IndexError.
Proof.
  unfold synopsis_line. destruct (_ || _); [discriminate|].
  destruct (py_match _ _); [|discriminate].
  destruct (List.filter _ _); [now intros [= <-]|].
  destruct (2 <=? _); discriminate.
Qed.

Lemma synopsis_loop_ok (lines : list str) : forall acc specs,
  synopsis_loop lines acc = Ok specs <->
  exists outs,
    Forall2 (fun l r => synopsis_line l = Ok r) lines outs /\
    specs = acc ++ omap id outs.
Proof.
  induction lines as [|l lines IH]; intros acc specs; cbn [synopsis_loop].
  - split.
    + intros [= <-]. exists []. split; [constructor|]. now rewrite app_nil_r.
    + intros (outs & H & ->). inversion H; subst. now rewrite app_nil_r.
  - split.
    + destruct (synopsis_line l) as [[x|]|e] eqn:El; cbn [bind]; [| |discriminate].
      * intros H. apply IH in H as (outs & H & ->).
        exists (Some x :: outs). split; [now constructor|].
        simpl. now rewrite <- app_assoc.
      * intros H. apply IH in H as (outs & H & ->).
        exists (None :: outs). split; [now constructor|]. reflexivity.
    + intros (outs & H & ->). inversion H as [|? r ? outs' Hl Hrest]; subst.
      rewrite Hl. cbn [bind]. destruct r as [x|].
      * apply IH. exists outs'. split; [assumption|].
        simpl. now rewrite <- app_assoc.
      * apply IH. exists outs'. now split.
Qed.

Lemma synopsis_loop_raises (lines : list str) : forall acc e,
  synopsis_loop lines acc = Raise e ->
  e = IndexError /\ Exists (fun l => synopsis_line l = Raise IndexError) lines.
Proof.
  induction lines as [|l lines IH]; intros acc e; cbn [synopsis_loop];
    [discriminate|].
  destruct (synopsis_line l) as [[x|]|e'] eqn:El; cbn [bind].
  - intros H. apply IH in H as [-> H]. split; [reflexivity|now right].
  - intros H. apply IH in H as [-> H]. split; [reflexivity|now right].
  - intros [= <-]. pose proof (synopsis_line_raises _ _ El) as ->.
    split; [reflexivity|now left].
Qed.

Lemma synopsis_block_sound (block : str) (specs : list spec) :
  _parse_synopsis_block block = Ok specs ->
  Forall (fun s =>
            op s <> [] /\
            Forall (fun p => p <> []) (required_params s) /\
            Forall (fun p => p <> []) (optional_params s) /\
            in_tokens s <> [] /\
            length (out_tokens s) <= 1 /\
            is_template s = Str.contains (L "<operator>") (op s)) specs.
Proof.
  unfold _parse_synopsis_block. intros H.
  apply synopsis_loop_ok in H as (outs & H & ->). simpl.
  pose proof (splitlines_single_lines block) as Hl.
  induction H as [|l r ls outs Hr _ IH]; [constructor|].
  apply Forall_cons in Hl as [Hl Hls].
  destruct r as [s|]; simpl; [|now apply IH].
  constructor; [|now apply IH].
  destruct (synopsis_line_sound_spec l s Hl Hr) as ((H1 & H2 & H3 & H4 & H5) & H6).
  now repeat split.
Qed.

(** X9. Every specification the synopsis parser returns, for any block,
    has a non-empty operator name, non-empty required and optional
    parameter names, at least one input token and at most one output
    token, and is marked as a template exactly when its operator name
    contains the placeholder. *)
Theorem synopsis_specs_invariants (block : str) (specs : list spec) :
  _parse_synopsis_block block = Ok specs ->
  Forall (fun s =>
            op s <> [] /\
            Forall (fun p => p <> []) (required_params s) /\
            Forall (fun p => p <> []) (optional_params s) /\
            in_tokens s <> [] /\
            length (out_tokens s) <= 1 /\
            is_template s = Str.contains (L "<operator>") (op s)) specs.
Proof. apply synopsis_block_sound. Qed.

Lemma synopsis_specs_invariants_witness :
  Forall (fun s =>
            op s <> [] /\
            Forall (fun p => p <> []) (required_params s) /\
            Forall (fun p => p <> []) (optional_params s) /\
            in_tokens s <> [] /\
            length (out_tokens s) <= 1 /\
            is_template s = Str.contains (L "<operator>") (op s))
    [Spec (L "remapbil") [L "grid"] [L "extrapolate"] [L "infile"] [L "outfile"]
       false].
Proof.
  apply (synopsis_specs_invariants
           (text_lines ["# remapping"; "  remapbil,grid[,extrapolate]  infile outfile"])).
  reflexivity.
Defined.

Lemma shape_dot (line left right : str) :
  single_line line -> synopsis_shape line left right ->
  forallb Chr.dot right = true.
Proof.
  intros Hl (lead & ws & trail & -> & _). apply single_line_dot in Hl.
  rewrite !forallb_app in Hl.
  do 3 (apply andb_true_iff in Hl as [_ Hl]).
  now apply andb_true_iff in Hl as [Hl _].
Qed.

Lemma shape_lstrip (line left right : str) :
  synopsis_shape line left right ->
  exists c rest, Str.lstrip_by Chr.is_space line = c :: rest /\
                 synopsis_char c = true.
Proof.
  intros (lead & ws & trail & -> & Hlead & Hl0 & Hl & _).
  rewrite lstrip_by_run by exact Hlead.
  destruct left as [|c left]; [congruence|]. simpl in Hl.
  apply andb_true_iff in Hl as [Hc _].
  exists c, (left ++ ws ++ right ++ trail). split; [|exact Hc].
  apply lstrip_by_stops. simpl. now apply synopsis_not_space.
Qed.

(** X10. On a line of a synopsis block: a blank line and a line whose
    first character after leading white space is [#] are skipped; the line
    raises [IndexError] exactly when it has a left half and a right half
    and the left half, its bracketed groups removed, has no token between
    its commas; and it raises nothing else. *)
Theorem synopsis_line_edges (line : str) (Hl : single_line line) :
  (Str.strip line = [] \/
   Str.startswith (L "#") (Str.lstrip_by Chr.is_space line) = true ->
   synopsis_line line = Ok None)
  /\ (synopsis_line line = Raise IndexError <->
      exists left right,
        synopsis_shape line left right /\
        List.filter nonempty (Str.split_on "," (without_groups left)) = [])
  /\ (forall e, synopsis_line line = Raise e -> e = IndexError).
Proof.
  split; [|split].
  - intros H.
    destruct (synopsis_line_cases line Hl) as [E|(left & right & Hs & _)];
      [exact E|exfalso].
    apply shape_lstrip in Hs as (c & rest & E & Hc).
    destruct H as [H|H].
    + unfold Str.strip, Str.strip_by in H. rewrite E in H.
      apply rstrip_by_nil_iff in H. simpl in H.
      rewrite (synopsis_not_space c Hc) in H. discriminate.
    + rewrite E in H. change (L "#") with ["#"%char] in H.
      cbn [Str.startswith] in H. rewrite (synopsis_not_hash c Hc) in H.
      discriminate.
  - split.
    + intros H.
      destruct (synopsis_line_cases line Hl) as [E|(left & right & Hs & Hd)];
        [congruence|].
      exists left, right. split; [exact Hs|].
      rewrite (synopsis_line_shape line left right Hs Hd) in H.
      destruct (List.filter _ _); [reflexivity|discriminate].
    + intros (left & right & Hs & E).
      rewrite (synopsis_line_shape line left right Hs (shape_dot _ _ _ Hl Hs)).
      now rewrite E.
  - apply synopsis_line_raises.
Qed.

Lemma synopsis_line_edges_witness :
  synopsis_line (L "  # sinfo ifile") = Ok None.
Proof.
  apply (proj1 (synopsis_line_edges (L "  # sinfo ifile") eq_refl)).
  right. reflexivity.
Defined.

(** X11. The synopsis parser is all or nothing: it returns specifications
    exactly when no line raises, and they are then those of the lines that
    were not skipped, in order; it raises [IndexError], and nothing else,
    exactly when some line does, and then returns none of the
    specifications it had read. *)
Theorem synopsis_all_or_nothing (block : str) :
  (forall specs,
     _parse_synopsis_block block = Ok specs <->
     exists outs,
       Forall2 (fun l r => synopsis_line l = Ok r) (Str.splitlines block) outs /\
       specs = omap id outs)
  /\ (forall e,
        _parse_synopsis_block block = Raise e ->
        e = IndexError /\
        Exists (fun l => synopsis_line l = Raise IndexError) (Str.splitlines block))
  /\ (Exists (fun l => synopsis_line l = Raise IndexError) (Str.splitlines block) ->
      _parse_synopsis_block block = Raise IndexError).
Proof.
  unfold _parse_synopsis_block. split; [|split].
  - intros specs. apply synopsis_loop_ok.
  - intros e. apply synopsis_loop_raises.
  - intros Hex.
    destruct (synopsis_loop (Str.splitlines block) []) as [specs|e] eqn:E.
    + exfalso. apply synopsis_loop_ok in E as (outs & H & _).
      clear -H Hex. induction H as [|l r ls outs Hl _ IH].
      * inversion Hex.
      * inversion Hex; subst; [congruence|auto].
    + apply synopsis_loop_raises in E as [-> _]. reflexivity.
Qed.

(** ** The parameter block *)

Lemma param_shape_unique (line name ty desc name' ty' desc' : str) :
  single_line line ->
  param_shape line name ty desc -> param_shape line name' ty' desc' ->
  name' = name /\ semantic_type ty' = semantic_type ty /\ desc' = desc.
Proof.
  intros Hl H H'.
  pose proof (parameters_line_match ∅ line name ty desc Hl H) as E.
  rewrite (parameters_line_match ∅ line name' ty' desc' Hl H') in E.
  assert (Hk : (<[name' := (semantic_type ty', desc')]> (∅ : gmap str (str * str)))
               !! name' = Some (semantic_type ty', desc'))
    by apply lookup_insert_eq.
  rewrite E in Hk. destruct (decide (name = name')) as [->|Hne].
  - rewrite lookup_insert_eq in Hk. now injection Hk as -> ->.
  - rewrite lookup_insert_ne, lookup_empty in Hk by exact Hne. discriminate.
Qed.

Lemma parameters_line_cases (params : gmap str (str * str)) (line : str) :
  single_line line ->
  ((forall name ty desc, ~ param_shape line name ty desc) /\
   parameters_line params line = params) \/
  exists name ty desc,
    param_shape line name ty desc /\
    parameters_line params line = <[name := (semantic_type ty, desc)]> params.
Proof.
  intros Hl.
  destruct (try_at PARAM_LINE_RE [] line false) as [st|] eqn:E.
  - right. apply param_line_sound in E; [|now apply single_line_dot].
    destruct E as (lead & name & ws1 & ty & ws2 & d0 & dl & trail & -> & Hlead &
                   Hn & Hn0 & Hw1 & Hw10 & Ht & Ht0 & Hw2 & Hw20 & Hdl & Htr).
    destruct (split_leading d0 dl Hdl) as (sp & d & E & Hsp & Hd).
    assert (Hs : param_shape
                   (lead ++ name ++ ws1 ++ ty ++ ws2 ++ (d0 ++ [dl]) ++ trail)
                   name ty d).
    { exists lead, ws1, (ws2 ++ sp), trail. rewrite E.
      repeat split; auto.
      - now rewrite <- !app_assoc.
      - intros H. apply app_eq_nil in H as [-> _]. congruence.
      - rewrite forallb_app. now rewrite Hw2, Hsp.
      - apply Hd.
      - apply Hd. }
    exists name, ty, d. split; [exact Hs|]. now apply parameters_line_match.
  - left. split.
    + intros name ty desc Hs.
      pose proof (parameters_line_match ∅ line name ty desc Hl Hs) as E'.
      unfold parameters_line, py_match in E'. rewrite E in E'. cbn in E'.
      apply (f_equal (fun m => m !! name)) in E'.
      rewrite lookup_insert_eq, lookup_empty in E'. discriminate.
    + unfold parameters_line, py_match. now rewrite E.
Qed.

Lemma semantic_type_range (ty : str) :
  In (semantic_type ty) [L "str"; L "bool"; L "int"; L "float"].
Proof.
  unfold semantic_type.
  repeat match goal with
         | |- context [if ?b then _ else _] => destruct b
         end; simpl; auto.
Qed.

Lemma parameters_fold_origin (lines : list str) (name t d : str) :
  Forall single_line lines ->
  fold_left parameters_line lines ∅ !! name = Some (t, d) ->
  exists before line after ty,
    lines = before ++ line :: after /\
    param_shape line name ty d /\ t = semantic_type ty /\
    Forall (fun l => forall ty' d', ~ param_shape l name ty' d') after.
Proof.
  induction lines as [|l lines IH] using rev_ind; intros Hl H.
  - simpl in H. rewrite lookup_empty in H. discriminate.
  - apply Forall_app in Hl as [Hls Hl]. apply Forall_inv in Hl.
    rewrite fold_left_app in H. cbn [fold_left] in H.
    destruct (parameters_line_cases (fold_left parameters_line lines ∅) l Hl)
      as [[Hno E]|(name0 & ty0 & d0 & Hs & E)]; rewrite E in H.
    + destruct (IH Hls H) as (before & line & after & ty & -> & Hs & -> & Ha).
      exists before, line, (after ++ [l]), ty. rewrite <- app_assoc.
      repeat split; auto. apply Forall_app. split; [exact Ha|].
      constructor; [|constructor]. intros ty' d'. apply Hno.
    + destruct (decide (name0 = name)) as [->|Hne].
      * rewrite lookup_insert_eq in H. injection H as <- <-.
        exists lines, l, [], ty0. repeat split; auto.
      * rewrite lookup_insert_ne in H by exact Hne.
        destruct (IH Hls H) as (before & line & after & ty & -> & Hs' & -> & Ha).
        exists before, line, (after ++ [l]), ty. rewrite <- app_assoc.
        repeat split; auto. apply Forall_app. split; [exact Ha|].
        constructor; [|constructor]. intros ty' d' Hs''.
        destruct (param_shape_unique l name0 ty0 d0 name ty' d' Hl Hs Hs'')
          as (Hn & _). congruence.
Qed.

(** X12. Every entry of the parameter table, for any block, was written by
    a line of the block of the form name, type token, description, and by
    the last such line for its name: later lines of the same name replace
    earlier ones.  Its type is one of [str], [bool], [int] and [float],
    its name is a non-empty run of letters, digits and underscores, and
    its description is non-empty with no white space at either end. *)
Theorem parameters_block_invariants (block name t d : str) :
  _parse_parameters_block block !! name = Some (t, d) ->
  In t [L "str"; L "bool"; L "int"; L "float"]
  /\ name <> [] /\ forallb word name = true /\ trimmed d
  /\ exists before line after ty,
       Str.splitlines block = before ++ line :: after /\
       param_shape line name ty d /\ t = semantic_type ty /\
       Forall (fun l => forall ty' d', ~ param_shape l name ty' d') after.
Proof.
  unfold _parse_parameters_block. intros H.
  apply parameters_fold_origin in H; [|apply splitlines_single_lines].
  destruct H as (before & line & after & ty & E & Hs & -> & Ha).
  split; [apply semantic_type_range|].
  pose proof Hs as (lead & ws1 & ws2 & trail & _ & _ & Hn0 & Hn & _ & _ & _ & _ &
                    _ & _ & Hd & _).
  split; [exact Hn0|]. split; [exact Hn|]. split; [exact Hd|].
  exists before, line, after, ty. now repeat split.
Qed.

Lemma parameters_block_invariants_witness :
  In (L "int") [L "str"; L "bool"; L "int"; L "float"].
Proof.
  exact (proj1 (parameters_block_invariants
                  (text_lines ["n  STRING  old"; "junk"; " n INT  count "])
                  (L "n") (L "int") (L "count") eq_refl)).
Defined.

(** ** The operator documentation *)

Lemma lstrip_upto_split (n : nat) (s : str) :
  exists w, s = w ++ lstrip_upto n s /\ forallb Chr.is_space w = true.
Proof.
  revert n. induction s as [|c s IH]; intros [|n]; simpl;
    try (exists []; split; reflexivity).
  destruct (Chr.is_space c) eqn:Hc.
  - destruct (IH n) as (w & E & Hw). exists (c :: w). simpl.
    rewrite Hc, Hw. split; [now f_equal|reflexivity].
  - exists []. split; reflexivity.
Qed.

Lemma rstrip_lstrip_upto (n : nat) (s : str) :
  Str.rstrip (lstrip_upto n (Str.rstrip s)) = lstrip_upto n (Str.rstrip s).
Proof.
  unfold Str.rstrip.
  destruct (rstrip_by_split Chr.is_space s) as (t & _ & _ & [E|(x & c & E & Hc)]).
  - rewrite E. now destruct n.
  - rewrite E.
    destruct (lstrip_upto_split n (x ++ [c])) as (w & Ew & Hw).
    destruct (lstrip_upto n (x ++ [c])) as [|a r] eqn:Er.
    + rewrite app_nil_r in Ew. rewrite <- Ew, forallb_app in Hw. simpl in Hw.
      rewrite Hc in Hw. apply andb_true_iff in Hw as [_ Hw]. discriminate.
    + destruct (@exists_last _ (a :: r)) as (r' & c' & Er'); [discriminate|].
      rewrite Er' in *. rewrite app_assoc in Ew.
      apply app_inj_tail in Ew as [_ <-]. now apply rstrip_by_last.
Qed.

Lemma operators_line_cases (st : opstate) (line : str) :
  single_line line ->
  (exists ln, Str.rstrip ln = ln /\ operators_line st line = append_long ln st) \/
  (exists name remainder,
     oper_shape line name remainder /\
     operators_line st line
     = OpState (ODict.set name (OpDoc name (Str.strip remainder) [])
                  (os_result st))
               (Some name)).
Proof.
  intros Hl.
  destruct (try_at OPER_LINE_RE [] line false) as [st'|] eqn:E.
  - right. apply oper_line_sound in E; [|now apply single_line_dot].
    destruct E as (name & remainder & Hs). exists name, remainder.
    split; [exact Hs|]. now apply operators_line_match.
  - left. unfold operators_line.
    destruct (Str.strip line); [now exists []|].
    unfold py_match. rewrite E. cbn [option_map]. rewrite indent_sub.
    eexists. split; [|reflexivity]. apply rstrip_lstrip_upto.
Qed.

Lemma odict_set_Forall {V} (P : str * V -> Prop) (k : str) (v : V)
    (d : ODict.t V) :
  Forall P d -> P (k, v) -> Forall P (ODict.set k v d).
Proof.
  intros Hd Hk. induction Hd as [|[k' v'] d Hx Hd IH]; cbn [ODict.set].
  - now repeat constructor.
  - destruct (Str.eqb k' k); constructor; auto.
Qed.

Lemma odict_get_In {V} (k : str) (v : V) (d : ODict.t V) :
  ODict.get k d = Some v -> In (k, v) d.
Proof.
  induction d as [|[k' v'] d IH]; cbn [ODict.get]; [discriminate|].
  unfold Str.eqb. destruct (bool_decide_reflect (k' = k)) as [->|Hne].
  - intros [= ->]. now left.
  - intros H. right. now apply IH.
Qed.

Lemma odict_set_keys_in {V} (k : str) (v : V) (d : ODict.t V) (x : str) :
  In x (ODict.keys (ODict.set k v d)) -> x = k \/ In x (ODict.keys d).
Proof.
  unfold ODict.keys.
  induction d as [|[k' v'] d IH]; cbn [ODict.set map fst In].
  - intros [<-|[]]. now left.
  - unfold Str.eqb. destruct (bool_decide_reflect (k' = k)) as [->|Hne];
      cbn [map fst In].
    + intros [<-|H]; auto.
    + intros [<-|H]; auto. apply IH in H as [->|H]; auto.
Qed.

Lemma odict_set_keys {V} (k : str) (v : V) (d : ODict.t V) :
  NoDup (ODict.keys d) -> NoDup (ODict.keys (ODict.set k v d)).
Proof.
  induction d as [|[k' v'] d IH]; cbn [ODict.set ODict.keys map fst]; intros Hd.
  - apply NoDup_cons. split; [|constructor]. intros H.
    apply list_elem_of_In in H. destruct H.
  - apply NoDup_cons in Hd as [Hk' Hd]. unfold Str.eqb.
    destruct (bool_decide_reflect (k' = k)) as [->|Hne]; cbn [map fst].
    + apply NoDup_cons. split; assumption.
    + apply NoDup_cons. split; [|now apply IH].
      intros H. apply list_elem_of_In in H.
      apply (odict_set_keys_in k v d k') in H as [->|H]; [congruence|].
      apply Hk'. now apply list_elem_of_In.
Qed.

Lemma strip_by_idem (p : ascii -> bool) (s : str) :
  Str.strip_by p (Str.strip_by p s) = Str.strip_by p s.
Proof.
  unfold Str.strip_by.
  destruct (lstrip_by_split p s) as (t & _ & _ & Hst).
  set (u := Str.lstrip_by p s) in *.
  destruct (rstrip_by_split p u) as (t' & Eu & _ & _).
  assert (Hs : stops p (Str.rstrip_by p u)).
  { destruct (Str.rstrip_by p u) as [|c r]; [exact I|].
    rewrite Eu in Hst. exact Hst. }
  rewrite (lstrip_by_stops p _ Hs). apply rstrip_by_idem.
Qed.

Lemma append_long_sound (ln : str) (st : opstate) :
  Str.rstrip ln = ln ->
  NoDup (ODict.keys (os_result st)) /\ Forall sound_entry (os_result st) ->
  NoDup (ODict.keys (os_result (append_long ln st))) /\
  Forall sound_entry (os_result (append_long ln st)).
Proof.
  intros Hln [Hk Hd]. unfold append_long.
  destruct (os_current st) as [key|]; [|now split].
  destruct (ODict.get key (os_result st)) as [e|] eqn:Eg; [|now split].
  cbn [os_result]. split; [now apply odict_set_keys|].
  apply odict_set_Forall; [exact Hd|].
  apply odict_get_In in Eg.
  pose proof (proj1 (List.Forall_forall _ _) Hd _ Eg) as (H1 & H2 & H3 & H4 & H5).
  cbn [fst snd] in *. unfold sound_entry. cbn [fst snd od_name od_short od_long_lines].
  repeat split; auto. apply Forall_app. split; [exact H5|]. now repeat constructor.
Qed.

Lemma operators_line_sound (st : opstate) (line : str) :
  single_line line ->
  NoDup (ODict.keys (os_result st)) /\ Forall sound_entry (os_result st) ->
  NoDup (ODict.keys (os_result (operators_line st line))) /\
  Forall sound_entry (os_result (operators_line st line)).
Proof.
  intros Hl H.
  destruct (operators_line_cases st line Hl)
    as [(ln & Hln & ->)|(name & remainder & Hs & ->)].
  - now apply append_long_sound.
  - destruct H as [Hk Hd]. cbn [os_result].
    split; [now apply odict_set_keys|].
    apply odict_set_Forall; [exact Hd|].
    destruct Hs as (lead & ws & _ & _ & Hn0 & Hn & _).
    unfold sound_entry. cbn [fst snd od_name od_short od_long_lines].
    repeat split; auto. apply strip_by_idem.
Qed.

(** X13. In the operator documentation of any block no name occurs twice
    among the keys, and every entry carries its own key as its name, a
    non-empty run of letters, digits and underscores; its short text has
    no white space at either end (it may be empty), and none of its long
    lines ends in white space. *)
Theorem operators_section_invariants (block : str) :
  NoDup (ODict.keys (_parse_operators_section block))
  /\ Forall (fun ke : str * opdoc =>
               od_name (snd ke) = fst ke /\
               fst ke <> [] /\ forallb word (fst ke) = true /\
               Str.strip (od_short (snd ke)) = od_short (snd ke) /\
               Forall (fun ln => Str.rstrip ln = ln) (od_long_lines (snd ke)))
       (_parse_operators_section block).
Proof.
  unfold _parse_operators_section.
  pose proof (splitlines_single_lines block) as Hl.
  assert (H0 : NoDup (ODict.keys (os_result (OpState [] None))) /\
               Forall sound_entry (os_result (OpState [] None))).
  { split; constructor. }
  revert H0. generalize (OpState [] None).
  induction Hl as [|l ls Hl _ IH]; intros st H; cbn [fold_left].
  - exact H.
  - apply IH. now apply operators_line_sound.
Qed.

(** ** The sections *)

Lemma fold_store_in (secs : list (str * str)) : forall (acc : gmap str str) k v,
  fold_left store secs acc !! k = Some v ->
  In (k, v) secs \/ acc !! k = Some v.
Proof.
  induction secs as [|[t b] secs IH]; intros acc k v; cbn [fold_left].
  - now right.
  - intros H. apply IH in H as [H|H]; [left; now right|].
    unfold store in H. cbn [fst snd] in H.
    destruct (decide (t = k)) as [->|Hne].
    + rewrite lookup_insert_eq in H. injection H as ->. left. now left.
    + rewrite lookup_insert_ne in H by exact Hne. now right.
Qed.

Lemma sections_of_in (lines : list str) (t body : str) :
  In (t, body) (sections_of lines) ->
  exists pre l ls,
    lines = pre ++ l :: ls /\ header_line l = Some t /\ body = section_body ls.
Proof.
  induction lines as [|l ls IH]; [intros []|]. cbn [sections_of].
  destruct (header_line l) as [t'|] eqn:E.
  - intros [Heq|H].
    + injection Heq as <- <-. now exists [], l, ls.
    + destruct (IH H) as (pre & l' & ls' & E' & Hl' & Hb).
      exists (l :: pre), l', ls'. rewrite E'. now repeat split.
  - intros H. destruct (IH H) as (pre & l' & ls' & E' & Hl' & Hb).
    exists (l :: pre), l', ls'. rewrite E'. now repeat split.
Qed.

Lemma split_on_line (l : str) : no_LF l -> Str.split_on Chr.LF l = [l].
Proof.
  unfold no_LF. induction l as [|c l IH]; [reflexivity|]. simpl.
  intros H. apply andb_true_iff in H as [Hc H]. unfold Chr.dot in Hc.
  apply negb_true_iff in Hc. rewrite Hc, IH by exact H. reflexivity.
Qed.

Lemma split_on_join (xs : list str) :
  Forall no_LF xs -> xs <> [] ->
  Str.split_on Chr.LF (Str.join [Chr.LF] xs) = xs.
Proof.
  induction 1 as [|x xs Hx Hxs IH]; [congruence|]. intros _.
  destruct xs as [|y xs].
  - cbn [Str.join]. rewrite ?app_nil_r. now apply split_on_line.
  - change (Str.join [Chr.LF] (x :: y :: xs))
      with (x ++ Chr.LF :: Str.join [Chr.LF] (y :: xs)).
    rewrite split_on_app, split_on_line by exact Hx.
    rewrite IH by discriminate. reflexivity.
Qed.

Lemma strip_lines (P : str -> Prop) (s : str) :
  P [] -> Forall P (Str.split_on Chr.LF s) ->
  Forall P (Str.split_on Chr.LF (Str.strip_chars [Chr.LF] s)).
Proof.
  intros H0 H. unfold Str.strip_chars, Str.strip_by.
  assert (Hl : Forall P (Str.split_on Chr.LF
                           (Str.lstrip_by (Chr.any_of [Chr.LF]) s))).
  { induction s as [|c s IH]; [exact H|]. cbn [Str.lstrip_by].
    unfold Chr.any_of at 1. cbn [existsb]. rewrite orb_false_r.
    destruct (Ascii.eqb c Chr.LF) eqn:Ec; [|exact H].
    apply IH. cbn [Str.split_on] in H. rewrite Ec in H.
    now apply Forall_inv_tail in H. }
  clear H. set (u := Str.lstrip_by (Chr.any_of [Chr.LF]) s) in *.
  destruct (rstrip_by_split (Chr.any_of [Chr.LF]) u) as (t & E & Ht & _).
  rewrite E in Hl. revert Hl. generalize (Str.rstrip_by (Chr.any_of [Chr.LF]) u).
  clear E. intros x. destruct t as [|c t]; [now rewrite app_nil_r|].
  cbn [forallb] in Ht. apply andb_true_iff in Ht as [Hc _].
  unfold Chr.any_of in Hc. cbn [existsb] in Hc. rewrite orb_false_r in Hc.
  apply Ascii.eqb_eq in Hc as ->. rewrite split_on_app.
  intros H. now apply Forall_app in H as [H _].
Qed.

Lemma leading_Forall {A} (P : A -> Prop) (p : A -> bool) (l : list A) :
  Forall P l -> Forall P (leading p l).
Proof.
  induction 1 as [|x l Hx Hl IH]; simpl; [constructor|].
  destruct (p x); [now constructor|constructor].
Qed.

Lemma leading_holds {A} (p : A -> bool) (l : list A) :
  Forall (fun x => p x = true) (leading p l).
Proof.
  induction l as [|x l IH]; simpl; [constructor|].
  destruct (p x) eqn:E; [now constructor|constructor].
Qed.

Lemma section_body_lines (ls : list str) :
  Forall no_LF ls ->
  Forall (fun l => header_line l = None)
    (Str.split_on Chr.LF (section_body ls)).
Proof.
  intros Hls. unfold section_body. apply strip_lines; [reflexivity|].
  set (xs := leading plain (after_leading ws_only ls)).
  assert (Hp : Forall (fun l => header_line l = None) xs).
  { eapply Forall_impl; [apply leading_holds|].
    intros l. unfold plain, is_header. cbv beta.
    destruct (header_line l); [discriminate|reflexivity]. }
  assert (Hn : Forall no_LF xs).
  { apply leading_Forall. now apply after_leading_Forall. }
  destruct xs as [|x xs']; [now repeat constructor|].
  rewrite split_on_join by (assumption || discriminate). exact Hp.
Qed.

(** X14. Whatever the help text, the section table has no key other than
    the six header tokens; no section body begins or ends with a newline;
    and no line of a body is a header line. *)
Theorem split_sections_invariants (text k body : str) :
  _split_sections text !! k = Some body ->
  In k HEADERS
  /\ Str.strip_chars [Chr.LF] body = body
  /\ Forall (fun l => header_line l = None) (Str.split_on Chr.LF body).
Proof.
  rewrite split_sections_lines. intros H.
  apply fold_store_in in H as [H|H]; [|rewrite lookup_empty in H; discriminate].
  apply sections_of_in in H as (pre & l & ls & E & Hl & ->).
  split; [now apply header_line_inv in Hl|]. split.
  - unfold section_body, Str.strip_chars. apply strip_by_idem.
  - apply section_body_lines.
    destruct (split_on_text text) as (_ & Hn & _). rewrite E in Hn.
    apply Forall_app in Hn as [_ Hn]. now apply Forall_inv_tail in Hn.
Qed.

Lemma split_sections_invariants_witness :
  In (L "SYNOPSIS") HEADERS.
Proof.
  exact (proj1 (split_sections_invariants
                  (text_lines ["NAME"; "  sinfo"; ""; "SYNOPSIS  "; ""; "  sinfo ifile"; ""])
                  (L "SYNOPSIS") (L "  sinfo ifile") eq_refl)).
Defined.

(** ** The generated text *)






Lemma contains_line (x : str) (ls : list str) :
  In x ls -> Str.contains x (lines_of ls) = true.
Proof.
  intros H. apply contains_iff. unfold lines_of.
  induction ls as [|y ls IH]; [destruct H|].
  destruct H as [->|H].
  - destruct ls as [|z ls].
    + exists [], []. simpl. now rewrite app_nil_r.
    + exists [], (Chr.LF :: Str.join [Chr.LF] (z :: ls)). reflexivity.
  - destruct (IH H) as (pre & post & E).
    destruct ls as [|z ls]; [destruct H|].
    exists (y ++ Chr.LF :: pre), post.
    change (Str.join [Chr.LF] (y :: z :: ls))
      with (y ++ Chr.LF :: Str.join [Chr.LF] (z :: ls)).
    rewrite E. now rewrite <- app_assoc.
Qed.









Example optional_typed_line :
  let s := Spec (L "sellevel") [] [L "levels"] [L "infile"] [L "outfile"] false in
  let pm : gmap str (str * str) :=
    <[L "levels" := (L "float", L "Comma-separated levels.")]> ∅ in
  let doc := _build_docstring (L "sellevel") s pm [] [] in
  In (L "levels=None") (args_list_of s pm)
  /\ Str.contains
       (Chr.LF :: L "levels : float, optional"
        ++ Chr.LF :: L "    Comma-separated levels." ++ [Chr.LF]) doc = true
  /\ Str.contains (L "(default: False)") doc = false.
Proof. vm_compute. repeat split. right; right; right; now left. Qed.

(** ** The fallback names, the page and the class *)

Lemma before_sep_char (d : ascii) (s : str) :
  forallb (Chr.non (Chr.lit d)) (before_sep [d] s) = true.
Proof.
  induction s as [|c s IH]; [reflexivity|]. cbn [before_sep nonempty andb].
  cbn [Str.startswith]. rewrite andb_true_r.
  destruct (Ascii.eqb d c) eqn:E; [reflexivity|].
  cbn [forallb]. rewrite IH. unfold Chr.non, Chr.lit.
  rewrite Ascii.eqb_sym, E. reflexivity.
Qed.

Lemma split_on_no_sep (d : ascii) (s : str) :
  Forall (fun g => forallb (Chr.non (Chr.lit d)) g = true) (Str.split_on d s).
Proof.
  induction s as [|c s IH]; simpl; [now repeat constructor|].
  destruct (Ascii.eqb c d) eqn:E; [now constructor|].
  destruct (Str.split_on d s) as [|l ls]; [repeat constructor|].
  - simpl. unfold Chr.non, Chr.lit. now rewrite E.
  - inversion IH; subst. constructor; [|assumption].
    simpl. unfold Chr.non at 1, Chr.lit. now rewrite E.
Qed.

Lemma strip_by_chars (p q : ascii -> bool) (s : str) :
  forallb q s = true -> forallb q (Str.strip_by p s) = true.
Proof.
  intros H. unfold Str.strip_by.
  destruct (lstrip_by_split p s) as (t & E & _ & _).
  rewrite E, forallb_app in H. apply andb_true_iff in H as [_ H].
  destruct (rstrip_by_split p (Str.lstrip_by p s)) as (t' & E' & _ & _).
  rewrite E', forallb_app in H. now apply andb_true_iff in H as [H _].
Qed.

(** X18. The operator names of the fallback are non-empty, have no white
    space at either end and contain neither a comma nor a hyphen: a name
    is cut at its first hyphen.  Without a line that holds both a comma
    and a hyphen the fallback yields no name. *)
Theorem name_fallback_names (name_block : str) :
  Forall (fun n =>
            n <> [] /\ Str.strip n = n /\
            forallb (Chr.non (Chr.lit ",")) n = true /\
            forallb (Chr.non (Chr.lit "-")) n = true)
    (name_fallback name_block)
  /\ (Forall (fun ln => Str.contains (L ",") ln && Str.contains (L "-") ln = false)
        (Str.splitlines name_block) ->
      name_fallback name_block = []).
Proof.
  unfold name_fallback. split.
  - destruct (nonempty _); [|constructor].
    set (left := before_sep (L "-") _).
    assert (Hleft : forallb (Chr.non (Chr.lit "-")) left = true)
      by apply before_sep_char.
    apply List.Forall_forall. intros n Hn.
    apply List.filter_In in Hn as [Hn Hne].
    apply in_map_iff in Hn as (g & <- & Hg).
    split; [now destruct (Str.strip g)|]. split; [apply strip_by_idem|].
    split; apply strip_by_chars.
    + pose proof (split_on_no_sep "," left) as H.
      exact (proj1 (List.Forall_forall _ _) H g Hg).
    + pose proof (split_on_chars _ "," left Hleft) as H.
      exact (proj1 (List.Forall_forall _ _) H g Hg).
  - intros H.
    assert (E : List.filter
                  (fun ln => Str.contains (L ",") ln && Str.contains (L "-") ln)
                  (Str.splitlines name_block) = []).
    { induction H as [|ln lns Hln _ IH]; [reflexivity|].
      cbn [List.filter]. now rewrite Hln. }
    now rewrite E.
Qed.

Lemma page_specs_raises (help_text : str) (e : exn) :
  page_specs help_text = Raise e -> e = IndexError.
Proof.
  unfold page_specs.
  destruct (_parse_synopsis_block _) as [specs|e'] eqn:E; cbn [bind].
  - destruct (existsb is_template specs); discriminate.
  - intros [= <-]. unfold _parse_synopsis_block in E.
    now apply synopsis_loop_raises in E as [-> _].
Qed.

Lemma page_specs_no_template (help_text : str) (specs : list spec) :
  page_specs help_text = Ok specs ->
  Forall (fun s => is_template s = false) specs.
Proof.
  unfold page_specs.
  destruct (_parse_synopsis_block _) as [specs0|e'] eqn:E; cbn [bind];
    [|discriminate].
  destruct (existsb is_template specs0) eqn:Ex.
  - intros [= <-]. rewrite expand_flat. apply expand_no_template.
  - intros [= <-]. apply List.Forall_forall. intros s Hs.
    destruct (is_template s) eqn:Et; [|reflexivity].
    assert (existsb is_template specs0 = true)
      by (apply existsb_exists; now exists s).
    congruence.
Qed.

Lemma attach_page_keeps (exec_accepts : str -> bool) (help_text : str)
    (cls : gmap str member) :
  cls ⊆ fst (_attach_dynamic_methods exec_accepts help_text cls).
Proof.
  unfold _attach_dynamic_methods.
  destruct (page_specs help_text); [apply attach_keeps|reflexivity].
Qed.

(** X19. Attaching a help page never removes or replaces a member of the
    class.  It can raise only the [IndexError] of the synopsis parser and
    the error of a refused [def] statement; when the synopsis cannot be
    parsed, nothing is attached; a page without a SYNOPSIS section
    attaches nothing and raises nothing; and no template specification
    ever reaches the attach loop. *)
Theorem attach_dynamic_methods_outcomes (exec_accepts : str -> bool)
    (help_text : str) (cls : gmap str member) :
  cls ⊆ fst (_attach_dynamic_methods exec_accepts help_text cls)
  /\ (forall e,
        snd (_attach_dynamic_methods exec_accepts help_text cls) = Raise e ->
        e = IndexError \/ e = SynthesisError)
  /\ (forall e,
        page_specs help_text = Raise e ->
        _attach_dynamic_methods exec_accepts help_text cls
        = (cls, Raise IndexError))
  /\ (_split_sections help_text !! L "SYNOPSIS" = None ->
      _attach_dynamic_methods exec_accepts help_text cls = (cls, Ok tt))
  /\ (forall specs,
        page_specs help_text = Ok specs ->
        Forall (fun s => is_template s = false) specs).
Proof.
  split; [apply attach_page_keeps|].
  unfold _attach_dynamic_methods. split; [|split; [|split]].
  - intros e. destruct (page_specs help_text) as [specs|e'] eqn:E; cbn [snd].
    + intros H. apply attach_failure in H as [-> _]. now right.
    + intros [= <-]. apply page_specs_raises in E. now left.
  - intros e E. rewrite E. now apply page_specs_raises in E as ->.
  - intros E. unfold page_specs. cbv zeta.
    match goal with
    | |- context [_parse_synopsis_block ?x] =>
        replace x with (@nil ascii)
          by (symmetry; exact (f_equal (default []) E))
    end.
    reflexivity.
  - apply page_specs_no_template.
Qed.

(** X20. [_attach_operator] asks for the help page with the command
    [cdo -h operator], the operator as one word.  Whatever happens, every
    member the class had is still there unchanged afterwards; and when the
    command ends with a status other than zero, or its output is not
    UTF-8, the class is left as it was. *)
Theorem attach_operator_keeps (exec_accepts : str -> bool)
    (subprocess_run : list str -> completed)
    (decode_utf8 : list Byte.byte -> option str)
    (operator : str) (cls : gmap str member) :
  let output := subprocess_run [L "cdo"; L "-h"; operator] in
  let after := _attach_operator exec_accepts subprocess_run decode_utf8
                 operator cls in
  cls ⊆ after
  /\ (returncode output <> 0%Z -> after = cls)
  /\ (decode_utf8 (stdout output) = None -> after = cls)
  /\ (forall help_text,
        returncode output = 0%Z ->
        decode_utf8 (stdout output) = Some help_text ->
        after = fst (_attach_dynamic_methods exec_accepts help_text cls)).
Proof.
  cbv zeta. unfold _attach_operator, run, execute, decode. cbn [as_list app].
  destruct (Z.eqb_spec (returncode (subprocess_run [L "cdo"; L "-h"; operator])) 0)
    as [E|E]; cbn [negb].
  - destruct (decode_utf8 (stdout _)) as [text|] eqn:Ed.
    + split; [apply attach_page_keeps|]. split; [congruence|].
      split; [discriminate|]. now intros t _ [= <-].
    + split; [reflexivity|]. split; [reflexivity|]. split; [reflexivity|].
      discriminate.
  - destruct (decode_utf8 (stderr _)); cbn [bind];
      (split; [reflexivity|]); (split; [reflexivity|]);
      (split; [reflexivity|]); congruence.
Qed.


(** X21. With [return_type="stdout"], [execute] is the default call.  With
    [return_type="output"] a successful run returns the finished process
    and its standard output is not decoded, so output that is not UTF-8
    raises nothing.  With any other [return_type] a successful run returns
    [None] and raises nothing.  A failed run raises the same exception
    whatever the [return_type]. *)
Theorem execute_return_types (subprocess_run : list str -> completed)
    (decode_utf8 : list Byte.byte -> option str)
    (return_type : str) (command : list str) :
  let output := subprocess_run command in
  execute_as subprocess_run decode_utf8 (L "stdout") command
  = bind (execute subprocess_run decode_utf8 command) (fun text => Ok (RText text))
  /\ (returncode output = 0%Z ->
      execute_as subprocess_run decode_utf8 (L "output") command
      = Ok (ROutput output))
  /\ (returncode output = 0%Z ->
      return_type <> L "output" -> return_type <> L "stdout" ->
      execute_as subprocess_run decode_utf8 return_type command = Ok RNone)
  /\ (returncode output <> 0%Z ->
      execute_as subprocess_run decode_utf8 return_type command
      = bind (execute subprocess_run decode_utf8 command)
          (fun text => Ok (RText text))).
Proof.
  cbv zeta. unfold execute_as, execute.
  destruct (Z.eqb_spec (returncode (subprocess_run command)) 0) as [E|E];
    cbn [negb].
  - split; [reflexivity|]. split; [reflexivity|]. split; [|congruence].
    intros _ H1 H2. unfold Str.eqb.
    rewrite !bool_decide_eq_false_2 by assumption. reflexivity.
  - split.
    + now destruct (decode decode_utf8 (stderr _)).
    + split; [congruence|]. split; [congruence|]. intros _.
      now destruct (decode decode_utf8 (stderr _)).
Qed.







Lemma parameters_line_keeps (params : gmap str (str * str)) (line name : str) :
  is_Some (params !! name) -> is_Some (parameters_line params line !! name).
Proof.
  intros H. unfold parameters_line.
  destruct (py_match PARAM_LINE_RE line) as [m|]; [|exact H].
  cbv zeta. destruct (decide (grp 1 m = name)) as [->|Hne].
  - rewrite lookup_insert_eq. eauto.
  - now rewrite lookup_insert_ne.
Qed.

Lemma parameters_fold_keeps (lines : list str) :
  forall (params : gmap str (str * str)) (name : str),
  is_Some (params !! name) ->
  is_Some (fold_left parameters_line lines params !! name).
Proof.
  induction lines as [|l lines IH]; intros params name H; [exact H|].
  cbn [fold_left]. apply IH. now apply parameters_line_keeps.
Qed.

(** X24. Every line of a parameter block of the form name, type token,
    description leaves an entry under its name, whatever the other lines
    of the block are; the entry is that of the line unless a later line
    of the same name replaced it. *)
Theorem parameters_block_complete (block line name ty desc : str) :
  In line (Str.splitlines block) ->
  param_shape line name ty desc ->
  is_Some (_parse_parameters_block block !! name).
Proof.
  unfold _parse_parameters_block. intros Hin Hs.
  pose proof (splitlines_single_lines block) as Hl.
  apply in_split in Hin as (before & after & E). rewrite E in *.
  apply Forall_app in Hl as [_ Hl]. apply Forall_cons in Hl as [Hl _].
  rewrite fold_left_app. cbn [fold_left]. apply parameters_fold_keeps.
  rewrite (parameters_line_match _ line name ty desc Hl Hs).
  rewrite lookup_insert_eq. eauto.
Qed.

Lemma parameters_block_complete_witness :
  is_Some (_parse_parameters_block
             (text_lines ["grid  STRING  Target grid"; "junk"]) !! L "grid").
Proof.
  apply (parameters_block_complete _ (L "grid  STRING  Target grid") (L "grid")
           (L "STRING") (L "Target grid")).
  - left. reflexivity.
  - exists [], (L "  "), (L "  "), [].
    repeat split; try reflexivity; discriminate.
Defined.

(** X25. When attaching a help page raises nothing, every operator name
    of the page's call specifications is a member of the class
    afterwards. *)
Theorem attach_success_covers (exec_accepts : str -> bool) (help_text : str)
    (cls : gmap str member) (specs : list spec) :
  snd (_attach_dynamic_methods exec_accepts help_text cls) = Ok tt ->
  page_specs help_text = Ok specs ->
  Forall (fun s =>
            is_Some (fst (_attach_dynamic_methods exec_accepts help_text cls)
                     !! op s)) specs.
Proof.
  unfold _attach_dynamic_methods. intros H E. rewrite E in *.
  now apply attach_covers.
Qed.

Lemma attach_success_covers_witness :
  is_Some (fst (_attach_dynamic_methods (fun _ => true)
                  (text_lines ["NAME"; "    topo - Topography"; ""; "SYNOPSIS";
                               "    topo  outfile"]) ∅)
           !! L "topo").
Proof.
  exact (Forall_inv
    (attach_success_covers (fun _ => true)
       (text_lines ["NAME"; "    topo - Topography"; ""; "SYNOPSIS";
                    "    topo  outfile"])
       ∅ [Spec (L "topo") [] [] [L "outfile"] [] false] eq_refl eq_refl)).
Defined.
